(** * DatasetRE10k: camera reconstruction, baseline normalisation and
      shard iteration of [src/dataset/dataset_re10k.py]

    The tensors of the source hold 32-bit floats.  Throughout this
    development a float is idealised as a real number ([R]): rounding,
    NaN and infinities are not modelled.  Every place where the source
    would produce NaN or Inf (a division by zero) is guarded in the
    theorems by an explicit hypothesis on the divisor; where the source
    raises an exception the model returns [None] or [Raise].

    [torch.Tensor.inverse] is a parameter of the model.  All that is
    assumed of it ([inverts_regular]) is that it returns the inverse of a
    regular matrix.  On a matrix that is singular in exact arithmetic the
    float routine raises when the elimination meets a pivot that is
    exactly zero, and returns a matrix without meaning otherwise (pivots
    that rounding made non-zero, NaN entries); the model leaves that case
    open. *)

From Stdlib Require Import Reals Lra Lia String Ascii DecimalString List Arith Bool Permutation.
Import ListNotations.

Open Scope R_scope.

(** ** Small vectors *)

Module Vec.

Record vec3 : Type := V3 { vx : R; vy : R; vz : R }.

Definition vzero : vec3 := V3 0 0 0.

Definition vadd (a b : vec3) : vec3 :=
  V3 (vx a + vx b) (vy a + vy b) (vz a + vz b).

Definition vsub (a b : vec3) : vec3 :=
  V3 (vx a - vx b) (vy a - vy b) (vz a - vz b).

Definition vneg (a : vec3) : vec3 := V3 (- vx a) (- vy a) (- vz a).

(** [x * k] and [x / k] with a scalar [k], elementwise. *)
Definition vscale (a : vec3) (k : R) : vec3 :=
  V3 (vx a * k) (vy a * k) (vz a * k).

Definition vdiv (a : vec3) (k : R) : vec3 :=
  V3 (vx a / k) (vy a / k) (vz a / k).

(** [(x * y).sum(dim=-1)] *)
Definition dot (a b : vec3) : R := vx a * vx b + vy a * vy b + vz a * vz b.

(** [x.norm()] of a 3-vector: the Euclidean norm. *)
Definition norm (a : vec3) : R := sqrt (dot a a).

(** [torch.cross] along the axis of size three. *)
Definition cross (a b : vec3) : vec3 :=
  V3 (vy a * vz b - vz a * vy b)
     (vz a * vx b - vx a * vz b)
     (vx a * vy b - vy a * vx b).

End Vec.
Import Vec.

(** ** The basis construction of the direction-encoded path *)

(** [DatasetRE10k.normalize]:
    [x / torch.sqrt((x * x).sum(dim=-1)).unsqueeze(dim=-1)].  On the zero
    vector the source computes 0/0 and returns NaN, which the model does
    not represent. *)
Definition normalize (x : vec3) : vec3 := vdiv x (sqrt (dot x x)).

(** The reference axis written into [up] by
    [up[..., :] = 0; up[..., 2:3] = 1]. *)
Definition up_ref : vec3 := V3 0 0 1.

(** [torch.cross(a, b)] as the source calls it, without [dim], on two
    tensors of shape [(B, 1, 3)]: torch takes the first axis of size
    three.  For [B = 3] that is the batch axis: for each of the three
    coordinates, the product of the column that the coordinate has over
    the three frames.  For any other [B] it is the last axis: one product
    per frame.  The two tensors have the same shape wherever the source
    calls it. *)
Definition torch_cross (a b : list vec3) : list vec3 :=
  match a, b with
  | [a0; a1; a2], [b0; b1; b2] =>
      let cx := cross (V3 (vx a0) (vx a1) (vx a2)) (V3 (vx b0) (vx b1) (vx b2)) in
      let cy := cross (V3 (vy a0) (vy a1) (vy a2)) (V3 (vy b0) (vy b1) (vy b2)) in
      let cz := cross (V3 (vz a0) (vz a1) (vz a2)) (V3 (vz b0) (vz b1) (vz b2)) in
      [V3 (vx cx) (vx cy) (vx cz); V3 (vy cx) (vy cy) (vy cz); V3 (vz cx) (vz cy) (vz cz)]
  | _, _ => map (fun ab => cross (fst ab) (snd ab)) (combine a b)
  end.

(** [DatasetRE10k.get_forward_up_right_tensor] on a batch of shape
    [(B, 1, 3)], one direction per frame; the result is the triple
    [(to_light, up, right)] in the order the source returns it.
    [normalize] works along the last axis, the two products along the
    axis that [torch.cross] picks. *)
Definition get_forward_up_right_tensor (to_light : list vec3)
  : list vec3 * list vec3 * list vec3 :=
  let to_light := map normalize to_light in
  let up := map (fun _ => up_ref) to_light in
  let right' := map normalize (torch_cross to_light up) in
  let up := map normalize (torch_cross to_light right') in
  (to_light, up, right').

(** The three vectors of frame [i] in a result of
    [get_forward_up_right_tensor], in the order [(to_light, up, right)]. *)
Definition frame_of (basis : list vec3 * list vec3 * list vec3) (i : nat)
  : option (vec3 * vec3 * vec3) :=
  let '(to_light, up, right') := basis in
  match nth_error to_light i, nth_error up i, nth_error right' i with
  | Some f, Some u, Some r => Some (f, u, r)
  | _, _, _ => None
  end.

(** What the construction gives for one direction when both products run
    along the direction's own axis, as they do in every batch whose size
    is not three. *)
Definition vector_basis (v : vec3) : vec3 * vec3 * vec3 :=
  let to_light := normalize v in
  let right' := normalize (cross to_light up_ref) in
  let up := normalize (cross to_light right') in
  (to_light, up, right').

Definition basis_forward (v : vec3) : vec3 := fst (fst (vector_basis v)).
Definition basis_up (v : vec3) : vec3 := snd (fst (vector_basis v)).
Definition basis_right (v : vec3) : vec3 := snd (vector_basis v).

(** Three unit vectors, orthogonal in pairs. *)
Definition orthonormal (f u r : vec3) : Prop :=
  (norm f = 1 /\ norm u = 1 /\ norm r = 1) /\
  (dot f r = 0 /\ dot f u = 0 /\ dot r u = 0).

(** An input is degenerate when its cross product with the reference axis
    vanishes, that is when it is parallel to +Z (the zero vector included). *)
Definition parallel_to_up_ref (v : vec3) : Prop := cross v up_ref = vzero.

(** ** Matrices

    A 4x4 matrix is four rows of four entries, a 3x3 matrix three rows of
    three entries, as the row-major tensors of the source. *)

Module Mat.

Record vec4 : Type := V4 { v4x : R; v4y : R; v4z : R; v4w : R }.
Record mat4 : Type := M4 { m4r0 : vec4; m4r1 : vec4; m4r2 : vec4; m4r3 : vec4 }.
Record mat3 : Type := M3 { m3r0 : vec3; m3r1 : vec3; m3r2 : vec3 }.

(** [torch.eye(4)] and [torch.eye(3)] *)
Definition eye4 : mat4 :=
  M4 (V4 1 0 0 0) (V4 0 1 0 0) (V4 0 0 1 0) (V4 0 0 0 1).
Definition eye3 : mat3 := M3 (V3 1 0 0) (V3 0 1 0) (V3 0 0 1).

Definition v4_get (v : vec4) (j : nat) : R :=
  match j with
  | 0%nat => v4x v | 1%nat => v4y v | 2%nat => v4z v | _ => v4w v
  end.

Definition v4_set (v : vec4) (j : nat) (x : R) : vec4 :=
  match j with
  | 0%nat => V4 x (v4y v) (v4z v) (v4w v)
  | 1%nat => V4 (v4x v) x (v4z v) (v4w v)
  | 2%nat => V4 (v4x v) (v4y v) x (v4w v)
  | _ => V4 (v4x v) (v4y v) (v4z v) x
  end.

Definition m4_row (m : mat4) (i : nat) : vec4 :=
  match i with
  | 0%nat => m4r0 m | 1%nat => m4r1 m | 2%nat => m4r2 m | _ => m4r3 m
  end.

Definition m4_set_row (m : mat4) (i : nat) (r : vec4) : mat4 :=
  match i with
  | 0%nat => M4 r (m4r1 m) (m4r2 m) (m4r3 m)
  | 1%nat => M4 (m4r0 m) r (m4r2 m) (m4r3 m)
  | 2%nat => M4 (m4r0 m) (m4r1 m) r (m4r3 m)
  | _ => M4 (m4r0 m) (m4r1 m) (m4r2 m) r
  end.

(** [m[i, j]] and [m[i, j] = x] *)
Definition m4_get (m : mat4) (i j : nat) : R := v4_get (m4_row m i) j.
Definition m4_set (m : mat4) (i j : nat) (x : R) : mat4 :=
  m4_set_row m i (v4_set (m4_row m i) j x).

(** [m[:3, j:j+1] = v.reshape(3, 1)]: the top three entries of column [j]. *)
Definition m4_set_col3 (m : mat4) (j : nat) (v : vec3) : mat4 :=
  m4_set (m4_set (m4_set m 0 j (vx v)) 1 j (vy v)) 2 j (vz v).

(** [m[:3, 3]]: the translation component. *)
Definition translation (m : mat4) : vec3 :=
  V3 (m4_get m 0 3) (m4_get m 1 3) (m4_get m 2 3).

Definition v3_get (v : vec3) (j : nat) : R :=
  match j with 0%nat => vx v | 1%nat => vy v | _ => vz v end.

Definition v3_set (v : vec3) (j : nat) (x : R) : vec3 :=
  match j with
  | 0%nat => V3 x (vy v) (vz v)
  | 1%nat => V3 (vx v) x (vz v)
  | _ => V3 (vx v) (vy v) x
  end.

Definition m3_row (m : mat3) (i : nat) : vec3 :=
  match i with 0%nat => m3r0 m | 1%nat => m3r1 m | _ => m3r2 m end.

Definition m3_get (m : mat3) (i j : nat) : R := v3_get (m3_row m i) j.

Definition m3_set (m : mat3) (i j : nat) (x : R) : mat3 :=
  let r := v3_set (m3_row m i) j x in
  match i with
  | 0%nat => M3 r (m3r1 m) (m3r2 m)
  | 1%nat => M3 (m3r0 m) r (m3r2 m)
  | _ => M3 (m3r0 m) (m3r1 m) r
  end.

(** Build a 4x4 matrix from its entries. *)
Definition m4_build (f : nat -> nat -> R) : mat4 :=
  let row i := V4 (f i 0%nat) (f i 1%nat) (f i 2%nat) (f i 3%nat) in
  M4 (row 0%nat) (row 1%nat) (row 2%nat) (row 3%nat).

(** Matrix product. *)
Definition m4_mul (a b : mat4) : mat4 :=
  m4_build (fun i j =>
    m4_get a i 0 * m4_get b 0 j + m4_get a i 1 * m4_get b 1 j +
    m4_get a i 2 * m4_get b 2 j + m4_get a i 3 * m4_get b 3 j).

Definition det3 (a b c d e f g h i : R) : R :=
  a * (e * i - f * h) - b * (d * i - f * g) + c * (d * h - e * g).

(** The index of the [n]-th remaining row (column) once row (column) [k]
    is struck out. *)
Definition skip (k n : nat) : nat := if (n <? k)%nat then n else S n.

(** Entry [(r, c)] of the 3x3 matrix left when row [i] and column [j] are
    struck out. *)
Definition minor_entry (m : mat4) (i j r c : nat) : R :=
  m4_get m (skip i r) (skip j c).

Definition minor (m : mat4) (i j : nat) : R :=
  det3 (minor_entry m i j 0 0) (minor_entry m i j 0 1) (minor_entry m i j 0 2)
       (minor_entry m i j 1 0) (minor_entry m i j 1 1) (minor_entry m i j 1 2)
       (minor_entry m i j 2 0) (minor_entry m i j 2 1) (minor_entry m i j 2 2).

Definition cofactor (m : mat4) (i j : nat) : R :=
  if Nat.even (i + j) then minor m i j else - minor m i j.

Definition det4 (m : mat4) : R :=
  m4_get m 0 0 * cofactor m 0 0 + m4_get m 0 1 * cofactor m 0 1 +
  m4_get m 0 2 * cofactor m 0 2 + m4_get m 0 3 * cofactor m 0 3.

(** The inverse of a regular matrix: the adjugate over the determinant. *)
Definition adjugate_inverse (m : mat4) : mat4 :=
  m4_build (fun i j => cofactor m j i / det4 m).

(** What is assumed of [m.inverse()]: on a regular matrix it returns the
    inverse. *)
Definition inverts_regular (inverse : mat4 -> option mat4) : Prop :=
  forall m, det4 m <> 0 -> inverse m = Some (adjugate_inverse m).

End Mat.
Import Mat.

(** ** Helpers on lists and options *)

(** Apply a fallible function to every element; [None] as soon as one
    application fails. *)
Fixpoint mapM {A B : Type} (f : A -> option B) (l : list A) : option (list B) :=
  match l with
  | [] => Some []
  | a :: l' =>
      match f a with
      | None => None
      | Some b =>
          match mapM f l' with
          | None => None
          | Some bs => Some (b :: bs)
          end
      end
  end.

(** [t[indices]] for an index list: the selected entries in order; an
    index past the end raises. *)
Definition gather {A : Type} (t : list A) (indices : list nat) : option (list A) :=
  mapM (nth_error t) indices.

(** Comparisons of floats as booleans. *)
Definition Rltb (x y : R) : bool := if Rlt_dec x y then true else false.
Definition Rgtb (x y : R) : bool := Rltb y x.

(** ** Pose-vector path: [convert_poses] *)

(** [rearrange(v, "(h w) -> h w", h=3, w=4)]: twelve values, row-major,
    as three rows of four; any other length raises. *)
Definition rearrange_3_4 (l : list R) : option (vec4 * vec4 * vec4) :=
  match l with
  | [a0; a1; a2; a3; b0; b1; b2; b3; c0; c1; c2; c3] =>
      Some (V4 a0 a1 a2 a3, V4 b0 b1 b2 b3, V4 c0 c1 c2 c3)
  | _ => None
  end.

(** The intrinsics of one pose vector: [fx, fy, cx, cy = poses[:, :4].T]
    written into an identity matrix. *)
Definition pose_intrinsics (pose : list R) : mat3 :=
  let fx := nth 0 pose 0 in
  let fy := nth 1 pose 0 in
  let cx := nth 2 pose 0 in
  let cy := nth 3 pose 0 in
  let intrinsics := eye3 in
  let intrinsics := m3_set intrinsics 0 0 fx in
  let intrinsics := m3_set intrinsics 1 1 fy in
  let intrinsics := m3_set intrinsics 0 2 cx in
  let intrinsics := m3_set intrinsics 1 2 cy in
  intrinsics.

(** The stored matrix of one pose vector:
    [w2c[:, :3] = rearrange(poses[:, 6:], "b (h w) -> b h w", h=3, w=4)]
    over an identity matrix. *)
Definition pose_w2c (pose : list R) : option mat4 :=
  match rearrange_3_4 (skipn 6 pose) with
  | None => None
  | Some (r0, r1, r2) =>
      let w2c := eye4 in
      Some (m4_set_row (m4_set_row (m4_set_row w2c 0 r0) 1 r1) 2 r2)
  end.

Section Conversion.

(** [torch.Tensor.inverse] on one matrix of the batch; [None] when it
    raises. *)
Variable inverse : mat4 -> option mat4.

(** One row of the batch: the pair (inverted stored matrix, intrinsics). *)
Definition convert_pose (pose : list R) : option (mat4 * mat3) :=
  match pose_w2c pose with
  | None => None
  | Some w2c =>
      match inverse w2c with
      | None => None
      | Some e => Some (e, pose_intrinsics pose)
      end
  end.

(** [DatasetRE10k.convert_poses]: returns [(w2c.inverse(), intrinsics)]
    for a batch of pose vectors; [None] when the source raises: an empty
    batch (the [print(w2c[0])] before the return), a row that does not
    have eighteen entries (the [rearrange]), or an inversion that
    raises. *)
Definition convert_poses (poses : list (list R)) : option (list mat4 * list mat3) :=
  match poses with
  | [] => None
  | _ :: _ =>
      match mapM convert_pose poses with
      | None => None
      | Some rows => Some (map fst rows, map snd rows)
      end
  end.

End Conversion.

(** The stored matrix and the intrinsics of a pose vector written out
    entry by entry, for the statements about [convert_poses]: rows from
    the entries 6..17 over the bottom row of the identity, and the
    calibration matrix of the entries 0..3. *)
Definition stored_matrix (pose : list R) : mat4 :=
  let p i := nth i pose 0 in
  M4 (V4 (p 6%nat) (p 7%nat) (p 8%nat) (p 9%nat))
     (V4 (p 10%nat) (p 11%nat) (p 12%nat) (p 13%nat))
     (V4 (p 14%nat) (p 15%nat) (p 16%nat) (p 17%nat))
     (V4 0 0 0 1).

Definition calibration_matrix (pose : list R) : mat3 :=
  let p i := nth i pose 0 in
  M3 (V3 (p 0%nat) 0 (p 2%nat)) (V3 0 (p 1%nat) (p 3%nat)) (V3 0 0 1).

(** Following the words of the specification for the pose vector: the
    extrinsic values are "the remaining entries" of the vector once the
    four intrinsic scalars are taken. *)
Definition spec_extrinsic_values (pose : list R) : list R := skipn 4 pose.

(** What [convert_poses] reshapes: [poses[:, 6:]]. *)
Definition code_extrinsic_values (pose : list R) : list R := skipn 6 pose.

(** ** Direction-encoded path: cameras of a chunk *)

(** The tile size fixed by [reshape(-1, 256, 256, 3)]; a frame is the
    row-major list of its pixels. *)
Definition tile : nat := 256.

(** [frame[127:128, 127:128, :]]: the sample at the principal pixel. *)
Definition principal_sample (frame : list vec3) : vec3 :=
  nth (127 * tile + 127) frame vzero.

(** [camera_position]: the direction sample times [0.8]. *)
Definition camera_position (d : vec3) : vec3 := vscale d (8 / 10).

(** Lines 139-147 for one frame: the three axes written into the columns
    0..2 of an identity matrix and [-camera_position] into column 3. *)
Definition frame_matrix (right' up forward position : vec3) : mat4 :=
  let extrinsics := eye4 in
  let extrinsics := m4_set_col3 extrinsics 0 right' in
  let extrinsics := m4_set_col3 extrinsics 1 up in
  let extrinsics := m4_set_col3 extrinsics 2 forward in
  let extrinsics := m4_set_col3 extrinsics 3 (vneg position) in
  extrinsics.

Fixpoint frame_matrices (right' up forward position : list vec3) : list mat4 :=
  match right', up, forward, position with
  | r :: right', u :: up, f :: forward, p :: position =>
      frame_matrix r u f p :: frame_matrices right' up forward position
  | _, _, _, _ => []
  end.

(** Lines 135-147: the matrices assembled before [extrinsics.inverse()],
    from the direction samples of the frames of a chunk. *)
Definition c2w_matrices (samples : list vec3) : list mat4 :=
  let position := map camera_position samples in
  let forward := map vneg samples in
  let '(forward, up, right') := get_forward_up_right_tensor forward in
  frame_matrices right' up forward position.

(** The matrix of one frame with direction sample [d] in a chunk whose
    number of frames is not three. *)
Definition c2w_matrix (d : vec3) : mat4 :=
  let '(forward, up, right') := vector_basis (vneg d) in
  frame_matrix right' up forward (camera_position d).

(** The fixed intrinsics of the direction-encoded path. *)
Definition direction_intrinsics : mat3 :=
  let intrinsics := eye3 in
  let intrinsics := m3_set intrinsics 0 2 (5 / 10) in
  let intrinsics := m3_set intrinsics 0 0 (5 / 10) in
  let intrinsics := m3_set intrinsics 1 1 (5 / 10) in
  let intrinsics := m3_set intrinsics 1 2 (5 / 10) in
  intrinsics.

(** ** Direction-encoded path: radiance rescaling *)

(** Maximum of a non-empty sequence [x :: l]. *)
Fixpoint list_max (x : R) (l : list R) : R :=
  match l with
  | [] => x
  | y :: l' => list_max (Rmax x y) l'
  end.

(** One column of [images.reshape(-1, 3).max(dim=0)[0]]: the maximum of a
    channel over all pixels; torch raises on an empty tensor. *)
Definition channel_max (ch : vec3 -> R) (pixels : list vec3) : option R :=
  match pixels with
  | [] => None
  | p :: ps => Some (list_max (ch p) (map ch ps))
  end.

Definition div_channels (m : vec3) (p : vec3) : vec3 :=
  V3 (vx p / vx m) (vy p / vy m) (vz p / vz m).

(** [images / images.reshape(-1, 3).max(dim=0)[0]] over the frames of a
    chunk. *)
Definition rescale_images (images : list (list vec3)) : option (list (list vec3)) :=
  let pixels := concat images in
  match channel_max vx pixels, channel_max vy pixels, channel_max vz pixels with
  | Some mx, Some my, Some mz => Some (map (map (div_channels (V3 mx my mz))) images)
  | _, _, _ => None
  end.

(** ** Configuration, dataset object and records *)

Inductive Stage : Type := train | val | test.

Definition stage_name (s : Stage) : string :=
  match s with
  | train => "train"
  | val => "val"
  | test => "test"
  end.

(** The fields of [DatasetRE10kCfg] that [__iter__] reads. *)
Record DatasetRE10kCfg : Type := mkCfg {
  baseline_epsilon : R;
  max_fov : R;
  make_baseline_1 : bool;
  augment : bool;
  test_times_per_scene : nat;
  skip_bad_shape : bool;
  baseline_scale_bounds : bool;
  shuffle_val : bool;
  overfit_to_scene : option string
}.

(** The dataset object: [self.cfg], [self.stage], [self.chunks],
    [self.near] and [self.far]. *)
Record DatasetRE10k : Type := mkDataset {
  cfg : DatasetRE10kCfg;
  stage : Stage;
  chunks : list string;
  near : R;
  far : R
}.

Definition set_chunks (self : DatasetRE10k) (c : list string) : DatasetRE10k :=
  mkDataset (cfg self) (stage self) c (near self) (far self).

(** [torch.utils.data.get_worker_info()], when it is not [None]. *)
Record WorkerInfo : Type := mkWorker { num_workers : nat; id : nat }.

(** A decompressed [.zst] chunk after the [reshape(-1, 256, 256, c)]
    calls: one list of pixels per frame. *)
Record ZstChunk : Type := mkZst {
  radiance : list (list vec3);
  depth : list (list R);
  position : list (list vec3);
  direction : list (list vec3)
}.

(** What one step of the scene loop does: yield an example, [continue]
    without one, or raise. *)
Inductive outcome (A : Type) : Type :=
| Yield (a : A)
| Skip
| Raise.
Arguments Yield {A} a.
Arguments Skip {A}.
Arguments Raise {A}.

(** ** Shuffling and the worker split *)

(** [DatasetRE10k.shuffle]: [[lst[x] for x in indices]], with the outcome
    of [torch.randperm(len(lst))] given as [indices]. *)
Definition shuffle {A : Type} (lst : list A) (indices : list nat) : list A :=
  flat_map (fun x => match nth_error lst x with Some a => [a] | None => [] end) indices.

(** [enumerate(lst)] *)
Definition enumerate {A : Type} (lst : list A) : list (nat * A) :=
  combine (seq 0 (length lst)) lst.

(** The shards, with their positions, that worker [id] of [num_workers]
    keeps: the pairs of [enumerate(self.chunks)] that pass
    [chunk_index % num_workers == id].  torch gives a worker
    [num_workers >= 1]. *)
Definition worker_keeps (num_workers id : nat) (entry : nat * string) : bool :=
  (fst entry mod num_workers =? id)%nat.

Definition worker_entries (num_workers id : nat) (lst : list string) : list (nat * string) :=
  filter (worker_keeps num_workers id) (enumerate lst).

(** [[chunk for chunk_index, chunk in enumerate(self.chunks)
      if chunk_index % worker_info.num_workers == worker_info.id]] *)
Definition worker_chunks (num_workers id : nat) (lst : list string) : list string :=
  map snd (worker_entries num_workers id lst).

(** [x in y] for two strings: substring test. *)
Definition str_in (x y : string) : bool :=
  match String.index 0 x y with Some _ => true | None => false end.

(** [self.stage in (("train", "val") if self.cfg.shuffle_val else ("train"))];
    the second alternative is a plain string, so [in] is a substring test. *)
Definition stage_shuffles (self : DatasetRE10k) : bool :=
  if shuffle_val (cfg self)
  then String.eqb (stage_name (stage self)) "train" || String.eqb (stage_name (stage self)) "val"
  else str_in (stage_name (stage self)) "train".

(** Lines 104-118 of [__iter__]: the two assignments to [self.chunks].
    [indices] is what [torch.randperm] returns if it is called. *)
Definition iter_prologue (self : DatasetRE10k) (indices : list nat)
    (worker_info : option WorkerInfo) : DatasetRE10k :=
  let self :=
    if stage_shuffles self then set_chunks self (shuffle (chunks self) indices) else self in
  match stage self, worker_info with
  | test, Some w => set_chunks self (worker_chunks (num_workers w) (id w) (chunks self))
  | _, _ => self
  end.

(** A subsequence: some entries dropped, order kept. *)
Inductive subseq {A : Type} : list A -> list A -> Prop :=
| subseq_nil : subseq [] []
| subseq_keep x l1 l2 : subseq l1 l2 -> subseq (x :: l1) (x :: l2)
| subseq_drop x l1 l2 : subseq l1 l2 -> subseq l1 (x :: l2).

(** ** The baseline normaliser *)

(** [extrinsics[:, :3, 3] /= scale], for one matrix. *)
Definition div_translation (scale : R) (e : mat4) : mat4 :=
  m4_set_col3 e 3 (vdiv (translation e) scale).

(** Lines 217-229 and, verbatim again, 322-334: from the extrinsics of all
    views and the context indices to the scale and the extrinsics after
    the in-place division; [Skip] is the [continue] on an insufficient
    baseline. *)
Definition resize_world (c : DatasetRE10kCfg) (extrinsics : list mat4)
    (context_indices : list nat) : outcome (R * list mat4) :=
  match gather extrinsics context_indices with
  | None => Raise
  | Some context_extrinsics =>
      match context_extrinsics, make_baseline_1 c with
      | [ea; eb], true =>
          let a := translation ea in
          let b := translation eb in
          let scale := norm (vsub a b) in
          if Rltb scale (baseline_epsilon c) then Skip
          else Yield (scale, map (div_translation scale) extrinsics)
      | _, _ => Yield (1, extrinsics)
      end
  end.

(** [nf_scale = scale if self.cfg.baseline_scale_bounds else 1.0] *)
Definition nf_scale_of (c : DatasetRE10kCfg) (scale : R) : R :=
  if baseline_scale_bounds c then scale else 1.

(** [DatasetRE10k.get_bound]: the bound repeated once per view. *)
Definition get_bound (value : R) (num_views : nat) : list R := repeat value num_views.

(** [self.get_bound(bound, n) / nf_scale] *)
Definition scaled_bound (value : R) (num_views : nat) (nf_scale : R) : list R :=
  map (fun x => x / nf_scale) (get_bound value num_views).

(** [rad2deg] *)
Definition rad2deg (x : R) : R := x * (180 / PI).

(** [(fov.rad2deg() > max_fov).any()] *)
Definition fov_too_wide (c : DatasetRE10kCfg) (fov : list R) : bool :=
  existsb (fun a => Rgtb (rad2deg a) (max_fov c)) fov.

(** ** Strings of the scene loop *)

(** [s.split(".")] *)
Fixpoint split_dot (s : string) : list string :=
  match s with
  | EmptyString => [EmptyString]
  | String a s' =>
      if Ascii.eqb a "."%char then EmptyString :: split_dot s'
      else match split_dot s' with
           | h :: t => String a h :: t
           | [] => [String a EmptyString]
           end
  end.

(** [str(chunk_path).split(".")[-1] == "zst"] *)
Definition is_zst (chunk_path : string) : bool :=
  String.eqb (last (split_dot chunk_path) EmptyString) "zst".

(** [str(chunk_path).split(".")[0]] *)
Definition chunk_key (chunk_path : string) : string :=
  hd EmptyString (split_dot chunk_path).

(** [f"{n:02d}"] *)
Definition fmt_02d (n : nat) : string :=
  let s := DecimalString.NilEmpty.string_of_uint (Nat.to_uint n) in
  if (n <? 10)%nat then String "0"%char s else s.

(** ** The scene loop of [__iter__] *)

Section Pipeline.

(** Encoded images of the pose-vector path and the batch that
    [convert_images] decodes them to. *)
Variables RawImage ImageBatch : Type.

(** A record of a [.torch] chunk. *)
Record PoseExample : Type := mkPose {
  key : string;
  cameras : list (list R);
  images : list RawImage
}.

Inductive ImageData : Type :=
| DirImages (frames : list (list vec3))
| PoseImages (batch : ImageBatch).

(** One of the two groups of an example; [depths] and [positions] are
    present in the direction-encoded path only. *)
Record Views : Type := mkViews {
  v_extrinsics : list mat4;
  v_intrinsics : list mat3;
  v_image : ImageData;
  v_near : list R;
  v_far : list R;
  v_index : list nat;
  v_depths : option (list (list R));
  v_positions : option (list (list vec3))
}.

Record Example : Type := mkExample {
  context : Views;
  target : Views;
  scene : string
}.

(** The collaborators that are not part of this file.
    [inverse] is [torch.Tensor.inverse] on one matrix, [None] when it
    raises; [sample] is [self.view_sampler.sample], [None] standing for its
    [ValueError]; [get_fov] is [geometry.projection.get_fov], returning all
    the angles (radians) of its result, [None] if it raises;
    [convert_images] decodes and stacks, [batch_shape] is [shape[1:]] of
    its result; the two shims are applied to an assembled example. *)
Variable inverse : mat4 -> option mat4.
Variable sample : string -> list mat4 -> list mat3 -> option (list nat * list nat).
Variable get_fov : list mat3 -> option (list R).
Variable convert_images : list RawImage -> option ImageBatch.
Variable batch_shape : ImageBatch -> list nat.
Variable apply_augmentation_shim : Example -> Example.
Variable apply_crop_shim : Example -> Example.

(** The files: what decompressing a [.zst] chunk and [torch.load] give. *)
Variable read_zst : string -> ZstChunk.
Variable torch_load : string -> list PoseExample.

(** [torch.cat([t[i].unsqueeze(0) for i in indices], dim=0)]: raises on an
    index past the end and on an empty index list. *)
Definition gather_cat {A : Type} (t : list A) (indices : list nat) : option (list A) :=
  match indices with
  | [] => None
  | _ => gather t indices
  end.

(** Assigning per-frame values of a batch of [n] to [b] matrices: the
    sizes agree, or a single value is broadcast. *)
Definition broadcast_frames {A : Type} (b : nat) (l : list A) : option (list A) :=
  if (length l =? b)%nat then Some l
  else match l with
       | [x] => Some (repeat x b)
       | _ => None
       end.

(** Lines 135-152: cameras of the [B] frames of a direction-encoded chunk;
    the inversion of the batch raises as soon as it does for one matrix. *)
Definition chunk_cameras (b : nat) (direction : list (list vec3))
  : option (list mat4 * list mat3) :=
  match broadcast_frames b (c2w_matrices (map principal_sample direction)) with
  | None => None
  | Some c2w =>
      match mapM inverse c2w with
      | None => None
      | Some extrinsics => Some (extrinsics, repeat direction_intrinsics b)
      end
  end.

(** The literal context indices of the two paths. *)
Definition direction_context_indices : list nat := [9; 15; 34; 45]%nat.
Definition pose_context_indices : list nat := [0; 1]%nat.

(** Lines 217-254 and 322-355, the tail the two paths share: resize the
    world, then gather the cameras and the bounds of the two groups.  The
    images (and, in the direction-encoded path, depths and positions) have
    been gathered before. *)
Definition assemble_example (self : DatasetRE10k) (scene_key : string)
    (extrinsics : list mat4) (intrinsics : list mat3)
    (context_indices target_indices : list nat)
    (context_images target_images : ImageData)
    (context_depths target_depths : option (list (list R)))
    (context_positions target_positions : option (list (list vec3)))
  : outcome Example :=
  match resize_world (cfg self) extrinsics context_indices with
  | Raise => Raise
  | Skip => Skip
  | Yield (scale, extrinsics) =>
      let nf_scale := nf_scale_of (cfg self) scale in
      match gather extrinsics context_indices, gather intrinsics context_indices,
            gather extrinsics target_indices, gather intrinsics target_indices with
      | Some ce, Some ci, Some te, Some ti =>
          Yield (mkExample
            (mkViews ce ci context_images
               (scaled_bound (near self) (length context_indices) nf_scale)
               (scaled_bound (far self) (length context_indices) nf_scale)
               context_indices context_depths context_positions)
            (mkViews te ti target_images
               (scaled_bound (near self) (length target_indices) nf_scale)
               (scaled_bound (far self) (length target_indices) nf_scale)
               target_indices target_depths target_positions)
            scene_key)
      | _, _, _, _ => Raise
      end
  end.

(** Lines 169-254: one direction-encoded chunk from the sampler's answer
    [sampled] to the example handed to the shims. *)
Definition assemble_direction (self : DatasetRE10k) (scene_key : string)
    (images : list (list vec3)) (depths : list (list R)) (positions : list (list vec3))
    (extrinsics : list mat4) (intrinsics : list mat3)
    (sampled : list nat * list nat) : outcome Example :=
  let target_indices := snd sampled in
  let context_indices := direction_context_indices in
  match get_fov intrinsics with
  | None => Raise
  | Some fov =>
      if fov_too_wide (cfg self) fov then Skip
      else
        match gather_cat images context_indices, gather_cat images target_indices,
              gather_cat depths context_indices, gather_cat depths target_indices,
              gather_cat positions context_indices, gather_cat positions target_indices with
        | Some context_images, Some target_images,
          Some context_depths, Some target_depths,
          Some context_positions, Some target_positions =>
            assemble_example self scene_key extrinsics intrinsics
              context_indices target_indices
              (DirImages context_images) (DirImages target_images)
              (Some context_depths) (Some target_depths)
              (Some context_positions) (Some target_positions)
        | _, _, _, _, _, _ => Raise
        end
  end.

(** Lines 123-257: one direction-encoded chunk. *)
Definition process_direction_chunk (self : DatasetRE10k) (chunk_path : string)
    (chunk : ZstChunk) : outcome Example :=
  match rescale_images (radiance chunk) with
  | None => Raise
  | Some images =>
      match chunk_cameras (length images) (direction chunk) with
      | None => Raise
      | Some (extrinsics, intrinsics) =>
          let scene_key := chunk_key chunk_path in
          match sample scene_key extrinsics intrinsics with
          | None => Skip
          | Some sampled =>
              assemble_direction self scene_key images (depth chunk) (position chunk)
                extrinsics intrinsics sampled
          end
      end
  end.

(** [shape[1:] != (3, 360, 640)] *)
Definition image_invalid (b : ImageBatch) : bool :=
  negb (if list_eq_dec Nat.eq_dec (batch_shape b) [3; 360; 640]%nat then true else false).

(** Lines 282-355: one record of a [.torch] chunk from the sampler's
    answer [sampled] to the example handed to the shims. *)
Definition assemble_pose (self : DatasetRE10k) (scene_key : string)
    (example : PoseExample) (extrinsics : list mat4) (intrinsics : list mat3)
    (sampled : list nat * list nat) : outcome Example :=
  let target_indices := snd sampled in
  let context_indices := pose_context_indices in
  match get_fov intrinsics with
  | None => Raise
  | Some fov =>
      if fov_too_wide (cfg self) fov then Skip
      else
        match gather (images example) context_indices, gather (images example) target_indices with
        | Some craw, Some traw =>
            match convert_images craw, convert_images traw with
            | Some context_images, Some target_images =>
                let context_image_invalid := image_invalid context_images in
                let target_image_invalid := image_invalid target_images in
                if skip_bad_shape (cfg self) && (context_image_invalid || target_image_invalid)
                then Skip
                else
                  assemble_example self scene_key extrinsics intrinsics
                    context_indices target_indices
                    (PoseImages context_images) (PoseImages target_images)
                    None None None None
            | _, _ => Raise
            end
        | _, _ => Raise
        end
  end.

(** The scene name of step [run_idx]. *)
Definition scene_name (self : DatasetRE10k) (run_idx : nat) (example : PoseExample) : string :=
  let times_per_scene := test_times_per_scene (cfg self) in
  if (1 <? times_per_scene)%nat
  then (key example ++ "_" ++ fmt_02d (run_idx mod times_per_scene))%string
  else key example.

(** Lines 275-276: [convert_poses] as [__iter__] calls it, with the
    [print(extrinsics[0])] that follows, which raises on an empty
    result. *)
Definition convert_cameras (poses : list (list R)) : option (list mat4 * list mat3) :=
  match convert_poses inverse poses with
  | None => None
  | Some (extrinsics, intrinsics) =>
      match extrinsics with
      | [] => None
      | _ :: _ => Some (extrinsics, intrinsics)
      end
  end.

Definition process_pose_example (self : DatasetRE10k) (run_idx : nat)
    (example : PoseExample) : outcome Example :=
  match convert_cameras (cameras example) with
  | None => Raise
  | Some (extrinsics, intrinsics) =>
      let scene_key := scene_name self run_idx example in
      match sample scene_key extrinsics intrinsics with
      | None => Skip
      | Some sampled => assemble_pose self scene_key example extrinsics intrinsics sampled
      end
  end.

(** The steps of one [.torch] chunk (lines 262-273); the failed
    [assert len(item) == 1] is one raising step. *)
Definition pose_chunk_steps (self : DatasetRE10k) (indices : list nat)
    (chunk : list PoseExample) : list (outcome Example) :=
  let overfit :=
    match overfit_to_scene (cfg self) with
    | None => Some chunk
    | Some k =>
        match filter (fun x => String.eqb (key x) k) chunk with
        | [item] => Some (repeat item (length chunk))
        | _ => None
        end
    end in
  match overfit with
  | None => [Raise]
  | Some chunk =>
      let chunk := if stage_shuffles self then shuffle chunk indices else chunk in
      let times_per_scene := test_times_per_scene (cfg self) in
      map (fun run_idx =>
             match nth_error chunk (run_idx / times_per_scene) with
             | Some example => process_pose_example self run_idx example
             | None => Raise
             end)
          (seq 0 (times_per_scene * length chunk))
  end.

(** What the caller of the generator sees: the examples yielded, and
    whether the pass ended normally or by an exception. *)
Inductive run_result : Type :=
| Finished (out : list Example)
| Aborted (out : list Example).

Definition result_cons (e : Example) (r : run_result) : run_result :=
  match r with
  | Finished out => Finished (e :: out)
  | Aborted out => Aborted (e :: out)
  end.

(** Lines 255-257 and 356-358: the shims applied before [yield]. *)
Definition emit (self : DatasetRE10k) (example : Example) : Example :=
  let example :=
    match stage self with
    | train => if augment (cfg self) then apply_augmentation_shim example else example
    | _ => example
    end in
  apply_crop_shim example.

(** Run a sequence of steps, then what follows them. *)
Fixpoint run_steps (self : DatasetRE10k) (steps : list (outcome Example))
    (rest : run_result) : run_result :=
  match steps with
  | [] => rest
  | Yield e :: steps' => result_cons (emit self e) (run_steps self steps' rest)
  | Skip :: steps' => run_steps self steps' rest
  | Raise :: _ => Aborted []
  end.

(** The steps of one chunk; [indices] is the outcome of [torch.randperm]
    for the shuffle of a [.torch] chunk. *)
Definition chunk_steps (self : DatasetRE10k) (indices : list nat) (chunk_path : string)
  : list (outcome Example) :=
  if is_zst chunk_path
  then [process_direction_chunk self chunk_path (read_zst chunk_path)]
  else pose_chunk_steps self indices (torch_load chunk_path).

(** [for chunk_path in self.chunks: ...]; [randperm k] is what the [k]-th
    chunk of the pass draws. *)
Fixpoint iter_chunks (self : DatasetRE10k) (randperm : nat -> list nat) (k : nat)
    (paths : list string) : run_result :=
  match paths with
  | [] => Finished []
  | chunk_path :: rest =>
      run_steps self (chunk_steps self (randperm k) chunk_path)
                (iter_chunks self randperm (S k) rest)
  end.

(** [DatasetRE10k.__iter__]: the dataset object after the pass and what
    the pass yields.  [randperm 0] shuffles the chunk list. *)
Definition iter (self : DatasetRE10k) (randperm : nat -> list nat)
    (worker_info : option WorkerInfo) : DatasetRE10k * run_result :=
  let self := iter_prologue self (randperm 0%nat) worker_info in
  (self, iter_chunks self randperm 1 (chunks self)).

(** The examples of a pass. *)
Definition yielded (r : run_result) : list Example :=
  match r with Finished out => out | Aborted out => out end.

End Pipeline.

Arguments key {RawImage} p.
Arguments cameras {RawImage} p.
Arguments images {RawImage} p.
Arguments mkPose {RawImage} key cameras images.
Arguments DirImages {ImageBatch} frames.
Arguments PoseImages {ImageBatch} batch.
Arguments mkViews {ImageBatch}.
Arguments v_extrinsics {ImageBatch} v.
Arguments v_intrinsics {ImageBatch} v.
Arguments v_image {ImageBatch} v.
Arguments v_near {ImageBatch} v.
Arguments v_far {ImageBatch} v.
Arguments v_index {ImageBatch} v.
Arguments v_depths {ImageBatch} v.
Arguments v_positions {ImageBatch} v.
Arguments mkExample {ImageBatch} context target scene.
Arguments context {ImageBatch} e.
Arguments target {ImageBatch} e.
Arguments scene {ImageBatch} e.
Arguments Finished {ImageBatch} out.
Arguments Aborted {ImageBatch} out.
Arguments yielded {ImageBatch} r.
Arguments result_cons {ImageBatch} e r.
Arguments assemble_example {ImageBatch}.
Arguments assemble_direction {ImageBatch}.
Arguments process_direction_chunk {ImageBatch}.
Arguments assemble_pose {RawImage ImageBatch}.
Arguments process_pose_example {RawImage ImageBatch}.
Arguments scene_name {RawImage}.
Arguments pose_chunk_steps {RawImage ImageBatch}.
Arguments chunk_steps {RawImage ImageBatch}.
Arguments emit {ImageBatch}.
Arguments run_steps {ImageBatch}.
Arguments iter_chunks {RawImage ImageBatch}.
Arguments iter {RawImage ImageBatch}.
Arguments image_invalid {ImageBatch}.

(** ** Sample data for the worked examples *)

Module Fixture.

(** An inversion that meets [inverts_regular]: elimination in arithmetic
    without rounding, which finds a pivot that is zero exactly on the
    singular matrices and raises there. *)
Definition exact_inverse (m : mat4) : option mat4 :=
  if Req_dec_T (det4 m) 0 then None else Some (adjugate_inverse m).

Definition cfg0 (baseline_1 : bool) : DatasetRE10kCfg :=
  mkCfg (1 / 100) 150 baseline_1 false 1 true true true None.

Definition dataset0 (baseline_1 : bool) (st : Stage) (paths : list string) : DatasetRE10k :=
  mkDataset (cfg0 baseline_1) st paths (1 / 10) 1000.

(** A policy that answers context [2, 1] and target [2] for every scene. *)
Definition sample0 (_ : string) (_ : list mat4) (_ : list mat3)
  : option (list nat * list nat) := Some ([2; 1]%nat, [2]%nat).

(** A field of view of [a] radians for every frame. *)
Definition get_fov_const (a : R) (intrinsics : list mat3) : option (list R) :=
  Some (map (fun _ => a) intrinsics).

Definition convert_images0 (l : list unit) : option (list unit) := Some l.
Definition batch_shape0 (_ : list unit) : list nat := [3; 360; 640]%nat.
Definition shim0 (e : @Example (list unit)) : @Example (list unit) := e.

(** A direction-encoded chunk of 46 frames, every direction (1,0,0). *)
Definition frame0 : list vec3 := repeat (V3 1 0 0) (tile * tile).
Definition chunk0 : ZstChunk :=
  mkZst (repeat [V3 1 2 4] 46) (repeat [1] 46) (repeat [V3 0 0 0] 46) (repeat frame0 46).


(** A record of a pose-vector chunk with three frames. *)
Definition pose0 : list R := [1; 1; 1 / 2; 1 / 2; 0; 0; 1; 0; 0; 0; 0; 1; 0; 0; 0; 0; 1; 0].
Definition example0 : PoseExample unit :=
  mkPose "scene" [pose0; pose0; pose0] [tt; tt; tt].

(** [__iter__] with these collaborators. *)
Definition iter0 :=
  iter exact_inverse sample0 (get_fov_const (90 * PI / 180)) convert_images0 batch_shape0
       shim0 shim0 (fun _ => chunk0) (fun _ => [example0]).

End Fixture.

From Stdlib Require Import DecimalNat.

(** ** Helpers for the statements about cameras *)

(** A 4x4 matrix with the columns [a], [b], [c], the translation column
    [t] and the bottom row of the identity; and the matrix with the rows
    [a], [b], [c] and the translation column [t]. *)
Definition m4_of_columns (a b c t : vec3) : mat4 :=
  M4 (V4 (vx a) (vx b) (vx c) (vx t))
     (V4 (vy a) (vy b) (vy c) (vy t))
     (V4 (vz a) (vz b) (vz c) (vz t))
     (V4 0 0 0 1).

Definition m4_of_rows (a b c t : vec3) : mat4 :=
  M4 (V4 (vx a) (vy a) (vz a) (vx t))
     (V4 (vx b) (vy b) (vz b) (vy t))
     (V4 (vx c) (vy c) (vz c) (vz t))
     (V4 0 0 0 1).

(** [m @ (x, y, z, 1)], the first three entries: the matrix applied to a
    point. *)
Definition m4_apply (m : mat4) (p : vec3) : vec3 :=
  V3 (m4_get m 0 0 * vx p + m4_get m 0 1 * vy p + m4_get m 0 2 * vz p + m4_get m 0 3)
     (m4_get m 1 0 * vx p + m4_get m 1 1 * vy p + m4_get m 1 2 * vz p + m4_get m 1 3)
     (m4_get m 2 0 * vx p + m4_get m 2 1 * vy p + m4_get m 2 2 * vz p + m4_get m 2 3).

(** The determinant of the 3x3 block that the entries 6..8, 10..12 and
    14..16 of a pose vector fill. *)
Definition pose_block_det (pose : list R) : R :=
  let p i := nth i pose 0 in
  det3 (p 6%nat) (p 7%nat) (p 8%nat)
       (p 10%nat) (p 11%nat) (p 12%nat)
       (p 14%nat) (p 15%nat) (p 16%nat).

(** ** Helpers for the statements about the scene loop *)

(** The examples of the steps that yield, in order. *)
Definition yields {A : Type} (steps : list (outcome A)) : list A :=
  flat_map (fun o => match o with Yield e => [e] | _ => [] end) steps.

Definition is_raise {A : Type} (o : outcome A) : bool :=
  match o with Raise => true | _ => false end.

(** [c in s] for a character and a string. *)
Fixpoint has_char (c : ascii) (s : string) : bool :=
  match s with
  | EmptyString => false
  | String a s' => Ascii.eqb a c || has_char c s'
  end.

(** A group of an example has [n] views: every per-view field has [n]
    entries. *)
Definition views_have_size {ImageBatch : Type} (group : Views ImageBatch) (n : nat) : Prop :=
  length (v_index group) = n /\
  length (v_extrinsics group) = n /\ length (v_intrinsics group) = n /\
  length (v_near group) = n /\ length (v_far group) = n.

(** The same for a group of the direction-encoded path, with its images,
    depths and positions. *)
Definition direction_views_have_size {ImageBatch : Type} (group : Views ImageBatch)
    (n : nat) : Prop :=
  views_have_size group n /\
  exists im dp ps,
    v_image group = DirImages im /\ v_depths group = Some dp /\
    v_positions group = Some ps /\
    length im = n /\ length dp = n /\ length ps = n.

(** ** Construction of the dataset: paths, the index, [__init__], [__len__] *)


(** [s.split(c)] for a one-character separator. *)
Fixpoint split_char (c : ascii) (s : string) : list string :=
  match s with
  | EmptyString => [EmptyString]
  | String a s' =>
      if Ascii.eqb a c then EmptyString :: split_char c s'
      else match split_char c s' with
           | h :: t => String a h :: t
           | [] => [String a EmptyString]
           end
  end.

(** [PurePosixPath.name] of a path written without a trailing slash: what
    follows the last "/". *)
Definition path_name (p : string) : string := last (split_char "/" p) EmptyString.

(** [s.rfind(c)], [None] standing for -1. *)
Fixpoint rfind_char (c : ascii) (s : string) : option nat :=
  match s with
  | EmptyString => None
  | String a s' =>
      match rfind_char c s' with
      | Some i => Some (S i)
      | None => if Ascii.eqb a c then Some 0%nat else None
      end
  end.

(** [PurePath.suffix]:
    [i = name.rfind('.'); return name[i:] if 0 < i < len(name) - 1 else ''] *)
Definition suffix (p : string) : string :=
  let name := path_name p in
  match rfind_char "." name with
  | Some i =>
      if (0 <? i)%nat && (i <? String.length name - 1)%nat
      then substring i (String.length name - i) name
      else EmptyString
  | None => EmptyString
  end.

(** [path.suffix == ".torch" or path.suffix == ".zst"] *)
Definition is_chunk_file (p : string) : bool :=
  String.eqb (suffix p) ".torch" || String.eqb (suffix p) ".zst".

(** [DatasetRE10k.data_stage] *)
Definition data_stage (c : DatasetRE10kCfg) (st : Stage) : Stage :=
  match overfit_to_scene c with
  | Some _ => test
  | None => match st with val => test | _ => st end
  end.

(** A Python dict with string keys, as the list of its items in insertion
    order. *)
Definition dict (V : Type) : Type := list (string * V).

Fixpoint dict_get {V : Type} (k : string) (d : dict V) : option V :=
  match d with
  | [] => None
  | (k', v) :: d' => if String.eqb k' k then Some v else dict_get k d'
  end.

(** [d[k] = v]: the value is replaced in place, a new key goes last. *)
Fixpoint dict_set {V : Type} (k : string) (v : V) (d : dict V) : dict V :=
  match d with
  | [] => [(k, v)]
  | (k', v') :: d' =>
      if String.eqb k' k then (k', v) :: d' else (k', v') :: dict_set k v d'
  end.

(** [{**a, **b}] *)
Definition dict_merge {V : Type} (a b : dict V) : dict V :=
  fold_left (fun d kv => dict_set (fst kv) (snd kv) d) b a.

Definition dict_keys {V : Type} (d : dict V) : list string := map fst d.

(** [set(a.keys()) & set(b.keys())] is not empty. *)
Definition keys_overlap {V W : Type} (a : dict V) (b : dict W) : bool :=
  existsb (fun k => existsb (String.eqb k) (dict_keys a)) (dict_keys b).

(** [lst[::k]]: every [k]-th entry from the front for a positive step,
    from the back for a negative one; a step of 0 raises. *)
Definition take_every {A : Type} (k : nat) (l : list A) : list A :=
  map snd (filter (fun p => (fst p mod k =? 0)%nat) (enumerate l)).

Definition slice_step {A : Type} (l : list A) (k : Z) : option (list A) :=
  if (k =? 0)%Z then None
  else if (0 <? k)%Z then Some (take_every (Z.to_nat k) l)
  else Some (take_every (Z.to_nat (- k)) (rev l)).

(** The configuration as [__init__], [index] and [__len__] read it: the
    fields used by [__iter__] and the remaining ones. *)
Record DatasetRE10kCfgInit : Type := mkCfgInit {
  iter_cfg : DatasetRE10kCfg;
  roots : list string;
  cfg_near : R;
  cfg_far : R;
  test_len : Z;
  test_chunk_interval : Z
}.

Section Construction.

(** The file system: [root / name], the entries of a directory as
    [iterdir] lists them, the dict that [json.load] reads from an index
    file; and [sorted] on paths. *)
Variable joinpath : string -> string -> string.
Variable iterdir : string -> list string.
Variable read_index : string -> dict string.
Variable sorted : list string -> list string.

(** The index files that [index] merges, in order: every root for the
    first data stage, then every root for the next. *)
Definition index_sources (c : DatasetRE10kCfgInit) (st : Stage) : list (string * Stage) :=
  let data_stages :=
    match overfit_to_scene (iter_cfg c) with
    | Some _ => [test; train]
    | None => [data_stage (iter_cfg c) st]
    end in
  flat_map (fun ds => map (fun root => (root, ds)) (roots c)) data_stages.

(** One index file with its values made paths:
    [{k: Path(root / data_stage / v) for k, v in index.items()}] *)
Definition load_index (source : string * Stage) : dict string :=
  let dir := joinpath (fst source) (stage_name (snd source)) in
  map (fun kv => (fst kv, joinpath dir (snd kv))) (read_index (joinpath dir "index.json")).

(** The loop of [index]; [None] is the failed assertion. *)
Fixpoint merge_indices (loaded : list (dict string)) (merged_index : dict string)
  : option (dict string) :=
  match loaded with
  | [] => Some merged_index
  | index :: rest =>
      if keys_overlap merged_index index then None
      else merge_indices rest (dict_merge merged_index index)
  end.

(** [DatasetRE10k.index] *)
Definition index (c : DatasetRE10kCfgInit) (st : Stage) : option (dict string) :=
  merge_indices (map load_index (index_sources c st)) [].

(** [DatasetRE10k.__len__] *)
Definition len (c : DatasetRE10kCfgInit) (st : Stage) : option Z :=
  match index c st with
  | None => None
  | Some merged =>
      let n := (Z.of_nat (length (dict_keys merged)) *
                Z.of_nat (test_times_per_scene (iter_cfg c)))%Z in
      Some (match st with
            | test => if (0 <? test_len c)%Z then Z.min n (test_len c) else n
            | _ => n
            end)
  end.

(** The chunks that [__init__] collects from the roots. *)
Definition collect_chunks (c : DatasetRE10kCfgInit) (st : Stage) : list string :=
  flat_map (fun root =>
              let root := joinpath root (stage_name (data_stage (iter_cfg c) st)) in
              sorted (filter is_chunk_file (iterdir root)))
           (roots c).

(** [DatasetRE10k.__init__]; [None] when it raises (the assertion of
    [index], a missing key, a slice step of 0). *)
Definition init (c : DatasetRE10kCfgInit) (st : Stage) : option DatasetRE10k :=
  let near := if Req_dec_T (cfg_near c) (-1) then 1 / 10 else cfg_near c in
  let far := if Req_dec_T (cfg_far c) (-1) then 1000 else cfg_far c in
  let chunks := collect_chunks c st in
  let overfit :=
    match overfit_to_scene (iter_cfg c) with
    | None => Some chunks
    | Some scene_key =>
        match index c st with
        | None => None
        | Some merged =>
            match dict_get scene_key merged with
            | None => None
            | Some chunk_path => Some (repeat chunk_path (length chunks))
            end
        end
    end in
  match overfit with
  | None => None
  | Some chunks =>
      match st with
      | test =>
          match slice_step chunks (test_chunk_interval c) with
          | None => None
          | Some chunks => Some (mkDataset (iter_cfg c) st chunks near far)
          end
      | _ => Some (mkDataset (iter_cfg c) st chunks near far)
      end
  end.

End Construction.

(** ** A sample file system *)

Module FixtureFS.

Definition joinpath0 (a b : string) : string := (a ++ "/" ++ b)%string.

(** One directory listing, the same for every directory. *)
Definition iterdir0 (dir : string) : list string :=
  map (joinpath0 dir) ["000.torch"; "001.zst"; "002.torch"; "index.json"; ".zst"]%string.

Definition read_index0 (file : string) : dict string :=
  if String.eqb file "data/train/index.json"
  then [("scene_c", "000.torch")]%string
  else [("scene_a", "000.torch"); ("scene_b", "001.zst")]%string.

Definition sorted0 (l : list string) : list string := l.

Definition cfg_init0 (overfit : option string) (interval : Z) : DatasetRE10kCfgInit :=
  mkCfgInit (mkCfg (1 / 100) 150 true false 1 true true true overfit)
            ["data"%string] (-1) (-1) 0 interval.

Definition init0 := init joinpath0 iterdir0 read_index0 sorted0.

End FixtureFS.
(** ** Vector algebra *)

Section VecFacts.

Lemma vec3_eq (a b : vec3) :
  vx a = vx b -> vy a = vy b -> vz a = vz b -> a = b.
Proof. destruct a, b; simpl; intros; subst; reflexivity. Qed.

Lemma dot_comm (a b : vec3) : dot a b = dot b a.
Proof. unfold dot; ring. Qed.

Lemma dot_nonneg (a : vec3) : 0 <= dot a a.
Proof. unfold dot; nra. Qed.

Lemma dot_pos_of_coord (a : vec3) :
  vx a <> 0 \/ vy a <> 0 \/ vz a <> 0 -> 0 < dot a a.
Proof. unfold dot; intros [H | [H | H]]; nra. Qed.

Lemma dot_cross_l (a b : vec3) : dot a (cross a b) = 0.
Proof. unfold dot, cross; simpl; ring. Qed.

Lemma dot_cross_r (a b : vec3) : dot b (cross a b) = 0.
Proof. unfold dot, cross; simpl; ring. Qed.

(** Lagrange's identity. *)
Lemma dot_cross_cross (a b : vec3) :
  dot (cross a b) (cross a b) = dot a a * dot b b - dot a b * dot a b.
Proof. unfold dot, cross; simpl; ring. Qed.

Lemma dot_vdiv_l (a b : vec3) (k : R) : dot (vdiv a k) b = dot a b / k.
Proof. unfold dot, vdiv, Rdiv; simpl; ring. Qed.

Lemma dot_vdiv_r (a b : vec3) (k : R) : dot a (vdiv b k) = dot a b / k.
Proof. unfold dot, vdiv, Rdiv; simpl; ring. Qed.

Lemma dot_normalize_l (a b : vec3) :
  dot (normalize a) b = dot a b / sqrt (dot a a).
Proof. apply dot_vdiv_l. Qed.

Lemma dot_normalize_r (a b : vec3) :
  dot a (normalize b) = dot a b / sqrt (dot b b).
Proof. apply dot_vdiv_r. Qed.

Lemma normalize_unit (a : vec3) : 0 < dot a a -> dot (normalize a) (normalize a) = 1.
Proof.
  intros Hpos.
  rewrite dot_normalize_l, dot_normalize_r.
  pose proof (sqrt_lt_R0 _ Hpos) as Hs.
  pose proof (sqrt_sqrt (dot a a) (Rlt_le _ _ Hpos)) as Hsq.
  rewrite <- Hsq at 1.
  field. lra.
Qed.

Lemma norm_of_unit (a : vec3) : dot a a = 1 -> norm a = 1.
Proof. unfold norm; intros ->; apply sqrt_1. Qed.

Lemma parallel_to_up_ref_iff (v : vec3) :
  parallel_to_up_ref v <-> vx v = 0 /\ vy v = 0.
Proof.
  unfold parallel_to_up_ref, cross, up_ref, vzero; simpl; split.
  - intros H; injection H as H1 H2 _; split; lra.
  - intros [H1 H2]; rewrite H1, H2; f_equal; ring.
Qed.

Lemma normalize_of_unit (v : vec3) : dot v v = 1 -> normalize v = v.
Proof.
  intros H. unfold normalize. rewrite H, sqrt_1.
  destruct v as [x y z]. unfold vdiv; simpl. f_equal; field.
Qed.

End VecFacts.

(** ** The basis of a batch of directions *)

Section BatchBasis.

Lemma torch_cross_frames (a b : list vec3) :
  length a <> 3%nat ->
  torch_cross a b = map (fun ab => cross (fst ab) (snd ab)) (combine a b).
Proof.
  intros H. destruct a as [| a0 [| a1 [| a2 [| a3 a]]]]; try reflexivity.
  now contradiction H.
Qed.

Lemma map_combine_maps {A B C D : Type} (f : A -> B) (g : A -> C) (h : B * C -> D)
    (l : list A) :
  map h (combine (map f l) (map g l)) = map (fun x => h (f x, g x)) l.
Proof. induction l as [| x l IH]; simpl; [reflexivity | now rewrite IH]. Qed.

(** In a batch whose size is not three every frame gets the basis of its
    own direction. *)
Lemma basis_of_frames (l : list vec3) :
  length l <> 3%nat ->
  get_forward_up_right_tensor l = (map basis_forward l, map basis_up l, map basis_right l).
Proof.
  intros H. unfold get_forward_up_right_tensor.
  assert (Hr : map normalize (torch_cross (map normalize l)
                 (map (fun _ => up_ref) (map normalize l))) = map basis_right l).
  { rewrite torch_cross_frames by now rewrite length_map.
    rewrite (map_map normalize (fun _ => up_ref)), (map_map _ normalize).
    rewrite (map_combine_maps normalize (fun _ => up_ref)). reflexivity. }
  rewrite Hr. f_equal.
  rewrite torch_cross_frames by now rewrite length_map.
  rewrite (map_map _ normalize), (map_combine_maps normalize basis_right). reflexivity.
Qed.

Lemma frame_of_maps (l : list vec3) (i : nat) :
  frame_of (map basis_forward l, map basis_up l, map basis_right l) i =
  option_map vector_basis (nth_error l i).
Proof.
  unfold frame_of. rewrite !nth_error_map.
  destruct (nth_error l i) as [v |]; simpl; [| reflexivity].
  unfold basis_forward, basis_up, basis_right.
  now destruct (vector_basis v) as [[f u] r].
Qed.

Lemma frame_of_frames (l : list vec3) (i : nat) (v : vec3) :
  length l <> 3%nat -> nth_error l i = Some v ->
  frame_of (get_forward_up_right_tensor l) i = Some (vector_basis v).
Proof.
  intros H Hv. rewrite (basis_of_frames l H), frame_of_maps, Hv. reflexivity.
Qed.

(** The basis of one direction along its own axis is orthonormal. *)
Lemma vector_basis_orthonormal (v : vec3) :
  ~ parallel_to_up_ref v ->
  orthonormal (basis_forward v) (basis_up v) (basis_right v).
Proof.
  intros Hnp.
  assert (Hxy : vx v <> 0 \/ vy v <> 0).
  { destruct (Req_dec (vx v) 0) as [Hx | Hx]; [| now left].
    destruct (Req_dec (vy v) 0) as [Hy | Hy]; [| now right].
    exfalso; apply Hnp; apply parallel_to_up_ref_iff; auto. }
  assert (Hv : 0 < dot v v) by (apply dot_pos_of_coord; tauto).
  unfold orthonormal, basis_forward, basis_up, basis_right, vector_basis; simpl fst; simpl snd.
  set (f := normalize v).
  assert (Hf : dot f f = 1) by (apply normalize_unit; exact Hv).
  set (c1 := cross f up_ref).
  assert (Hc1 : 0 < dot c1 c1).
  { unfold c1. rewrite dot_cross_cross.
    pose proof (sqrt_lt_R0 _ Hv) as Hs.
    assert (Hfx : vx f = vx v / sqrt (dot v v)) by reflexivity.
    assert (Hfy : vy f = vy v / sqrt (dot v v)) by reflexivity.
    assert (Hne : vx f <> 0 \/ vy f <> 0).
    { destruct Hxy as [H | H]; [left; rewrite Hfx | right; rewrite Hfy];
        unfold Rdiv; apply Rmult_integral_contrapositive_currified; auto;
        apply Rinv_neq_0_compat; lra. }
    unfold dot, up_ref; simpl. destruct Hne; nra. }
  set (r := normalize c1).
  assert (Hr : dot r r = 1) by (apply normalize_unit; exact Hc1).
  assert (Hfr : dot f r = 0).
  { unfold r. rewrite dot_normalize_r. unfold c1. rewrite dot_cross_l.
    unfold Rdiv; ring. }
  set (c2 := cross f r).
  assert (Hc2 : dot c2 c2 = 1).
  { unfold c2. rewrite dot_cross_cross, Hf, Hr, Hfr. ring. }
  assert (Hu : dot (normalize c2) (normalize c2) = 1) by (apply normalize_unit; lra).
  repeat split.
  - apply norm_of_unit; exact Hf.
  - apply norm_of_unit; exact Hu.
  - apply norm_of_unit; exact Hr.
  - exact Hfr.
  - rewrite dot_normalize_r. unfold c2. rewrite dot_cross_l. unfold Rdiv; ring.
  - rewrite dot_normalize_r. unfold c2. rewrite dot_cross_r. unfold Rdiv; ring.
Qed.

Lemma unit_of_norm (a : vec3) : norm a = 1 -> dot a a = 1.
Proof.
  unfold norm. intros H.
  rewrite <- (sqrt_sqrt (dot a a) (dot_nonneg a)), H. ring.
Qed.

(** In a batch of three both products run along the batch axis, and the
    right and up vectors of every frame lie on the Z axis. *)
Lemma three_frames_axes (l : list vec3) (i : nat) (f u r : vec3) :
  length l = 3%nat ->
  frame_of (get_forward_up_right_tensor l) i = Some (f, u, r) ->
  (vx r = 0 /\ vy r = 0) /\ (vx u = 0 /\ vy u = 0).
Proof.
  intros Hl.
  destruct l as [| v0 [| v1 [| v2 [| v3 l]]]]; try discriminate.
  unfold get_forward_up_right_tensor, frame_of.
  cbn [map torch_cross].
  destruct i as [| [| [| i]]]; cbn [nth_error];
    try (destruct i; discriminate);
    intros H; injection H as _ <- <-;
    unfold normalize, vdiv, cross, Rdiv; cbn [vx vy vz];
    (split; split; ring).
Qed.

Lemma z_axes_not_orthonormal (f u r : vec3) :
  vx r = 0 -> vy r = 0 -> vx u = 0 -> vy u = 0 -> ~ orthonormal f u r.
Proof.
  intros Hrx Hry Hux Huy [(_ & Hu & Hr) (_ & _ & Hru)].
  apply unit_of_norm in Hu, Hr.
  unfold dot in *. rewrite Hrx, Hry, Hux, Huy in *. nra.
Qed.

Lemma normalize_known (v : vec3) (s : R) :
  0 < s -> dot v v = s * s -> normalize v = vdiv v s.
Proof.
  intros Hs Hv. unfold normalize. rewrite Hv, sqrt_square by lra. reflexivity.
Qed.

Lemma normalize_z_pos (x y z : R) : x = 0 -> y = 0 -> 0 < z -> normalize (V3 x y z) = V3 0 0 1.
Proof.
  intros -> -> Hz. rewrite (normalize_known _ z Hz) by (unfold dot; simpl; ring).
  unfold vdiv; simpl. f_equal; field; lra.
Qed.

Lemma normalize_z_neg (x y z : R) :
  x = 0 -> y = 0 -> z < 0 -> normalize (V3 x y z) = V3 0 0 (-1).
Proof.
  intros -> -> Hz. rewrite (normalize_known _ (- z)) by (unfold dot; simpl; (lra || ring)).
  unfold vdiv; simpl. f_equal; field; lra.
Qed.

End BatchBasis.

(** C3 (orthonormal basis).  In every batch whose number of frames is not
    three, what [get_forward_up_right_tensor] returns for a frame whose
    direction [v] is not parallel to the +Z reference axis is
    forward = normalize(v), right = normalize(cross(forward, up_ref)) and
    up = normalize(cross(forward, right)), an orthonormal triple.  In a
    batch of exactly three frames [torch.cross], called
    without [dim], runs along the batch axis, and no frame gets an
    orthonormal triple, whatever the directions; for the three directions
    (1,0,0), (3,0,4), (3,0,-4) the up vectors are (0,0,-1) three times and
    the right vectors (0,0,1), (0,0,-1), (0,0,-1). *)
Theorem basis_orthonormal :
  (forall (to_light : list vec3) (i : nat) (v : vec3),
     length to_light <> 3%nat ->
     nth_error to_light i = Some v -> ~ parallel_to_up_ref v ->
     exists f u r,
       frame_of (get_forward_up_right_tensor to_light) i = Some (f, u, r) /\
       f = normalize v /\
       r = normalize (cross f up_ref) /\
       u = normalize (cross f r) /\
       orthonormal f u r) /\
  (forall (to_light : list vec3) (i : nat) (f u r : vec3),
     length to_light = 3%nat ->
     frame_of (get_forward_up_right_tensor to_light) i = Some (f, u, r) ->
     ~ orthonormal f u r) /\
  (let to_light := [V3 1 0 0; V3 3 0 4; V3 3 0 (-4)] in
   (forall v, In v to_light -> ~ parallel_to_up_ref v) /\
   get_forward_up_right_tensor to_light =
     ([V3 1 0 0; V3 (3 / 5) 0 (4 / 5); V3 (3 / 5) 0 (- (4 / 5))],
      [V3 0 0 (-1); V3 0 0 (-1); V3 0 0 (-1)],
      [V3 0 0 1; V3 0 0 (-1); V3 0 0 (-1)])).
Proof.
  split; [| split].
  - intros to_light i v Hlen Hv Hnp.
    pose proof (vector_basis_orthonormal v Hnp) as Ho.
    exists (basis_forward v), (basis_up v), (basis_right v).
    split; [| split; [reflexivity | split; [reflexivity | split; [reflexivity | exact Ho]]]].
    rewrite (frame_of_frames to_light i v Hlen Hv). reflexivity.
  - intros to_light i f u r Hlen Hf.
    destruct (three_frames_axes to_light i f u r Hlen Hf) as [[Hrx Hry] [Hux Huy]].
    now apply z_axes_not_orthonormal.
  - cbv zeta. split.
    + intros v [<- | [<- | [<- | []]]] H;
        apply parallel_to_up_ref_iff in H; simpl in H; lra.
    + unfold get_forward_up_right_tensor. cbn [map].
      rewrite (normalize_of_unit (V3 1 0 0)) by (unfold dot; simpl; ring).
      rewrite (normalize_known (V3 3 0 4) 5) by (unfold dot; simpl; (lra || ring)).
      rewrite (normalize_known (V3 3 0 (-4)) 5) by (unfold dot; simpl; (lra || ring)).
      unfold vdiv; cbn [vx vy vz].
      replace (0 / 5) with 0 by field.
      replace (-4 / 5) with (- (4 / 5)) by field.
      assert (Hr : map normalize
                     (torch_cross [V3 1 0 0; V3 (3 / 5) 0 (4 / 5); V3 (3 / 5) 0 (- (4 / 5))]
                                  [up_ref; up_ref; up_ref])
                   = [V3 0 0 1; V3 0 0 (-1); V3 0 0 (-1)]).
      { unfold torch_cross, cross, up_ref; cbn [map vx vy vz].
        rewrite normalize_z_pos by (ring || lra).
        rewrite !normalize_z_neg by (ring || lra). reflexivity. }
      rewrite Hr.
      unfold torch_cross, cross; cbn [map vx vy vz].
      rewrite !normalize_z_neg by (ring || lra).
      reflexivity.
Qed.

Lemma basis_orthonormal_witness :
  exists f u r,
    frame_of (get_forward_up_right_tensor [V3 1 0 0; V3 0 1 0]) 1 = Some (f, u, r) /\
    orthonormal f u r.
Proof.
  destruct (proj1 basis_orthonormal [V3 1 0 0; V3 0 1 0] 1%nat (V3 0 1 0))
    as (f & u & r & H & _ & _ & _ & Ho).
  - discriminate.
  - reflexivity.
  - intros H. apply parallel_to_up_ref_iff in H. simpl in H. lra.
  - exists f, u, r. split; [exact H | exact Ho].
Defined.

(** ** The worker split *)

Section WorkerSplit.

Lemma concat_map_nil {A B : Type} (s : list B) :
  concat (map (fun _ : B => @nil A) s) = [].
Proof. induction s; simpl; auto. Qed.

(** If exactly one index of [s] accepts [x], spreading [x :: L] over the
    indices of [s] is spreading [L] and adding [x] once. *)
Lemma concat_filter_cons {A : Type} (p : nat -> A -> bool) (x : A) (L : list A)
    (s1 s2 : list nat) (i0 : nat) :
  p i0 x = true ->
  (forall i, In i s1 -> p i x = false) ->
  (forall i, In i s2 -> p i x = false) ->
  Permutation (concat (map (fun i => filter (p i) (x :: L)) (s1 ++ i0 :: s2)))
              (x :: concat (map (fun i => filter (p i) L) (s1 ++ i0 :: s2))).
Proof.
  intros H0 H1 H2.
  rewrite !map_app, !concat_app. simpl. rewrite H0.
  rewrite (map_ext_in (fun i => if p i x then x :: filter (p i) L else filter (p i) L)
                      (fun i => filter (p i) L) s1)
    by (intros i Hi; rewrite (H1 i Hi); reflexivity).
  rewrite (map_ext_in (fun i => if p i x then x :: filter (p i) L else filter (p i) L)
                      (fun i => filter (p i) L) s2)
    by (intros i Hi; rewrite (H2 i Hi); reflexivity).
  simpl. symmetry. apply Permutation_middle.
Qed.

Lemma concat_filter_partition {A : Type} (p : nat -> A -> bool) (s : list nat) (L : list A) :
  NoDup s ->
  (forall x, In x L -> exists i, In i s /\ p i x = true /\
                                 forall j, In j s -> p j x = true -> j = i) ->
  Permutation (concat (map (fun i => filter (p i) L) s)) L.
Proof.
  intros Hnd. induction L as [| x L IH]; intros Hex.
  - simpl. rewrite concat_map_nil. constructor.
  - destruct (Hex x (or_introl eq_refl)) as (i0 & Hin & Hp & Huniq).
    destruct (in_split _ _ Hin) as (s1 & s2 & Hs). subst s.
    assert (Hnot1 : forall i, In i s1 -> p i x = false).
    { intros i Hi. destruct (p i x) eqn:E; auto.
      assert (i = i0) by (apply Huniq; auto; apply in_or_app; now left). subst i.
      apply NoDup_remove_2 in Hnd. exfalso; apply Hnd; apply in_or_app; now left. }
    assert (Hnot2 : forall i, In i s2 -> p i x = false).
    { intros i Hi. destruct (p i x) eqn:E; auto.
      assert (i = i0) by (apply Huniq; auto; apply in_or_app; right; now right). subst i.
      apply NoDup_remove_2 in Hnd. exfalso; apply Hnd; apply in_or_app; now right. }
    etransitivity; [apply concat_filter_cons; assumption |].
    constructor. apply IH. intros y Hy. apply Hex. now right.
Qed.

Lemma map_snd_combine_seq {A : Type} (l : list A) (k : nat) :
  map snd (combine (seq k (length l)) l) = l.
Proof.
  revert k; induction l as [| a l IH]; intros k; simpl; [reflexivity |].
  now rewrite IH.
Qed.

Lemma map_snd_enumerate {A : Type} (l : list A) : map snd (enumerate l) = l.
Proof. apply map_snd_combine_seq. Qed.

Lemma enumerate_length {A : Type} (l : list A) : length (enumerate l) = length l.
Proof. unfold enumerate. rewrite length_combine, length_seq. apply Nat.min_id. Qed.

Lemma worker_chunks_length (W i : nat) (lst : list string) :
  length (worker_chunks W i lst) = length (worker_entries W i lst).
Proof. unfold worker_chunks. apply length_map. Qed.

Lemma worker_keeps_unique (W : nat) (entry : nat * string) :
  (0 < W)%nat ->
  exists i, In i (seq 0 W) /\ worker_keeps W i entry = true /\
            forall j, In j (seq 0 W) -> worker_keeps W j entry = true -> j = i.
Proof.
  intros HW. exists (fst entry mod W)%nat. repeat split.
  - apply in_seq. pose proof (Nat.mod_upper_bound (fst entry) W). lia.
  - unfold worker_keeps. apply Nat.eqb_refl.
  - intros j _ Hj. unfold worker_keeps in Hj. apply Nat.eqb_eq in Hj. now symmetry.
Qed.

Lemma worker_entries_union (W : nat) (lst : list string) :
  (0 < W)%nat ->
  Permutation (concat (map (fun i => worker_entries W i lst) (seq 0 W))) (enumerate lst).
Proof.
  intros HW. unfold worker_entries.
  apply (concat_filter_partition (fun i => worker_keeps W i)).
  - apply seq_NoDup.
  - intros x _. apply worker_keeps_unique; exact HW.
Qed.

(** Filtering an enumeration gives a subsequence of the list. *)
Lemma subseq_refl {A : Type} (l : list A) : subseq l l.
Proof. induction l; constructor; auto. Qed.

Lemma subseq_filter_map {A B : Type} (f : A -> B) (p : A -> bool) (l : list A) :
  subseq (map f (filter p l)) (map f l).
Proof.
  induction l as [| a l IH]; simpl; [constructor |].
  destruct (p a); simpl; constructor; exact IH.
Qed.

Lemma worker_chunks_subseq (W i : nat) (lst : list string) :
  subseq (worker_chunks W i lst) lst.
Proof.
  unfold worker_chunks, worker_entries.
  pose proof (subseq_filter_map snd (worker_keeps W i) (enumerate lst)) as H.
  now rewrite map_snd_enumerate in H.
Qed.

Lemma filter_length_lt {A : Type} (p : A -> bool) (l : list A) :
  (length (filter p l) < length l)%nat <-> exists x, In x l /\ p x = false.
Proof.
  induction l as [| a l IH]; simpl.
  - split; [lia | intros (x & [] & _)].
  - pose proof (filter_length_le p l) as Hle.
    destruct (p a) eqn:E; simpl.
    + rewrite <- Nat.succ_lt_mono, IH. split.
      * intros (x & Hx & Hp); exists x; auto.
      * intros (x & [Hx | Hx] & Hp); [subst; congruence | exists x; auto].
    + split; [| lia]. intros _. exists a; auto.
Qed.

Lemma in_enumerate {A : Type} (l : list A) (k : nat) (a : A) :
  In (k, a) (enumerate l) <-> nth_error l k = Some a.
Proof.
  unfold enumerate.
  assert (G : forall s, In (k, a) (combine (seq s (length l)) l) <->
                        (s <= k)%nat /\ nth_error l (k - s) = Some a).
  { induction l as [| b l IH]; intros s; simpl.
    - split; [tauto | intros [_ H]; destruct (k - s)%nat; discriminate].
    - rewrite IH. split.
      + intros [H | [Hle H]].
        * injection H as <- <-. split; [lia |]. now rewrite Nat.sub_diag.
        * split; [lia |]. replace (k - s)%nat with (S (k - S s)) by lia. exact H.
      + intros [Hle H]. destruct (Nat.eq_dec s k) as [-> | Hne].
        * rewrite Nat.sub_diag in H. simpl in H. injection H as ->. now left.
        * right. split; [lia |].
          replace (k - s)%nat with (S (k - S s)) in H by lia. exact H. }
  rewrite G, Nat.sub_0_r. split; [tauto | split; [lia | assumption]].
Qed.

(** The worker drops a shard exactly when its list holds more shards than
    the one position (if any) below [num_workers] that it owns. *)
Lemma worker_chunks_shorter (W i : nat) (lst : list string) :
  (1 < W)%nat -> (i < W)%nat ->
  ((length (worker_chunks W i lst) < length lst)%nat <->
   ((if (i =? 0)%nat then 2 else 1) <= length lst)%nat).
Proof.
  intros HW Hi.
  rewrite worker_chunks_length. unfold worker_entries.
  rewrite <- (enumerate_length lst) at 1.
  rewrite filter_length_lt. split.
  - intros ([k a] & Hin & Hp). apply in_enumerate in Hin.
    assert (Hk : (k < length lst)%nat) by (apply nth_error_Some; congruence).
    unfold worker_keeps in Hp; simpl in Hp. apply Nat.eqb_neq in Hp.
    destruct (i =? 0)%nat eqn:E; [| lia].
    apply Nat.eqb_eq in E. subst i.
    destruct k as [| k]; [| lia].
    rewrite Nat.mod_small in Hp by lia. congruence.
  - intros Hlen.
    destruct (i =? 0)%nat eqn:E.
    + apply Nat.eqb_eq in E. subst i.
      destruct (nth_error lst 1) as [a |] eqn:Hn;
        [| apply nth_error_None in Hn; lia].
      exists (1%nat, a). split; [now apply in_enumerate |].
      unfold worker_keeps; simpl fst. rewrite Nat.mod_small by lia. reflexivity.
    + apply Nat.eqb_neq in E.
      destruct (nth_error lst 0) as [a |] eqn:Hn;
        [| apply nth_error_None in Hn; lia].
      exists (0%nat, a). split; [now apply in_enumerate |].
      unfold worker_keeps; simpl fst. rewrite Nat.mod_small by lia.
      apply Nat.eqb_neq. lia.
Qed.

Lemma stage_shuffles_test (self : DatasetRE10k) :
  stage self = test -> stage_shuffles self = false.
Proof.
  unfold stage_shuffles. intros ->. destruct (shuffle_val (cfg self)); reflexivity.
Qed.

Lemma iter_prologue_test (self : DatasetRE10k) (indices : list nat) (w : WorkerInfo) :
  stage self = test ->
  iter_prologue self indices (Some w) =
  set_chunks self (worker_chunks (num_workers w) (id w) (chunks self)).
Proof.
  intros Hs. unfold iter_prologue. rewrite (stage_shuffles_test self Hs), Hs. reflexivity.
Qed.

End WorkerSplit.

(** C7 (partition completeness): for every shard list and every worker
    count [W >= 1], with workers numbered [0 .. W-1], the position-modulo
    assignment gives every position of the list to exactly one worker, the
    sublists of two different workers share no position, and the sublists
    of all workers together are the original list, every shard once. *)
Theorem partition_completeness (W : nat) (lst : list string) :
  (0 < W)%nat ->
  (forall entry, In entry (enumerate lst) ->
     exists i, (i < W)%nat /\ In entry (worker_entries W i lst) /\
               forall j, In entry (worker_entries W j lst) -> j = i) /\
  (forall i j entry, i <> j ->
     In entry (worker_entries W i lst) -> ~ In entry (worker_entries W j lst)) /\
  Permutation (concat (map (fun i => worker_entries W i lst) (seq 0 W))) (enumerate lst) /\
  Permutation (concat (map (fun i => worker_chunks W i lst) (seq 0 W))) lst.
Proof.
  intros HW.
  assert (Hkeep : forall i entry, In entry (worker_entries W i lst) ->
                                  (fst entry mod W)%nat = i).
  { intros i entry Hin. unfold worker_entries in Hin. apply filter_In in Hin.
    destruct Hin as [_ Hk]. unfold worker_keeps in Hk. now apply Nat.eqb_eq in Hk. }
  repeat split.
  - intros entry Hin. exists (fst entry mod W)%nat. repeat split.
    + apply Nat.mod_upper_bound. lia.
    + unfold worker_entries. apply filter_In. split; [exact Hin |].
      unfold worker_keeps. apply Nat.eqb_refl.
    + intros j Hj. symmetry. now apply Hkeep.
  - intros i j entry Hij Hi Hj. apply Hkeep in Hi. apply Hkeep in Hj. congruence.
  - apply worker_entries_union; exact HW.
  - pose proof (Permutation_map snd (worker_entries_union W lst HW)) as H.
    rewrite map_snd_enumerate, concat_map, map_map in H. exact H.
Qed.

Lemma partition_completeness_witness :
  let lst := ["a.torch"; "b.torch"; "c.zst"]%string in
  Permutation (concat (map (fun i => worker_chunks 2 i lst) (seq 0 2))) lst.
Proof.
  apply (partition_completeness 2 ["a.torch"; "b.torch"; "c.zst"]%string). lia.
Defined.


(** ** Matrix inversion and [convert_poses] *)

Ltac unfold_mat :=
  cbv [m4_mul m4_build m4_get m4_row v4_get cofactor minor minor_entry skip det4 det3
       adjugate_inverse m4r0 m4r1 m4r2 m4r3 v4x v4y v4z v4w
       Nat.even Nat.add Nat.ltb Nat.leb eye4].

Section Inversion.

Lemma det4_entries (a b : mat4) : a = b -> det4 a = det4 b.
Proof. now intros ->. Qed.

(** The adjugate over the determinant is a two-sided inverse. *)
Lemma adjugate_inverse_spec (m : mat4) :
  det4 m <> 0 ->
  m4_mul m (adjugate_inverse m) = eye4 /\ m4_mul (adjugate_inverse m) m = eye4.
Proof.
  destruct m as [[a00 a01 a02 a03] [a10 a11 a12 a13] [a20 a21 a22 a23] [a30 a31 a32 a33]].
  unfold_mat. intros Hdet.
  split; (f_equal; f_equal; field; exact Hdet).
Qed.

Lemma exact_inverse_regular : inverts_regular Fixture.exact_inverse.
Proof.
  intros m H. unfold Fixture.exact_inverse.
  destruct (Req_dec_T (det4 m) 0); [contradiction | reflexivity].
Qed.

Variable inverse : mat4 -> option mat4.
Hypothesis inverse_regular : inverts_regular inverse.

Lemma inverse_some (m : mat4) : det4 m <> 0 -> exists e, inverse m = Some e.
Proof. intros H. rewrite (inverse_regular m H). eauto. Qed.

End Inversion.


Section ConvertPoses.

Variable inverse : mat4 -> option mat4.
Hypothesis inverse_regular : inverts_regular inverse.

Lemma pose_w2c_some (pose : list R) (w2c : mat4) :
  pose_w2c pose = Some w2c -> length pose = 18%nat /\ w2c = stored_matrix pose.
Proof.
  unfold pose_w2c.
  do 18 (destruct pose as [| ? pose]; [discriminate |]).
  destruct pose; [| discriminate].
  simpl. intros H; injection H as <-. split; reflexivity.
Qed.

Lemma pose_w2c_total (pose : list R) :
  length pose = 18%nat -> pose_w2c pose = Some (stored_matrix pose).
Proof.
  intros H.
  do 18 (destruct pose as [| ? pose]; [discriminate |]).
  destruct pose; [| discriminate]. reflexivity.
Qed.

Lemma pose_intrinsics_entries (pose : list R) : pose_intrinsics pose = calibration_matrix pose.
Proof. reflexivity. Qed.

Lemma convert_pose_regular (pose : list R) :
  length pose = 18%nat -> det4 (stored_matrix pose) <> 0 ->
  convert_pose inverse pose =
  Some (adjugate_inverse (stored_matrix pose), calibration_matrix pose).
Proof.
  intros Hlen Hdet. unfold convert_pose.
  rewrite (pose_w2c_total pose Hlen), (inverse_regular _ Hdet). reflexivity.
Qed.

Lemma mapM_nth_error {A B : Type} (f : A -> option B) (l : list A) (r : list B) :
  mapM f l = Some r ->
  length r = length l /\
  forall i a, nth_error l i = Some a ->
    exists b, nth_error r i = Some b /\ f a = Some b.
Proof.
  revert r; induction l as [| x l IH]; intros r; simpl.
  - intros H; injection H as <-. split; [reflexivity |]. intros [| i] a; discriminate.
  - destruct (f x) as [b |] eqn:Hf; [| discriminate].
    destruct (mapM f l) as [bs |]; [| discriminate].
    intros H; injection H as <-.
    destruct (IH bs eq_refl) as [Hlen Hnth]. split; [simpl; now rewrite Hlen |].
    intros [| i] a; simpl.
    + intros Ha; injection Ha as <-. eauto.
    + apply Hnth.
Qed.

Lemma mapM_length {A B : Type} (f : A -> option B) (l : list A) (r : list B) :
  mapM f l = Some r -> length r = length l.
Proof. intros H. now destruct (mapM_nth_error f l r H). Qed.

Lemma mapM_total {A B : Type} (f : A -> option B) (l : list A) :
  (forall a, In a l -> exists b, f a = Some b) -> exists r, mapM f l = Some r.
Proof.
  induction l as [| x l IH]; intros H; simpl; [eauto |].
  destruct (H x (or_introl eq_refl)) as [b ->].
  destruct IH as [bs ->]; [intros a Ha; apply H; now right | eauto].
Qed.

Lemma mapM_map_total {A B : Type} (f : A -> option B) (g : A -> B) (l : list A) :
  (forall a, In a l -> f a = Some (g a)) -> mapM f l = Some (map g l).
Proof.
  induction l as [| x l IH]; intros H; simpl; [reflexivity |].
  rewrite (H x (or_introl eq_refl)), IH; [reflexivity |].
  intros a Ha. apply H. now right.
Qed.

(** The batch that [convert_poses] returns on regular rows. *)
Lemma convert_poses_regular (poses : list (list R)) :
  poses <> [] ->
  (forall pose, In pose poses -> length pose = 18%nat /\ det4 (stored_matrix pose) <> 0) ->
  convert_poses inverse poses =
  Some (map (fun pose => adjugate_inverse (stored_matrix pose)) poses,
        map calibration_matrix poses).
Proof.
  intros Hne Hall. unfold convert_poses.
  destruct poses as [| p poses]; [congruence |].
  rewrite (mapM_map_total (convert_pose inverse)
             (fun pose => (adjugate_inverse (stored_matrix pose), calibration_matrix pose))).
  - now rewrite !map_map.
  - intros pose Hin. destruct (Hall pose Hin). now apply convert_pose_regular.
Qed.

Lemma convert_poses_total (poses : list (list R)) :
  poses <> [] ->
  (forall pose, In pose poses -> length pose = 18%nat /\ det4 (stored_matrix pose) <> 0) ->
  exists extrinsics intrinsics, convert_poses inverse poses = Some (extrinsics, intrinsics).
Proof. intros Hne Hall. rewrite (convert_poses_regular poses Hne Hall). eauto. Qed.

Lemma convert_poses_lengths (poses : list (list R)) (extrinsics : list mat4)
    (intrinsics : list mat3) :
  convert_poses inverse poses = Some (extrinsics, intrinsics) ->
  length extrinsics = length poses /\ length intrinsics = length poses.
Proof.
  unfold convert_poses. destruct poses as [| p poses]; [discriminate |].
  destruct (mapM (convert_pose inverse) (p :: poses)) as [rows |] eqn:Hm; [| discriminate].
  intros H; injection H as <- <-.
  rewrite !length_map. split; apply (mapM_length _ _ _ Hm).
Qed.

(** The print after the call raises on no batch that [convert_poses]
    returns. *)
Lemma convert_cameras_eq (poses : list (list R)) :
  convert_cameras inverse poses = convert_poses inverse poses.
Proof.
  unfold convert_cameras.
  destruct (convert_poses inverse poses) as [[E K] |] eqn:H; [| reflexivity].
  destruct (convert_poses_lengths _ _ _ H) as [LE _].
  destruct E as [| e E]; [| reflexivity].
  destruct poses; discriminate.
Qed.

End ConvertPoses.

(** C2 (pose-vector conversion), as the code has it: for every non-empty
    batch whose rows have eighteen entries and a non-singular stored
    matrix, [convert_poses] returns one pair per row; each row gives the
    intrinsics [[fx, 0, cx], [0, fy, cy], [0, 0, 1]] from entries 0..3 and
    a stored 4x4 matrix whose top three rows are the entries 6..17 in
    row-major order (entries 4 and 5 are not read) and whose bottom row is
    [0, 0, 0, 1]; the returned extrinsics are the two-sided inverse of
    that stored matrix.  On an empty batch the print of the first stored
    matrix raises. *)
Theorem convert_poses_correct (inverse : mat4 -> option mat4) (poses : list (list R)) :
  inverts_regular inverse ->
  poses <> [] ->
  (forall pose, In pose poses -> length pose = 18%nat /\ det4 (stored_matrix pose) <> 0) ->
  convert_poses inverse [] = None /\
  exists extrinsics intrinsics,
    convert_poses inverse poses = Some (extrinsics, intrinsics) /\
    length extrinsics = length poses /\ length intrinsics = length poses /\
    forall b pose, nth_error poses b = Some pose ->
      pose_w2c pose = Some (stored_matrix pose) /\
      exists e k,
        nth_error extrinsics b = Some e /\ nth_error intrinsics b = Some k /\
        k = calibration_matrix pose /\
        m4_mul (stored_matrix pose) e = eye4 /\ m4_mul e (stored_matrix pose) = eye4.
Proof.
  intros Hinv Hne Hall. split; [reflexivity |].
  rewrite (convert_poses_regular inverse Hinv poses Hne Hall).
  eexists _, _. split; [reflexivity |]. rewrite !length_map.
  split; [reflexivity |]. split; [reflexivity |].
  intros b pose Hb.
  destruct (Hall pose (nth_error_In _ _ Hb)) as [Hlen Hdet].
  split; [now apply pose_w2c_total |].
  exists (adjugate_inverse (stored_matrix pose)), (calibration_matrix pose).
  rewrite !nth_error_map, Hb. simpl.
  split; [reflexivity |]. split; [reflexivity |]. split; [reflexivity |].
  now apply adjugate_inverse_spec.
Qed.


(** A batch of one pose vector whose stored matrix is the identity. *)
Lemma convert_poses_correct_witness :
  let pose := [1; 1; 0; 0; 5; 6; 1; 0; 0; 0; 0; 1; 0; 0; 0; 0; 1; 0] in
  exists extrinsics intrinsics,
    convert_poses Fixture.exact_inverse [pose] = Some (extrinsics, intrinsics) /\
    length extrinsics = 1%nat.
Proof.
  intros pose.
  destruct (convert_poses_correct Fixture.exact_inverse [pose]) as (_ & E & K & H & L & _).
  - exact exact_inverse_regular.
  - discriminate.
  - intros p [<- | []]. split; [reflexivity |].
    unfold pose, stored_matrix. unfold_mat. simpl. lra.
  - exists E, K. split; [exact H | exact L].
Defined.

(** C2 as worded fails: once the four intrinsic scalars are taken, the
    entries that remain are fourteen, not twelve, and they cannot be
    reshaped to 3x4; the code reshapes the entries from position 6 on, so
    the first stored row starts with entry 6 (here 7), not with the first
    remaining entry (here 5). *)
Lemma convert_poses_remaining_entries_counterexample :
  let pose := [1; 2; 3; 4; 5; 6; 7; 8; 9; 10; 11; 12; 13; 14; 15; 16; 17; 18] in
  code_extrinsic_values pose <> spec_extrinsic_values pose /\
  length (spec_extrinsic_values pose) = 14%nat /\
  rearrange_3_4 (spec_extrinsic_values pose) = None /\
  code_extrinsic_values pose <> firstn 12 (spec_extrinsic_values pose) /\
  pose_w2c pose =
    Some (M4 (V4 7 8 9 10) (V4 11 12 13 14) (V4 15 16 17 18) (V4 0 0 0 1)).
Proof.
  cbv zeta. unfold code_extrinsic_values, spec_extrinsic_values. simpl.
  repeat split.
  - intros H. apply (f_equal (@length R)) in H. discriminate.
  - intros H. injection H. intros. lra.
Qed.

(** ** The camera of a direction-encoded frame *)

Section DirectionCamera.

Lemma translation_set_col3 (m : mat4) (v : vec3) :
  translation (m4_set_col3 m 3 v) = v.
Proof. destruct v, m as [[] [] [] []]. reflexivity. Qed.

Lemma translation_frame_matrix (r u f p : vec3) :
  translation (frame_matrix r u f p) = vneg p.
Proof. unfold frame_matrix. apply translation_set_col3. Qed.

(** Column 2 of the matrix holds the forward axis. *)
Lemma forward_column_frame_matrix (r u f p : vec3) :
  let m := frame_matrix r u f p in
  V3 (m4_get m 0 2) (m4_get m 1 2) (m4_get m 2 2) = f.
Proof. destruct f. reflexivity. Qed.

Lemma bottom_row_frame_matrix (r u f p : vec3) : m4_row (frame_matrix r u f p) 3 = V4 0 0 0 1.
Proof. reflexivity. Qed.

Lemma torch_cross_length (a b : list vec3) :
  length a = length b -> length (torch_cross a b) = length a.
Proof.
  intros H. destruct (Nat.eq_dec (length a) 3) as [E | E].
  - destruct a as [| a0 [| a1 [| a2 [| a3 a]]]]; try discriminate.
    destruct b as [| b0 [| b1 [| b2 [| b3 b]]]]; try discriminate. reflexivity.
  - rewrite (torch_cross_frames a b E), length_map, length_combine, <- H.
    apply Nat.min_id.
Qed.

Lemma basis_lengths (l : list vec3) (f u r : list vec3) :
  get_forward_up_right_tensor l = (f, u, r) ->
  f = map normalize l /\ length u = length l /\ length r = length l.
Proof.
  unfold get_forward_up_right_tensor. intros H. injection H as <- <- <-.
  assert (Lr : length (map normalize (torch_cross (map normalize l)
                 (map (fun _ => up_ref) (map normalize l)))) = length l).
  { rewrite length_map, torch_cross_length; rewrite !length_map; reflexivity. }
  split; [reflexivity |]. split; [| exact Lr].
  rewrite length_map, torch_cross_length; rewrite ?length_map; [reflexivity |].
  now rewrite length_map in Lr.
Qed.

Lemma nth_error_in_range {A : Type} (l : list A) (i : nat) :
  (i < length l)%nat -> exists x, nth_error l i = Some x.
Proof.
  intros H. destruct (nth_error l i) eqn:E; [eauto |].
  apply nth_error_None in E. lia.
Qed.

Lemma frame_matrices_nth (r u f p : list vec3) (i : nat) (ri ui fi pi : vec3) :
  nth_error r i = Some ri -> nth_error u i = Some ui ->
  nth_error f i = Some fi -> nth_error p i = Some pi ->
  nth_error (frame_matrices r u f p) i = Some (frame_matrix ri ui fi pi).
Proof.
  revert r u f p. induction i as [| i IH]; intros r u f p;
    destruct r as [| r0 r], u as [| u0 u], f as [| f0 f], p as [| p0 p];
    try discriminate; simpl.
  - intros H1 H2 H3 H4. injection H1 as <-. injection H2 as <-.
    injection H3 as <-. injection H4 as <-. reflexivity.
  - apply IH.
Qed.

(** The matrix of frame [i]: whatever the batch, its forward column is
    the normalised negated sample and its last column the negated
    position. *)
Lemma c2w_frame (samples : list vec3) (i : nat) (d : vec3) :
  nth_error samples i = Some d ->
  exists f u r,
    frame_of (get_forward_up_right_tensor (map vneg samples)) i = Some (f, u, r) /\
    f = normalize (vneg d) /\
    nth_error (c2w_matrices samples) i = Some (frame_matrix r u f (camera_position d)).
Proof.
  intros Hd. unfold c2w_matrices.
  destruct (get_forward_up_right_tensor (map vneg samples)) as [[f u] r] eqn:Hb.
  destruct (basis_lengths _ _ _ _ Hb) as (Hf & Lu & Lr).
  rewrite length_map in Lu, Lr.
  assert (Hi : (i < length samples)%nat) by (apply nth_error_Some; congruence).
  destruct (nth_error_in_range u i) as [ui Hui]; [lia |].
  destruct (nth_error_in_range r i) as [ri Hri]; [lia |].
  assert (Hfi : nth_error f i = Some (normalize (vneg d))).
  { rewrite Hf, !nth_error_map, Hd. reflexivity. }
  exists (normalize (vneg d)), ui, ri. unfold frame_of.
  rewrite Hfi, Hui, Hri. split; [reflexivity |]. split; [reflexivity |].
  apply frame_matrices_nth; try assumption.
  rewrite nth_error_map, Hd. reflexivity.
Qed.

(** In a chunk whose number of frames is not three every matrix is built
    from the basis of its own sample. *)
Lemma c2w_of_frames (samples : list vec3) :
  length samples <> 3%nat -> c2w_matrices samples = map c2w_matrix samples.
Proof.
  intros H. unfold c2w_matrices.
  rewrite basis_of_frames by now rewrite length_map.
  clear H. induction samples as [| d l IH]; [reflexivity |].
  cbn [map frame_matrices]. rewrite IH.
  unfold c2w_matrix, basis_forward, basis_up, basis_right.
  now destruct (vector_basis (vneg d)) as [[f u] r].
Qed.

End DirectionCamera.

(** C4 (direction path end to end), as the code has it: the camera centre
    is not a separate input, it is the direction sample at the principal
    pixel times 0.8.  For every frame of every chunk the translation
    column before inversion is the negated scaled sample and column 2 is
    the forward axis, the normalised negated sample; for the direction
    sample (0,0,-1) the forward axis is (0,0,1), the centre used is
    (0,0,-0.8) and the translation column is (0,0,0.8). *)
Theorem direction_frame_end_to_end :
  (forall (samples : list vec3) (i : nat) (d : vec3),
     nth_error samples i = Some d ->
     exists m,
       nth_error (c2w_matrices samples) i = Some m /\
       camera_position d = vscale d (8 / 10) /\
       translation m = vneg (vscale d (8 / 10)) /\
       V3 (m4_get m 0 2) (m4_get m 1 2) (m4_get m 2 2) = normalize (vneg d)) /\
  (forall (samples : list vec3) (i : nat),
     let d := V3 0 0 (-1) in
     nth_error samples i = Some d ->
     exists m,
       nth_error (c2w_matrices samples) i = Some m /\
       V3 (m4_get m 0 2) (m4_get m 1 2) (m4_get m 2 2) = V3 0 0 1 /\
       camera_position d = V3 0 0 (- (8 / 10)) /\
       translation m = V3 0 0 (8 / 10)).
Proof.
  split.
  - intros samples i d Hd.
    destruct (c2w_frame samples i d Hd) as (f & u & r & _ & -> & Hm).
    eexists. split; [exact Hm |]. split; [reflexivity |].
    split; [apply translation_frame_matrix |].
    apply forward_column_frame_matrix.
  - intros samples i d Hd.
    destruct (c2w_frame samples i d Hd) as (f & u & r & _ & -> & Hm).
    eexists. split; [exact Hm |].
    split; [| split].
    + rewrite forward_column_frame_matrix. unfold d.
      rewrite normalize_of_unit by (unfold dot; simpl; ring).
      apply vec3_eq; simpl; ring.
    + unfold d, camera_position, vscale. apply vec3_eq; simpl; ring.
    + rewrite translation_frame_matrix. unfold d, camera_position, vscale, vneg.
      apply vec3_eq; simpl; ring.
Qed.

(** A chunk of two frames, the second with the sample (0,0,-1). *)
Lemma direction_frame_end_to_end_witness :
  exists m,
    nth_error (c2w_matrices [V3 1 0 0; V3 0 0 (-1)]) 1 = Some m /\
    translation m = V3 0 0 (8 / 10).
Proof.
  destruct (proj2 direction_frame_end_to_end [V3 1 0 0; V3 0 0 (-1)] 1%nat eq_refl)
    as (m & Hm & _ & _ & Ht).
  exists m. split; [exact Hm | exact Ht].
Defined.

(** C4 as worded fails: with the direction sample (0,0,-1) the translation
    column before inversion is not (0,0,-8), and the centre that the code
    uses is not the centre (0,0,10) scaled by 0.8. *)
Lemma direction_frame_translation_counterexample :
  let d := V3 0 0 (-1) in
  map translation (c2w_matrices [d]) <> [V3 0 0 (-8)] /\
  camera_position d <> vscale (V3 0 0 10) (8 / 10).
Proof.
  cbv zeta. split.
  - rewrite c2w_of_frames by discriminate. cbn [map].
    unfold c2w_matrix. destruct (vector_basis (vneg (V3 0 0 (-1)))) as [[f u] r].
    rewrite translation_frame_matrix. unfold camera_position, vscale, vneg; simpl.
    intros H. injection H. intros. lra.
  - unfold camera_position, vscale; simpl.
    intros H. injection H. intros. lra.
Qed.

(** ** Radiance rescaling *)

Section Rescale.

Lemma Rmax_div (x y m : R) : 0 < m -> Rmax (x / m) (y / m) = Rmax x y / m.
Proof.
  intros Hm. assert (Hi : 0 < / m) by (apply Rinv_0_lt_compat; exact Hm).
  unfold Rdiv. destruct (Rle_dec x y) as [Hle | Hgt].
  - rewrite (Rmax_right x y Hle). apply Rmax_right. nra.
  - rewrite (Rmax_left x y) by lra. apply Rmax_left. nra.
Qed.

Lemma list_max_div (x m : R) (l : list R) :
  0 < m -> list_max (x / m) (map (fun y => y / m) l) = list_max x l / m.
Proof.
  intros Hm. revert x. induction l as [| y l IH]; intros x; simpl; [reflexivity |].
  rewrite Rmax_div by exact Hm. apply IH.
Qed.

Lemma channel_max_some (ch : vec3 -> R) (pixels : list vec3) :
  pixels <> [] -> exists m, channel_max ch pixels = Some m.
Proof. destruct pixels; [congruence | simpl; eauto]. Qed.

Lemma channel_max_map (ch : vec3 -> R) (f : vec3 -> vec3) (k m : R) (pixels : list vec3) :
  (forall p, ch (f p) = ch p / k) ->
  0 < k ->
  channel_max ch pixels = Some m ->
  channel_max ch (map f pixels) = Some (m / k).
Proof.
  intros Hf Hk. destruct pixels as [| p ps]; simpl; [discriminate |].
  intros H; injection H as <-.
  rewrite Hf, map_map.
  rewrite (map_ext (fun q => ch (f q)) (fun q => ch q / k)) by exact Hf.
  rewrite <- (map_map ch (fun y => y / k)).
  now rewrite list_max_div.
Qed.

Lemma rescale_images_some (images out : list (list vec3)) :
  rescale_images images = Some out ->
  exists mx my mz,
    channel_max vx (concat images) = Some mx /\
    channel_max vy (concat images) = Some my /\
    channel_max vz (concat images) = Some mz /\
    out = map (map (div_channels (V3 mx my mz))) images.
Proof.
  unfold rescale_images.
  destruct (channel_max vx (concat images)) as [mx |]; [| discriminate].
  destruct (channel_max vy (concat images)) as [my |]; [| discriminate].
  destruct (channel_max vz (concat images)) as [mz |]; [| discriminate].
  intros H; injection H as <-. exists mx, my, mz. auto.
Qed.

Lemma rescale_images_total (images : list (list vec3)) :
  concat images <> [] -> exists out, rescale_images images = Some out.
Proof.
  intros Hne. unfold rescale_images.
  destruct (channel_max_some vx _ Hne) as [mx ->].
  destruct (channel_max_some vy _ Hne) as [my ->].
  destruct (channel_max_some vz _ Hne) as [mz ->]. eauto.
Qed.

Lemma Rdiv_self (m : R) : 0 < m -> m / m = 1.
Proof. intros H. field. lra. Qed.

End Rescale.

(** C9 (radiance rescaling), as the code has it: for a chunk with at least
    one pixel the images are divided, channel by channel, by the maximum
    of that channel over all pixels of all frames of the chunk; for every
    channel whose maximum is positive, the maximum of the rescaled channel
    over the chunk is 1; and the rescaled pixels of a frame depend on the
    other frames of the chunk. *)
Theorem rescale_images_channel_max :
  (forall images, concat images <> [] -> exists out, rescale_images images = Some out) /\
  (forall images out,
     rescale_images images = Some out ->
     exists mx my mz,
       channel_max vx (concat images) = Some mx /\
       channel_max vy (concat images) = Some my /\
       channel_max vz (concat images) = Some mz /\
       out = map (map (fun p => V3 (vx p / mx) (vy p / my) (vz p / mz))) images /\
       (0 < mx -> channel_max vx (concat out) = Some 1) /\
       (0 < my -> channel_max vy (concat out) = Some 1) /\
       (0 < mz -> channel_max vz (concat out) = Some 1)) /\
  (exists frame other1 other2 out1 out2,
     rescale_images [frame; other1] = Some out1 /\
     rescale_images [frame; other2] = Some out2 /\
     nth_error out1 0 <> nth_error out2 0).
Proof.
  split; [| split].
  - apply rescale_images_total.
  - intros images out H.
    destruct (rescale_images_some _ _ H) as (mx & my & mz & Hx & Hy & Hz & ->).
    exists mx, my, mz. split; [exact Hx |]. split; [exact Hy |]. split; [exact Hz |].
    split; [reflexivity |].
    rewrite <- concat_map.
    split; [| split]; intros Hpos.
    + rewrite (channel_max_map vx _ mx mx (concat images)); auto.
      now rewrite Rdiv_self.
    + rewrite (channel_max_map vy _ my my (concat images)); auto.
      now rewrite Rdiv_self.
    + rewrite (channel_max_map vz _ mz mz (concat images)); auto.
      now rewrite Rdiv_self.
  - exists [V3 1 1 1], [V3 1 1 1], [V3 2 2 2].
    exists [[V3 (1 / Rmax 1 1) (1 / Rmax 1 1) (1 / Rmax 1 1)];
            [V3 (1 / Rmax 1 1) (1 / Rmax 1 1) (1 / Rmax 1 1)]].
    exists [[V3 (1 / Rmax 1 2) (1 / Rmax 1 2) (1 / Rmax 1 2)];
            [V3 (2 / Rmax 1 2) (2 / Rmax 1 2) (2 / Rmax 1 2)]].
    split; [reflexivity |]. split; [reflexivity |].
    simpl. rewrite (Rmax_left 1 1) by lra. rewrite (Rmax_right 1 2) by lra.
    intros H. injection H. intros. lra.
Qed.

Lemma rescale_images_channel_max_witness :
  let images := [[V3 1 2 4]; [V3 1 2 4]] in
  exists out, rescale_images images = Some out /\
              channel_max vx (concat out) = Some 1 /\
              channel_max vy (concat out) = Some 1 /\
              channel_max vz (concat out) = Some 1.
Proof.
  intros images.
  destruct (proj1 rescale_images_channel_max images) as [out Hout]; [discriminate |].
  exists out. split; [exact Hout |].
  destruct (proj1 (proj2 rescale_images_channel_max) images out Hout)
    as (mx & my & mz & Hx & Hy & Hz & _ & Mx & My & Mz).
  simpl in Hx, Hy, Hz.
  injection Hx as Hx. injection Hy as Hy. injection Hz as Hz.
  split; [apply Mx | split; [apply My | apply Mz]].
  - rewrite <- Hx. apply Rmax_case; lra.
  - rewrite <- Hy. apply Rmax_case; lra.
  - rewrite <- Hz. apply Rmax_case; lra.
Defined.

(** C9 as worded fails when a channel's maximum is not positive: with the
    values -1 and -2 the maximum is -1, the rescaled values are 1 and 2,
    and the maximum after rescaling is 2. *)
Lemma rescale_images_negative_counterexample :
  let images := [[V3 (-1) (-1) (-1); V3 (-2) (-2) (-2)]] in
  exists out, rescale_images images = Some out /\
              channel_max vx (concat out) = Some 2 /\
              channel_max vx (concat out) <> Some 1.
Proof.
  cbv zeta.
  set (m := Rmax (-1) (-2)).
  exists [[V3 (-1 / m) (-1 / m) (-1 / m); V3 (-2 / m) (-2 / m) (-2 / m)]].
  split; [reflexivity |].
  assert (Hm : m = -1) by (unfold m; apply Rmax_left; lra).
  assert (H : channel_max vx
                (concat [[V3 (-1 / m) (-1 / m) (-1 / m); V3 (-2 / m) (-2 / m) (-2 / m)]])
              = Some 2).
  { cbn [concat app channel_max map list_max vx]. rewrite Hm. f_equal.
    rewrite Rmax_right by lra. field. }
  split; [exact H |]. rewrite H. intros E. injection E. lra.
Qed.

(** ** The baseline normaliser and the shared tail of the two paths *)

Section Normaliser.

Lemma Rltb_true (x y : R) : Rltb x y = true <-> x < y.
Proof. unfold Rltb. destruct (Rlt_dec x y); split; auto; discriminate. Qed.

Lemma Rltb_false (x y : R) : Rltb x y = false <-> ~ x < y.
Proof. unfold Rltb. destruct (Rlt_dec x y); split; auto; try discriminate; contradiction. Qed.


Lemma resize_world_scale (c : DatasetRE10kCfg) (E : list mat4) (ctx : list nat) (ea eb : mat4) :
  gather E ctx = Some [ea; eb] -> make_baseline_1 c = true ->
  ~ norm (vsub (translation ea) (translation eb)) < baseline_epsilon c ->
  resize_world c E ctx =
  Yield (norm (vsub (translation ea) (translation eb)),
         map (div_translation (norm (vsub (translation ea) (translation eb)))) E).
Proof.
  intros Hg Hb Hlt. unfold resize_world. rewrite Hg, Hb.
  apply Rltb_false in Hlt. cbv zeta. now rewrite Hlt.
Qed.

Lemma resize_world_noop (c : DatasetRE10kCfg) (E : list mat4) (ctx : list nat) (l : list mat4) :
  gather E ctx = Some l -> length l <> 2%nat \/ make_baseline_1 c = false ->
  resize_world c E ctx = Yield (1, E).
Proof.
  intros Hg Hor. unfold resize_world. rewrite Hg.
  destruct l as [| ea [| eb [| ec l]]]; try reflexivity.
  destruct Hor as [Hlen | ->]; [now contradiction Hlen | reflexivity].
Qed.

Lemma gather_length {A : Type} (t : list A) (idx : list nat) (r : list A) :
  gather t idx = Some r -> length r = length idx.
Proof. apply mapM_length. Qed.

Lemma gather_map {A B : Type} (f : A -> B) (t : list A) (idx : list nat) :
  gather (map f t) idx = option_map (map f) (gather t idx).
Proof.
  unfold gather. induction idx as [| i idx IH]; simpl; [reflexivity |].
  rewrite nth_error_map. destruct (nth_error t i); simpl; [| reflexivity].
  rewrite IH. destruct (mapM (nth_error t) idx); reflexivity.
Qed.

Lemma div_translation_effect (s : R) (e : mat4) :
  translation (div_translation s e) = vdiv (translation e) s /\
  (forall i j, (j < 3)%nat -> m4_get (div_translation s e) i j = m4_get e i j) /\
  m4_row (div_translation s e) 3 = m4_row e 3.
Proof.
  destruct e as [[] [] [] []]. split; [reflexivity |]. split; [| reflexivity].
  intros i j Hj.
  destruct j as [| [| [| j]]]; [| | | lia];
    destruct i as [| [| [| i]]]; reflexivity.
Qed.

Lemma scaled_bound_repeat (v s : R) (n : nat) : scaled_bound v n s = repeat (v / s) n.
Proof.
  unfold scaled_bound, get_bound. induction n as [| n IH]; simpl; [reflexivity |].
  now rewrite IH.
Qed.

Lemma scaled_bound_one (v : R) (n : nat) : scaled_bound v n 1 = repeat v n.
Proof. rewrite scaled_bound_repeat. f_equal. field. Qed.

Lemma nf_scale_of_one (c : DatasetRE10kCfg) : nf_scale_of c 1 = 1.
Proof. unfold nf_scale_of. now destruct (baseline_scale_bounds c). Qed.


Context {ImageBatch : Type}.

(** What a yielded example of the shared tail is made of. *)
Lemma assemble_example_yield (self : DatasetRE10k) (sk : string)
    (E : list mat4) (K : list mat3) (ctx tgt : list nat)
    (ci ti : @ImageData ImageBatch) (cd td : option (list (list R)))
    (cp tp : option (list (list vec3))) (ex : Example ImageBatch) :
  assemble_example self sk E K ctx tgt ci ti cd td cp tp = Yield ex ->
  exists scale E',
    resize_world (cfg self) E ctx = Yield (scale, E') /\
    gather E' ctx = Some (v_extrinsics (context ex)) /\
    gather K ctx = Some (v_intrinsics (context ex)) /\
    gather E' tgt = Some (v_extrinsics (target ex)) /\
    gather K tgt = Some (v_intrinsics (target ex)) /\
    v_near (context ex) = repeat (near self / nf_scale_of (cfg self) scale) (length ctx) /\
    v_far (context ex) = repeat (far self / nf_scale_of (cfg self) scale) (length ctx) /\
    v_near (target ex) = repeat (near self / nf_scale_of (cfg self) scale) (length tgt) /\
    v_far (target ex) = repeat (far self / nf_scale_of (cfg self) scale) (length tgt) /\
    v_index (context ex) = ctx /\ v_index (target ex) = tgt /\
    v_image (context ex) = ci /\ v_image (target ex) = ti /\
    scene ex = sk.
Proof.
  unfold assemble_example.
  destruct (resize_world (cfg self) E ctx) as [[scale E'] | |]; try discriminate.
  destruct (gather E' ctx) as [ce |] eqn:H1; [| discriminate].
  destruct (gather K ctx) as [cK |] eqn:H2; [| discriminate].
  destruct (gather E' tgt) as [te |] eqn:H3; [| discriminate].
  destruct (gather K tgt) as [tK |] eqn:H4; [| discriminate].
  intros H; injection H as <-. exists scale, E'. simpl.
  rewrite !scaled_bound_repeat. repeat split; try reflexivity; assumption.
Qed.


(** The shared tail yields whenever the normaliser does and the target
    indices are in range. *)
Lemma assemble_example_total (self : DatasetRE10k) (sk : string)
    (E : list mat4) (K : list mat3) (ctx tgt : list nat)
    (ci ti : @ImageData ImageBatch) (cd td : option (list (list R)))
    (cp tp : option (list (list vec3))) (scale : R) (E' : list mat4) :
  resize_world (cfg self) E ctx = Yield (scale, E') ->
  gather E' ctx <> None -> gather K ctx <> None ->
  gather E' tgt <> None -> gather K tgt <> None ->
  exists ex, assemble_example self sk E K ctx tgt ci ti cd td cp tp = Yield ex.
Proof.
  intros Hr H1 H2 H3 H4. unfold assemble_example. rewrite Hr.
  destruct (gather E' ctx); [| congruence].
  destruct (gather K ctx); [| congruence].
  destruct (gather E' tgt); [| congruence].
  destruct (gather K tgt); [| congruence]. eauto.
Qed.

End Normaliser.

(** ** The two format paths *)

Section PathFacts.

Context {RawImage ImageBatch : Type}.
Variable inverse : mat4 -> option mat4.
Variable sample : string -> list mat4 -> list mat3 -> option (list nat * list nat).
Variable get_fov : list mat3 -> option (list R).
Variable convert_images : list RawImage -> option ImageBatch.
Variable batch_shape : ImageBatch -> list nat.

Lemma fov_too_wide_true (c : DatasetRE10kCfg) (fov : list R) :
  fov_too_wide c fov = true <-> exists a, In a fov /\ rad2deg a > max_fov c.
Proof.
  unfold fov_too_wide. rewrite existsb_exists. unfold Rgtb.
  split; intros (a & Hin & Ha); exists a; (split; [exact Hin |]).
  - apply Rltb_true in Ha. exact Ha.
  - apply Rltb_true. exact Ha.
Qed.

Lemma fov_too_wide_false (c : DatasetRE10kCfg) (fov : list R) :
  fov_too_wide c fov = false <-> forall a, In a fov -> ~ rad2deg a > max_fov c.
Proof.
  split.
  - intros H a Hin Ha.
    assert (fov_too_wide c fov = true) by (apply fov_too_wide_true; eauto). congruence.
  - intros H. destruct (fov_too_wide c fov) eqn:E; [| reflexivity].
    apply fov_too_wide_true in E. destruct E as (a & Hin & Ha). now destruct (H a Hin).
Qed.

Lemma assemble_direction_yield (self : DatasetRE10k) (sk : string)
    (imgs : list (list vec3)) (depths : list (list R)) (positions : list (list vec3))
    (E : list mat4) (K : list mat3) (sampled : list nat * list nat)
    (ex : Example ImageBatch) :
  assemble_direction get_fov self sk imgs depths positions E K sampled = Yield ex ->
  exists fov ci ti cd td cp tp,
    get_fov K = Some fov /\ fov_too_wide (cfg self) fov = false /\
    assemble_example self sk E K direction_context_indices (snd sampled)
      (DirImages ci) (DirImages ti) (Some cd) (Some td) (Some cp) (Some tp) = Yield ex.
Proof.
  unfold assemble_direction.
  destruct (get_fov K) as [fov |] eqn:Hg; [| discriminate].
  destruct (fov_too_wide (cfg self) fov) eqn:Hf; [discriminate |].
  destruct (gather_cat imgs direction_context_indices) as [ci |]; [| discriminate].
  destruct (gather_cat imgs (snd sampled)) as [ti |]; [| discriminate].
  destruct (gather_cat depths direction_context_indices) as [cd |]; [| discriminate].
  destruct (gather_cat depths (snd sampled)) as [td |]; [| discriminate].
  destruct (gather_cat positions direction_context_indices) as [cp |]; [| discriminate].
  destruct (gather_cat positions (snd sampled)) as [tp |]; [| discriminate].
  intros H. exists fov, ci, ti, cd, td, cp, tp. auto.
Qed.

Lemma assemble_pose_yield (self : DatasetRE10k) (sk : string)
    (example : PoseExample RawImage)
    (E : list mat4) (K : list mat3) (sampled : list nat * list nat)
    (ex : Example ImageBatch) :
  assemble_pose get_fov convert_images batch_shape self sk example E K sampled = Yield ex ->
  exists fov ci ti,
    get_fov K = Some fov /\ fov_too_wide (cfg self) fov = false /\
    assemble_example self sk E K pose_context_indices (snd sampled)
      (PoseImages ci) (PoseImages ti) None None None None = Yield ex.
Proof.
  unfold assemble_pose.
  destruct (get_fov K) as [fov |] eqn:Hg; [| discriminate].
  destruct (fov_too_wide (cfg self) fov) eqn:Hf; [discriminate |].
  destruct (gather (images example) pose_context_indices) as [craw |]; [| discriminate].
  destruct (gather (images example) (snd sampled)) as [traw |]; [| discriminate].
  destruct (convert_images craw) as [ci |]; [| discriminate].
  destruct (convert_images traw) as [ti |]; [| discriminate].
  destruct (skip_bad_shape (cfg self) && (image_invalid batch_shape ci || image_invalid batch_shape ti));
    [discriminate |].
  intros H. exists fov, ci, ti. auto.
Qed.

Lemma process_direction_chunk_yield (self : DatasetRE10k) (chunk_path : string)
    (chunk : ZstChunk) (ex : Example ImageBatch) :
  process_direction_chunk inverse sample get_fov self chunk_path chunk = Yield ex ->
  exists imgs E K sampled,
    rescale_images (radiance chunk) = Some imgs /\
    chunk_cameras inverse (length imgs) (direction chunk) = Some (E, K) /\
    sample (chunk_key chunk_path) E K = Some sampled /\
    assemble_direction get_fov self (chunk_key chunk_path) imgs (depth chunk)
      (position chunk) E K sampled = Yield ex.
Proof.
  unfold process_direction_chunk.
  destruct (rescale_images (radiance chunk)) as [imgs |] eqn:Hr; [| discriminate].
  destruct (chunk_cameras inverse (length imgs) (direction chunk)) as [[E K] |] eqn:Hc; [| discriminate].
  destruct (sample (chunk_key chunk_path) E K) as [sampled |] eqn:Hs; [| discriminate].
  intros H. exists imgs, E, K, sampled. repeat split; auto.
Qed.

Lemma process_pose_example_yield (self : DatasetRE10k) (run_idx : nat)
    (example : PoseExample RawImage) (ex : Example ImageBatch) :
  process_pose_example inverse sample get_fov convert_images batch_shape self run_idx example = Yield ex ->
  exists E K sampled,
    convert_cameras inverse (cameras example) = Some (E, K) /\
    sample (scene_name self run_idx example) E K = Some sampled /\
    assemble_pose get_fov convert_images batch_shape self (scene_name self run_idx example)
      example E K sampled = Yield ex.
Proof.
  unfold process_pose_example.
  destruct (convert_cameras inverse (cameras example)) as [[E K] |] eqn:Hc; [| discriminate].
  destruct (sample (scene_name self run_idx example) E K) as [sampled |] eqn:Hs; [| discriminate].
  intros H. exists E, K, sampled. repeat split; auto.
Qed.

(** Four context views never enter the normalisation branch. *)
Lemma resize_world_direction (c : DatasetRE10kCfg) (E : list mat4) :
  resize_world c E direction_context_indices = Raise \/
  resize_world c E direction_context_indices = Yield (1, E).
Proof.
  destruct (gather E direction_context_indices) as [l |] eqn:Hg.
  - right. apply (resize_world_noop c E _ l Hg). left.
    rewrite (gather_length _ _ _ Hg). discriminate.
  - left. unfold resize_world. now rewrite Hg.
Qed.

End PathFacts.

(** ** Properties of the scene loop *)

Section SceneLoop.

Context {RawImage ImageBatch : Type}.
Variable inverse : mat4 -> option mat4.
Variable sample : string -> list mat4 -> list mat3 -> option (list nat * list nat).
Variable get_fov : list mat3 -> option (list R).
Variable convert_images : list RawImage -> option ImageBatch.
Variable batch_shape : ImageBatch -> list nat.
Variables apply_augmentation_shim apply_crop_shim : Example ImageBatch -> Example ImageBatch.
Variable read_zst : string -> ZstChunk.
Variable torch_load : string -> list (PoseExample RawImage).


(** C5 (fixed context override): whenever the policy answers, the context
    indices used from then on, for gathering the cameras and in the
    [index] field of the example, are the literal list, [9, 15, 34, 45]
    in the direction-encoded path and [0, 1] in the pose-vector path,
    whatever context indices the policy returned; its target indices are
    kept.  The example meant is the one handed to the shims; it is also
    the emitted one if the shims leave the [index] fields alone. *)
Theorem fixed_context_override (self : DatasetRE10k) :
  (forall chunk_path chunk (ex : Example ImageBatch),
     process_direction_chunk inverse sample get_fov self chunk_path chunk = Yield ex ->
     exists E K sampled,
       sample (chunk_key chunk_path) E K = Some sampled /\
       v_index (context ex) = [9; 15; 34; 45]%nat /\
       v_index (target ex) = snd sampled /\
       gather E [9; 15; 34; 45]%nat = Some (v_extrinsics (context ex)) /\
       gather K [9; 15; 34; 45]%nat = Some (v_intrinsics (context ex))) /\
  (forall run_idx example (ex : Example ImageBatch),
     process_pose_example inverse sample get_fov convert_images batch_shape self run_idx example
       = Yield ex ->
     exists E K sampled,
       sample (scene_name self run_idx example) E K = Some sampled /\
       v_index (context ex) = [0; 1]%nat /\
       v_index (target ex) = snd sampled /\
       gather K [0; 1]%nat = Some (v_intrinsics (context ex))) /\
  (forall sk imgs depths positions E K c1 c2 t,
     @assemble_direction ImageBatch get_fov self sk imgs depths positions E K (c1, t) =
     assemble_direction get_fov self sk imgs depths positions E K (c2, t)) /\
  (forall sk example E K c1 c2 t,
     assemble_pose get_fov convert_images batch_shape self sk example E K (c1, t) =
     assemble_pose get_fov convert_images batch_shape self sk example E K (c2, t)) /\
  (forall ex,
     (forall e, v_index (context (apply_crop_shim e)) = v_index (context e)) ->
     (forall e, v_index (context (apply_augmentation_shim e)) = v_index (context e)) ->
     v_index (context (emit apply_augmentation_shim apply_crop_shim self ex)) =
     v_index (context ex)).
Proof.
  split; [| split; [| split; [| split]]].
  - intros chunk_path chunk ex H.
    destruct (process_direction_chunk_yield _ _ _ _ _ _ _ H)
      as (imgs & E & K & sampled & _ & _ & Hs & Ha).
    destruct (assemble_direction_yield _ _ _ _ _ _ _ _ _ _ Ha)
      as (fov & ci & ti & cd & td & cp & tp & _ & _ & Hy).
    destruct (assemble_example_yield _ _ _ _ _ _ _ _ _ _ _ _ _ Hy)
      as (scale & E' & Hr & H1 & H2 & _ & _ & _ & _ & _ & _ & H3 & H4 & _).
    destruct (resize_world_direction (cfg self) E) as [Hx | Hx];
      rewrite Hx in Hr; [discriminate | injection Hr as <- <-].
    exists E, K, sampled. repeat split; assumption.
  - intros run_idx example ex H.
    destruct (process_pose_example_yield _ _ _ _ _ _ _ _ _ H)
      as (E & K & sampled & _ & Hs & Ha).
    destruct (assemble_pose_yield _ _ _ _ _ _ _ _ _ _ Ha)
      as (fov & ci & ti & _ & _ & Hy).
    destruct (assemble_example_yield _ _ _ _ _ _ _ _ _ _ _ _ _ Hy)
      as (scale & E' & Hr & _ & H2 & _ & _ & _ & _ & _ & _ & H3 & H4 & _).
    exists E, K, sampled. repeat split; assumption.
  - reflexivity.
  - reflexivity.
  - intros ex Hcrop Haug. unfold emit. rewrite Hcrop.
    destruct (stage self); try reflexivity.
    destruct (augment (cfg self)); [apply Haug | reflexivity].
Qed.

(** C6 (field-of-view rejection): once the policy has answered, if one of
    the angles that [get_fov] computes from the intrinsics of the scene,
    converted to degrees, exceeds [max_fov], the step is a skip, in both
    paths; a skip emits nothing and the loop goes on with what follows.
    An angle of 170 degrees under a cap of 150 is too wide. *)
Theorem fov_rejection (self : DatasetRE10k) :
  (forall chunk_path chunk imgs E K sampled fov,
     rescale_images (radiance chunk) = Some imgs ->
     chunk_cameras inverse (length imgs) (direction chunk) = Some (E, K) ->
     sample (chunk_key chunk_path) E K = Some sampled ->
     get_fov K = Some fov ->
     (exists a, In a fov /\ rad2deg a > max_fov (cfg self)) ->
     @process_direction_chunk ImageBatch inverse sample get_fov self chunk_path chunk = Skip) /\
  (forall run_idx example E K sampled fov,
     convert_cameras inverse (cameras example) = Some (E, K) ->
     sample (scene_name self run_idx example) E K = Some sampled ->
     get_fov K = Some fov ->
     (exists a, In a fov /\ rad2deg a > max_fov (cfg self)) ->
     process_pose_example inverse sample get_fov convert_images batch_shape self run_idx example
       = Skip) /\
  (forall steps rest,
     run_steps apply_augmentation_shim apply_crop_shim self (Skip :: steps) rest =
     run_steps apply_augmentation_shim apply_crop_shim self steps rest) /\
  (forall randperm k chunk_path rest,
     is_zst chunk_path = true ->
     @process_direction_chunk ImageBatch inverse sample get_fov self chunk_path (read_zst chunk_path)
       = Skip ->
     iter_chunks inverse sample get_fov convert_images batch_shape apply_augmentation_shim
       apply_crop_shim read_zst torch_load self randperm k (chunk_path :: rest) =
     iter_chunks inverse sample get_fov convert_images batch_shape apply_augmentation_shim
       apply_crop_shim read_zst torch_load self randperm (S k) rest) /\
  (forall a fov,
     max_fov (cfg self) = 150 -> In a fov -> rad2deg a = 170 ->
     fov_too_wide (cfg self) fov = true).
Proof.
  split; [| split; [| split; [| split]]].
  - intros chunk_path chunk imgs E K sampled fov Hr Hc Hs Hg Hwide.
    unfold process_direction_chunk. rewrite Hr, Hc, Hs.
    unfold assemble_direction. rewrite Hg.
    apply fov_too_wide_true in Hwide. now rewrite Hwide.
  - intros run_idx example E K sampled fov Hc Hs Hg Hwide.
    unfold process_pose_example. rewrite Hc, Hs.
    unfold assemble_pose. rewrite Hg.
    apply fov_too_wide_true in Hwide. now rewrite Hwide.
  - reflexivity.
  - intros randperm k chunk_path rest Hz Hskip. simpl.
    unfold chunk_steps. rewrite Hz, Hskip. reflexivity.
  - intros a fov Hmax Hin Ha. apply fov_too_wide_true.
    exists a. split; [exact Hin |]. rewrite Hmax, Ha. lra.
Qed.

(** C8: in the direction-encoded path the normaliser always answers scale
    1 with the extrinsics untouched, so every example it hands on has the
    cameras as they were built and the bounds [near] and [far] themselves,
    for every configuration. *)
Theorem direction_path_never_rescaled (self : DatasetRE10k) (chunk_path : string)
    (chunk : ZstChunk) (ex : Example ImageBatch) :
  process_direction_chunk inverse sample get_fov self chunk_path chunk = Yield ex ->
  exists (imgs : list (list vec3)) E K sampled,
    rescale_images (radiance chunk) = Some imgs /\
    chunk_cameras inverse (length imgs) (direction chunk) = Some (E, K) /\
    sample (chunk_key chunk_path) E K = Some sampled /\
    length direction_context_indices = 4%nat /\
    resize_world (cfg self) E direction_context_indices = Yield (1, E) /\
    Some (v_extrinsics (context ex)) = gather E direction_context_indices /\
    Some (v_extrinsics (target ex)) = gather E (snd sampled) /\
    v_near (context ex) = repeat (near self) 4 /\
    v_far (context ex) = repeat (far self) 4 /\
    v_near (target ex) = repeat (near self) (length (snd sampled)) /\
    v_far (target ex) = repeat (far self) (length (snd sampled)).
Proof.
  intros H.
  destruct (process_direction_chunk_yield _ _ _ _ _ _ _ H)
    as (imgs & E & K & sampled & Hi & Hc & Hs & Ha).
  destruct (assemble_direction_yield _ _ _ _ _ _ _ _ _ _ Ha)
    as (fov & ci & ti & cd & td & cp & tp & _ & _ & Hy).
  destruct (assemble_example_yield _ _ _ _ _ _ _ _ _ _ _ _ _ Hy)
    as (scale & E' & Hr & H1 & _ & H2 & _ & H3 & H4 & H5 & H6 & _).
  destruct (resize_world_direction (cfg self) E) as [Hx | Hx];
    rewrite Hx in Hr; [discriminate | injection Hr as <- <-].
  rewrite nf_scale_of_one in H3, H4, H5, H6.
  replace (near self / 1) with (near self) in H3, H5 by field.
  replace (far self / 1) with (far self) in H4, H6 by field.
  exists imgs, E, K, sampled.
  repeat split; try assumption; symmetry; assumption.
Qed.

(** C10, as the code has it: [__iter__] assigns the filtered list back to
    [self.chunks], so in the test stage a second pass of the same worker
    filters the list the first pass left.  What the second pass visits is
    a subsequence of what the first visited; it is strictly shorter
    exactly when the first pass visited at least two shards (worker 0) or
    at least one shard (any other worker). *)
Theorem second_pass_filters_again (self : DatasetRE10k)
    (randperm1 randperm2 : nat -> list nat) (w : WorkerInfo) :
  stage self = test -> (1 < num_workers w)%nat -> (id w < num_workers w)%nat ->
  let iter_ :=
    iter inverse sample get_fov convert_images batch_shape apply_augmentation_shim
      apply_crop_shim read_zst torch_load in
  let iter_chunks_ :=
    iter_chunks inverse sample get_fov convert_images batch_shape apply_augmentation_shim
      apply_crop_shim read_zst torch_load in
  let pass1 := fst (iter_ self randperm1 (Some w)) in
  let pass2 := fst (iter_ pass1 randperm2 (Some w)) in
  chunks pass1 = worker_chunks (num_workers w) (id w) (chunks self) /\
  chunks pass2 = worker_chunks (num_workers w) (id w) (chunks pass1) /\
  snd (iter_ self randperm1 (Some w)) = iter_chunks_ pass1 randperm1 1%nat (chunks pass1) /\
  snd (iter_ pass1 randperm2 (Some w)) = iter_chunks_ pass2 randperm2 1%nat (chunks pass2) /\
  subseq (chunks pass2) (chunks pass1) /\
  ((length (chunks pass2) < length (chunks pass1))%nat <->
   ((if (id w =? 0)%nat then 2 else 1) <= length (chunks pass1))%nat).
Proof.
  intros Hs HW Hid iter_ iter_chunks_ pass1 pass2.
  assert (H1 : pass1 = set_chunks self (worker_chunks (num_workers w) (id w) (chunks self))).
  { unfold pass1, iter_, iter. simpl fst. now apply iter_prologue_test. }
  assert (Hs1 : stage pass1 = test) by (rewrite H1; exact Hs).
  assert (H2 : pass2 = set_chunks pass1 (worker_chunks (num_workers w) (id w) (chunks pass1))).
  { unfold pass2, iter_, iter. simpl fst. now apply iter_prologue_test. }
  split; [rewrite H1; reflexivity |].
  split; [rewrite H2; reflexivity |].
  split; [reflexivity |]. split; [reflexivity |].
  rewrite H2. simpl chunks at 1 3.
  split; [apply worker_chunks_subseq | now apply worker_chunks_shorter].
Qed.

End SceneLoop.

(** ** The steps do yield: progress of the two paths *)

Section Progress.

Lemma gather_total {A : Type} (t : list A) (idx : list nat) :
  Forall (fun i => (i < length t)%nat) idx -> exists r, gather t idx = Some r.
Proof.
  intros H. apply mapM_total. intros i Hi.
  rewrite Forall_forall in H. specialize (H i Hi).
  destruct (nth_error t i) eqn:E; [eauto |].
  apply nth_error_None in E. lia.
Qed.

Lemma gather_cat_total {A : Type} (t : list A) (idx : list nat) :
  idx <> [] -> Forall (fun i => (i < length t)%nat) idx ->
  exists r, gather_cat t idx = Some r.
Proof.
  intros Hne H. destruct idx as [| i idx]; [congruence |].
  now apply gather_total.
Qed.

Lemma mapM_repeat {A B : Type} (f : A -> option B) (a : A) (b : B) (n : nat) :
  f a = Some b -> mapM f (repeat a n) = Some (repeat b n).
Proof.
  intros H. induction n as [| n IH]; simpl; [reflexivity |]. now rewrite H, IH.
Qed.

Lemma nth_repeat_in {A : Type} (a d : A) (n m : nat) :
  (n < m)%nat -> nth n (repeat a m) d = a.
Proof.
  revert n; induction m as [| m IH]; intros n Hn; [lia |].
  destruct n as [| n]; simpl; [reflexivity | apply IH; lia].
Qed.

Context {RawImage ImageBatch : Type}.
Variable inverse : mat4 -> option mat4.
Variable get_fov : list mat3 -> option (list R).
Variable convert_images : list RawImage -> option ImageBatch.
Variable batch_shape : ImageBatch -> list nat.

Lemma assemble_direction_total (self : DatasetRE10k) (sk : string)
    (imgs : list (list vec3)) (depths : list (list R)) (positions : list (list vec3))
    (E : list mat4) (K : list mat3) (sampled : list nat * list nat)
    (fov : list R) (n : nat) :
  get_fov K = Some fov -> fov_too_wide (cfg self) fov = false ->
  snd sampled <> [] ->
  length imgs = n -> length depths = n -> length positions = n ->
  length E = n -> length K = n ->
  Forall (fun i => (i < n)%nat) direction_context_indices ->
  Forall (fun i => (i < n)%nat) (snd sampled) ->
  exists ex : Example ImageBatch,
    assemble_direction get_fov self sk imgs depths positions E K sampled = Yield ex.
Proof.
  intros Hg Hf Hne Li Ld Lp LE LK Hc Ht.
  unfold assemble_direction. rewrite Hg, Hf.
  assert (Hcne : direction_context_indices <> []) by discriminate.
  destruct (gather_cat_total imgs _ Hcne) as [ci ->]; [now rewrite Li |].
  destruct (gather_cat_total imgs _ Hne) as [ti ->]; [now rewrite Li |].
  destruct (gather_cat_total depths _ Hcne) as [cd ->]; [now rewrite Ld |].
  destruct (gather_cat_total depths _ Hne) as [td ->]; [now rewrite Ld |].
  destruct (gather_cat_total positions _ Hcne) as [cp ->]; [now rewrite Lp |].
  destruct (gather_cat_total positions _ Hne) as [tp ->]; [now rewrite Lp |].
  destruct (gather_total E direction_context_indices) as [ce Hce]; [now rewrite LE |].
  destruct (gather_total E (snd sampled)) as [te Hte]; [now rewrite LE |].
  destruct (gather_total K direction_context_indices) as [cK HcK]; [now rewrite LK |].
  destruct (gather_total K (snd sampled)) as [tK HtK]; [now rewrite LK |].
  apply (assemble_example_total self sk E K _ _ _ _ _ _ _ _ 1 E); try congruence.
  apply (resize_world_noop _ _ _ ce Hce). left.
  rewrite (gather_length _ _ _ Hce). discriminate.
Qed.

Lemma assemble_pose_total (self : DatasetRE10k) (sk : string)
    (example : PoseExample RawImage) (E : list mat4) (K : list mat3)
    (sampled : list nat * list nat) (fov : list R) (craw traw : list RawImage)
    (ci ti : ImageBatch) (scale : R) (E' : list mat4) :
  get_fov K = Some fov -> fov_too_wide (cfg self) fov = false ->
  gather (images example) pose_context_indices = Some craw ->
  gather (images example) (snd sampled) = Some traw ->
  convert_images craw = Some ci -> convert_images traw = Some ti ->
  image_invalid batch_shape ci = false -> image_invalid batch_shape ti = false ->
  resize_world (cfg self) E pose_context_indices = Yield (scale, E') ->
  gather E' pose_context_indices <> None -> gather K pose_context_indices <> None ->
  gather E' (snd sampled) <> None -> gather K (snd sampled) <> None ->
  exists ex : Example ImageBatch,
    assemble_pose get_fov convert_images batch_shape self sk example E K sampled = Yield ex.
Proof.
  intros Hg Hf Hc Ht Hci Hti Ici Iti Hr H1 H2 H3 H4.
  unfold assemble_pose. rewrite Hg, Hf, Hc, Ht, Hci, Hti, Ici, Iti.
  rewrite andb_false_r.
  now apply (assemble_example_total self sk E K _ _ _ _ _ _ _ _ scale E').
Qed.

Lemma chunk_cameras_length (b : nat) (dir : list (list vec3)) (E : list mat4) (K : list mat3) :
  chunk_cameras inverse b dir = Some (E, K) -> length E = b /\ length K = b.
Proof.
  unfold chunk_cameras, broadcast_frames.
  set (l := c2w_matrices (map principal_sample dir)).
  destruct (length l =? b)%nat eqn:Hl.
  - apply Nat.eqb_eq in Hl.
    destruct (mapM inverse l) as [ex |] eqn:Hm; [| discriminate].
    intros H; injection H as <- <-.
    rewrite (mapM_length _ _ _ Hm), repeat_length. auto.
  - destruct l as [| x [| y l']]; try discriminate.
    destruct (mapM inverse (repeat x b)) as [ex |] eqn:Hm; [| discriminate].
    intros H; injection H as <- <-.
    rewrite (mapM_length _ _ _ Hm), !repeat_length. auto.
Qed.

End Progress.

(** ** The sample data *)

Module FixtureFacts.
Import Fixture.

Lemma principal_sample_frame0 : principal_sample frame0 = V3 1 0 0.
Proof.
  unfold principal_sample, frame0. apply nth_repeat_in. unfold tile. lia.
Qed.

Lemma c2w_frame0 :
  c2w_matrix (V3 1 0 0) =
  M4 (V4 0 0 (-1) (- (8 / 10))) (V4 1 0 0 0) (V4 0 (-1) 0 0) (V4 0 0 0 1).
Proof.
  cbv beta iota zeta delta [c2w_matrix vector_basis frame_matrix].
  rewrite (normalize_of_unit (vneg (V3 1 0 0))) by (unfold dot; simpl; ring).
  rewrite (normalize_of_unit (cross (vneg (V3 1 0 0)) up_ref))
    by (unfold dot, cross; simpl; ring).
  rewrite (normalize_of_unit (cross (vneg (V3 1 0 0)) (cross (vneg (V3 1 0 0)) up_ref)))
    by (unfold dot, cross; simpl; ring).
  unfold m4_set_col3, m4_set, camera_position, vscale, vneg, cross, up_ref; simpl.
  f_equal; f_equal; ring.
Qed.

Lemma inverse_frame0 : exists e, Fixture.exact_inverse (c2w_matrix (V3 1 0 0)) = Some e.
Proof.
  apply (inverse_some Fixture.exact_inverse exact_inverse_regular).
  rewrite c2w_frame0. unfold_mat. simpl. lra.
Qed.

Lemma cameras_chunk0 :
  exists e, chunk_cameras Fixture.exact_inverse 46 (direction chunk0) =
            Some (repeat e 46, repeat direction_intrinsics 46).
Proof.
  destruct inverse_frame0 as [e He]. exists e.
  unfold chunk_cameras, broadcast_frames, chunk0, direction.
  rewrite c2w_of_frames by (rewrite length_map, repeat_length; discriminate).
  rewrite !map_repeat, repeat_length, Nat.eqb_refl, principal_sample_frame0.
  now rewrite (mapM_repeat Fixture.exact_inverse _ e 46 He).
Qed.

Lemma images_chunk0 :
  exists imgs, rescale_images (radiance chunk0) = Some imgs /\ length imgs = 46%nat.
Proof.
  destruct (rescale_images_total (radiance chunk0)) as [out Hout]; [discriminate |].
  exists out. split; [exact Hout |].
  apply rescale_images_some in Hout. destruct Hout as (mx & my & mz & _ & _ & _ & ->).
  now rewrite length_map.
Qed.

Lemma rad2deg_deg (x : R) : rad2deg (x * PI / 180) = x.
Proof. unfold rad2deg. field. apply PI_neq0. Qed.

Lemma fov_const_ok (c : DatasetRE10kCfg) (x : R) (n : nat) :
  ~ x > max_fov c ->
  fov_too_wide c (map (fun _ : mat3 => x * PI / 180) (repeat direction_intrinsics n)) = false.
Proof.
  intros H. unfold fov_too_wide. induction n as [| n IH]; simpl; [reflexivity |].
  rewrite IH, rad2deg_deg, orb_false_r. unfold Rgtb. apply Rltb_false. exact H.
Qed.

End FixtureFacts.

(** ** The properties at the sample data *)



(** The pose-vector path at the sample record: the policy answers context
    [2, 1], the example carries [0, 1]. *)
Lemma fixed_context_override_witness :
  let self := Fixture.dataset0 false test [] in
  exists ex,
    process_pose_example Fixture.exact_inverse Fixture.sample0 (Fixture.get_fov_const (90 * PI / 180))
      Fixture.convert_images0 Fixture.batch_shape0 self 0 Fixture.example0 = Yield ex /\
    v_index (context ex) = [0; 1]%nat /\ v_index (target ex) = [2]%nat.
Proof.
  intros self.
  destruct (convert_poses_total Fixture.exact_inverse exact_inverse_regular
              (cameras Fixture.example0)) as (E & K & HEK).
  { discriminate. }
  { intros p Hp. assert (p = Fixture.pose0) as ->.
    { simpl in Hp. intuition congruence. }
    split; [reflexivity |]. unfold Fixture.pose0, stored_matrix. unfold_mat. simpl. lra. }
  destruct (convert_poses_lengths Fixture.exact_inverse (cameras Fixture.example0) E K HEK)
    as (LE & LK).
  destruct E as [| e0 [| e1 [| e2 [| ? ?]]]]; try discriminate LE.
  destruct K as [| k0 [| k1 [| k2 [| ? ?]]]]; try discriminate LK.
  assert (Hc : convert_cameras Fixture.exact_inverse (cameras Fixture.example0)
               = Some ([e0; e1; e2], [k0; k1; k2]))
    by (rewrite convert_cameras_eq; exact HEK).
  assert (Hex : exists ex,
            process_pose_example Fixture.exact_inverse Fixture.sample0 (Fixture.get_fov_const (90 * PI / 180))
              Fixture.convert_images0 Fixture.batch_shape0 self 0 Fixture.example0
            = Yield ex).
  { unfold process_pose_example. rewrite Hc. unfold Fixture.sample0.
    apply (assemble_pose_total _ _ _ self _ _ _ _ _
             [90 * PI / 180; 90 * PI / 180; 90 * PI / 180] [tt; tt] [tt]
             [tt; tt] [tt] 1 [e0; e1; e2]); try reflexivity; try discriminate.
    unfold fov_too_wide; simpl. rewrite !FixtureFacts.rad2deg_deg.
    assert (Hn : Rgtb 90 150 = false) by (apply Rltb_false; lra).
    now rewrite Hn. }
  destruct Hex as [ex Hex]. exists ex. split; [exact Hex |].
  destruct (proj1 (proj2 (fixed_context_override Fixture.exact_inverse Fixture.sample0
              (Fixture.get_fov_const (90 * PI / 180)) Fixture.convert_images0
              Fixture.batch_shape0 Fixture.shim0 Fixture.shim0 self)) 0%nat _ ex Hex)
    as (E' & K' & sampled & Hs & Hci & Hti & _).
  injection Hs as <-. split; assumption.
Defined.

(** The direction-encoded path at the sample chunk with a field of view of
    170 degrees: skipped. *)
Lemma fov_rejection_witness :
  @process_direction_chunk (list unit) Fixture.exact_inverse Fixture.sample0
    (Fixture.get_fov_const (170 * PI / 180))
    (Fixture.dataset0 true test []) "scene.zst"%string Fixture.chunk0 = Skip.
Proof.
  destruct FixtureFacts.images_chunk0 as (imgs & Hi & Li).
  destruct FixtureFacts.cameras_chunk0 as (e & He).
  apply (proj1 (@fov_rejection unit (list unit) Fixture.exact_inverse Fixture.sample0
                  (Fixture.get_fov_const (170 * PI / 180))
                  Fixture.convert_images0 Fixture.batch_shape0 Fixture.shim0 Fixture.shim0
                  (fun _ => Fixture.chunk0) (fun _ => [Fixture.example0])
                  (Fixture.dataset0 true test []))
               "scene.zst"%string Fixture.chunk0 imgs (repeat e 46)
               (repeat direction_intrinsics 46) ([2; 1]%nat, [2]%nat)
               (map (fun _ => 170 * PI / 180) (repeat direction_intrinsics 46))).
  - exact Hi.
  - rewrite Li. exact He.
  - reflexivity.
  - reflexivity.
  - exists (170 * PI / 180). split; [simpl; now left |].
    rewrite FixtureFacts.rad2deg_deg. simpl. lra.
Defined.

(** The direction-encoded path at the sample chunk with normalisation and
    scaled bounds switched on: the bounds are [near] and [far]. *)
Lemma direction_path_never_rescaled_witness :
  let self := Fixture.dataset0 true train [] in
  exists ex : Example (list unit),
    process_direction_chunk Fixture.exact_inverse Fixture.sample0 (Fixture.get_fov_const (90 * PI / 180))
      self "scene.zst"%string Fixture.chunk0 = Yield ex /\
    v_near (context ex) = repeat (1 / 10) 4 /\
    v_far (context ex) = repeat 1000 4 /\
    v_near (target ex) = [1 / 10].
Proof.
  intros self.
  destruct FixtureFacts.images_chunk0 as (imgs & Hi & Li).
  destruct FixtureFacts.cameras_chunk0 as (e & He).
  assert (Hex : exists ex : Example (list unit),
            process_direction_chunk Fixture.exact_inverse Fixture.sample0
              (Fixture.get_fov_const (90 * PI / 180)) self "scene.zst"%string Fixture.chunk0
            = Yield ex).
  { unfold process_direction_chunk. rewrite Hi, Li, He. unfold Fixture.sample0.
    apply (assemble_direction_total _ self _ imgs _ _ _ _ _
             (map (fun _ => 90 * PI / 180) (repeat direction_intrinsics 46)) 46%nat);
      try reflexivity; try assumption; try discriminate.
    - apply FixtureFacts.fov_const_ok. simpl. lra.
    - unfold direction_context_indices. repeat constructor; lia.
    - simpl. repeat constructor; lia. }
  destruct Hex as [ex Hex]. exists ex. split; [exact Hex |].
  destruct (@direction_path_never_rescaled (list unit) Fixture.exact_inverse Fixture.sample0
              (Fixture.get_fov_const (90 * PI / 180)) self "scene.zst"%string Fixture.chunk0 ex Hex)
    as (imgs' & E & K & sampled & _ & _ & Hs & _ & _ & _ & _ & Hn & Hf & Hn' & _).
  injection Hs as <-. repeat split; assumption.
Defined.

(** Worker 0 of 2 over four shards: the first pass visits two of them, the
    second pass one. *)
Lemma second_pass_filters_again_witness :
  let self := Fixture.dataset0 true test ["a.torch"; "b.torch"; "c.torch"; "d.torch"]%string in
  let w := mkWorker 2 0 in
  let pass1 := fst (Fixture.iter0 self (fun _ => []) (Some w)) in
  let pass2 := fst (Fixture.iter0 pass1 (fun _ => []) (Some w)) in
  chunks pass1 = ["a.torch"; "c.torch"]%string /\
  (length (chunks pass2) < length (chunks pass1))%nat.
Proof.
  intros self w pass1 pass2.
  destruct (@second_pass_filters_again unit (list unit) Fixture.exact_inverse Fixture.sample0
              (Fixture.get_fov_const (90 * PI / 180)) Fixture.convert_images0
              Fixture.batch_shape0 Fixture.shim0 Fixture.shim0
              (fun _ => Fixture.chunk0) (fun _ => [Fixture.example0])
              self (fun _ => []) (fun _ => []) w)
    as (H1 & _ & _ & _ & _ & Hlt); [reflexivity | simpl; lia | simpl; lia |].
  fold Fixture.iter0 in H1, Hlt. fold pass1 in H1, Hlt. fold pass2 in Hlt.
  split; [rewrite H1; reflexivity |].
  apply Hlt. rewrite H1. simpl. lia.
Defined.

(** C10 as worded fails: worker 0 of 2 over a single shard visits that
    shard on the first pass and again on the second; the second pass does
    not visit a strict subset. *)
Lemma second_pass_not_strict_counterexample :
  let self := Fixture.dataset0 true test ["a.torch"]%string in
  let w := mkWorker 2 0 in
  let pass1 := fst (Fixture.iter0 self (fun _ => []) (Some w)) in
  let pass2 := fst (Fixture.iter0 pass1 (fun _ => []) (Some w)) in
  chunks pass1 = ["a.torch"]%string /\
  chunks pass2 = chunks pass1 /\
  ~ (length (chunks pass2) < length (chunks pass1))%nat.
Proof.
  intros self w pass1 pass2.
  assert (E1 : pass1 = set_chunks self (worker_chunks 2 0 (chunks self))).
  { unfold pass1, Fixture.iter0, iter. simpl fst. now apply iter_prologue_test. }
  assert (E2 : pass2 = set_chunks pass1 (worker_chunks 2 0 (chunks pass1))).
  { unfold pass2, Fixture.iter0, iter. simpl fst. apply iter_prologue_test.
    fold Fixture.iter0. fold pass1. rewrite E1. reflexivity. }
  clearbody pass2 pass1.
  assert (H1 : chunks pass1 = ["a.torch"]%string) by (rewrite E1; reflexivity).
  assert (H2 : chunks pass2 = ["a.torch"]%string).
  { rewrite E2. unfold set_chunks, chunks at 1. rewrite H1. reflexivity. }
  rewrite H1, H2. repeat split. simpl. lia.
Qed.

(** ** More on matrices and inversion *)

Section MatrixAlgebra.

Lemma det4_mul (a b : mat4) : det4 (m4_mul a b) = det4 a * det4 b.
Proof.
  destruct a as [[a00 a01 a02 a03] [a10 a11 a12 a13] [a20 a21 a22 a23] [a30 a31 a32 a33]].
  destruct b as [[b00 b01 b02 b03] [b10 b11 b12 b13] [b20 b21 b22 b23] [b30 b31 b32 b33]].
  unfold_mat. ring.
Qed.

Lemma det4_eye4 : det4 eye4 = 1.
Proof. unfold_mat. ring. Qed.

Lemma m4_mul_assoc (a b c : mat4) : m4_mul (m4_mul a b) c = m4_mul a (m4_mul b c).
Proof.
  destruct a as [[a00 a01 a02 a03] [a10 a11 a12 a13] [a20 a21 a22 a23] [a30 a31 a32 a33]].
  destruct b as [[b00 b01 b02 b03] [b10 b11 b12 b13] [b20 b21 b22 b23] [b30 b31 b32 b33]].
  destruct c as [[c00 c01 c02 c03] [c10 c11 c12 c13] [c20 c21 c22 c23] [c30 c31 c32 c33]].
  unfold_mat. f_equal; f_equal; ring.
Qed.

Lemma m4_mul_eye_l (a : mat4) : m4_mul eye4 a = a.
Proof.
  destruct a as [[a00 a01 a02 a03] [a10 a11 a12 a13] [a20 a21 a22 a23] [a30 a31 a32 a33]].
  unfold_mat. f_equal; f_equal; ring.
Qed.

Lemma m4_mul_eye_r (a : mat4) : m4_mul a eye4 = a.
Proof.
  destruct a as [[a00 a01 a02 a03] [a10 a11 a12 a13] [a20 a21 a22 a23] [a30 a31 a32 a33]].
  unfold_mat. f_equal; f_equal; ring.
Qed.

Variable inverse : mat4 -> option mat4.
Hypothesis inverse_regular : inverts_regular inverse.

(** A left inverse is what [inverse] returns. *)
Lemma inverse_unique_l (m c : mat4) : m4_mul c m = eye4 -> inverse m = Some c.
Proof.
  intros H.
  assert (Hdet : det4 m <> 0).
  { intros Hz. pose proof (det4_mul c m) as Hd. rewrite H, det4_eye4, Hz in Hd. lra. }
  rewrite (inverse_regular m Hdet). f_equal.
  destruct (adjugate_inverse_spec m Hdet) as [Hme _].
  rewrite <- (m4_mul_eye_l (adjugate_inverse m)), <- H, m4_mul_assoc, Hme.
  apply m4_mul_eye_r.
Qed.

Lemma inverse_unique_r (m c : mat4) : m4_mul m c = eye4 -> inverse m = Some c.
Proof.
  intros H.
  assert (Hdet : det4 m <> 0).
  { intros Hz. pose proof (det4_mul m c) as Hd. rewrite H, det4_eye4, Hz in Hd. lra. }
  rewrite (inverse_regular m Hdet). f_equal.
  destruct (adjugate_inverse_spec m Hdet) as [_ Hem].
  rewrite <- (m4_mul_eye_r (adjugate_inverse m)), <- H, <- m4_mul_assoc, Hem.
  apply m4_mul_eye_l.
Qed.

End MatrixAlgebra.

(** ** More on the basis of the direction-encoded path *)

Section BasisFacts.

Lemma not_parallel_xy (v : vec3) : ~ parallel_to_up_ref v -> vx v <> 0 \/ vy v <> 0.
Proof.
  intros Hnp.
  destruct (Req_dec (vx v) 0) as [Hx | Hx]; [| now left].
  destruct (Req_dec (vy v) 0) as [Hy | Hy]; [| now right].
  exfalso; apply Hnp; apply parallel_to_up_ref_iff; auto.
Qed.

Lemma not_parallel_vneg (v : vec3) : ~ parallel_to_up_ref v -> ~ parallel_to_up_ref (vneg v).
Proof.
  intros H Hp. apply H. apply parallel_to_up_ref_iff in Hp.
  apply parallel_to_up_ref_iff. simpl in Hp. destruct Hp. split; lra.
Qed.

Lemma dot_vscale (v : vec3) (k : R) : dot (vscale v k) (vscale v k) = k * k * dot v v.
Proof. unfold dot, vscale; simpl; ring. Qed.

Lemma normalize_vscale (v : vec3) (k : R) :
  0 < k -> 0 < dot v v -> normalize (vscale v k) = normalize v.
Proof.
  intros Hk Hv. unfold normalize. rewrite dot_vscale.
  rewrite sqrt_mult by nra. rewrite sqrt_square by lra.
  pose proof (sqrt_lt_R0 _ Hv) as Hs.
  unfold vdiv, vscale; simpl. f_equal; field; lra.
Qed.

(** The pieces of the basis of a non-degenerate vector. *)
Lemma basis_pieces (v : vec3) :
  ~ parallel_to_up_ref v ->
  let f := normalize v in
  let r := normalize (cross f up_ref) in
  dot f f = 1 /\ dot r r = 1 /\ dot f r = 0 /\
  0 < dot (cross f up_ref) (cross f up_ref) /\
  vector_basis v = (f, cross f r, r).
Proof.
  intros Hnp f r.
  pose proof (not_parallel_xy v Hnp) as Hxy.
  assert (Hv : 0 < dot v v) by (apply dot_pos_of_coord; tauto).
  assert (Hf : dot f f = 1) by (apply normalize_unit; exact Hv).
  assert (Hc1 : 0 < dot (cross f up_ref) (cross f up_ref)).
  { rewrite dot_cross_cross.
    pose proof (sqrt_lt_R0 _ Hv) as Hs.
    assert (Hfx : vx f = vx v / sqrt (dot v v)) by reflexivity.
    assert (Hfy : vy f = vy v / sqrt (dot v v)) by reflexivity.
    assert (Hne : vx f <> 0 \/ vy f <> 0).
    { destruct Hxy as [H | H]; [left; rewrite Hfx | right; rewrite Hfy];
        unfold Rdiv; apply Rmult_integral_contrapositive_currified; auto;
        apply Rinv_neq_0_compat; lra. }
    unfold dot, up_ref; simpl. destruct Hne; nra. }
  assert (Hr : dot r r = 1) by (apply normalize_unit; exact Hc1).
  assert (Hfr : dot f r = 0).
  { unfold r. rewrite dot_normalize_r, dot_cross_l. unfold Rdiv; ring. }
  split; [exact Hf |]. split; [exact Hr |]. split; [exact Hfr |]. split; [exact Hc1 |].
  unfold vector_basis. fold f. fold r.
  rewrite (normalize_of_unit (cross f r)); [reflexivity |].
  rewrite dot_cross_cross, Hf, Hr, Hfr. ring.
Qed.

End BasisFacts.

(** X1: the basis depends on the directions of the inputs only: scaling
    the non-degenerate directions of a batch, of any size, by a positive
    factor leaves forward, up and right unchanged. *)
Theorem basis_scale_invariant (to_light : list vec3) (k : R) :
  0 < k -> Forall (fun v => ~ parallel_to_up_ref v) to_light ->
  get_forward_up_right_tensor (map (fun v => vscale v k) to_light) =
  get_forward_up_right_tensor to_light.
Proof.
  intros Hk Hnp.
  assert (E : map normalize (map (fun v => vscale v k) to_light) = map normalize to_light).
  { rewrite map_map. apply map_ext_in. intros v Hv.
    rewrite Forall_forall in Hnp.
    pose proof (not_parallel_xy v (Hnp v Hv)) as Hxy.
    apply normalize_vscale; [exact Hk |]. apply dot_pos_of_coord; tauto. }
  unfold get_forward_up_right_tensor. now rewrite E.
Qed.

Lemma basis_scale_invariant_witness :
  get_forward_up_right_tensor (map (fun v => vscale v 5) [V3 1 2 3; V3 0 1 0; V3 2 0 1]) =
  get_forward_up_right_tensor [V3 1 2 3; V3 0 1 0; V3 2 0 1].
Proof.
  apply basis_scale_invariant; [lra |].
  repeat constructor; intros H; apply parallel_to_up_ref_iff in H; simpl in H; lra.
Defined.

(** X2: sign conventions of the basis.  In a batch whose size is not
    three, for a frame with a non-degenerate direction, right is
    horizontal (no component along +Z), up has a strictly negative
    component along +Z, up is exactly cross(forward, right), and
    (right, up, forward) is right-handed: right . (up x forward) = 1. *)
Theorem basis_orientation (to_light : list vec3) (i : nat) (v : vec3) :
  length to_light <> 3%nat ->
  nth_error to_light i = Some v -> ~ parallel_to_up_ref v ->
  exists f u r,
    frame_of (get_forward_up_right_tensor to_light) i = Some (f, u, r) /\
    vz r = 0 /\ vz u < 0 /\ u = cross f r /\ dot r (cross u f) = 1.
Proof.
  intros Hlen Hv Hnp.
  destruct (basis_pieces v Hnp) as (Hf & Hr & Hfr & Hc1 & Hb).
  rewrite (frame_of_frames to_light i v Hlen Hv), Hb.
  eexists _, _, _. split; [reflexivity |].
  set (f := normalize v) in *. clearbody f.
  set (c1 := cross f up_ref) in *.
  pose proof (sqrt_lt_R0 _ Hc1) as Hs.
  assert (Hrz : vz (normalize c1) = 0).
  { unfold normalize, vdiv, c1, cross, up_ref; simpl. unfold Rdiv. ring. }
  split; [exact Hrz |]. split.
  - assert (Hd : dot c1 c1 = vx f * vx f + vy f * vy f)
      by (unfold c1, cross, up_ref, dot; simpl; ring).
    assert (E : vz (cross f (normalize c1)) = - (dot c1 c1 / sqrt (dot c1 c1))).
    { rewrite Hd at 1. unfold normalize. set (s := sqrt (dot c1 c1)) in *.
      unfold vdiv, c1, cross, up_ref; simpl. field. lra. }
    rewrite E.
    assert (0 < dot c1 c1 / sqrt (dot c1 c1)) by (apply Rdiv_lt_0_compat; lra). lra.
  - split; [reflexivity |].
    set (r := normalize c1) in *.
    replace (dot r (cross (cross f r) f)) with (dot f f * dot r r - dot f r * dot f r)
      by (unfold dot, cross; simpl; ring).
    rewrite Hf, Hr, Hfr. ring.
Qed.

Lemma basis_orientation_witness :
  exists f u r,
    frame_of (get_forward_up_right_tensor [V3 1 0 0; V3 0 2 1]) 0 = Some (f, u, r) /\
    vz r = 0 /\ vz u < 0.
Proof.
  destruct (basis_orientation [V3 1 0 0; V3 0 2 1] 0 (V3 1 0 0))
    as (f & u & r & H & H1 & H2 & _).
  - discriminate.
  - reflexivity.
  - intros H. apply parallel_to_up_ref_iff in H. simpl in H. lra.
  - exists f, u, r. split; [exact H |]. split; assumption.
Defined.

(** ** The extrinsics of a direction-encoded frame *)

Section DirectionExtrinsics.

Lemma rigid_left_inverse (r u f t : vec3) :
  dot r r = 1 -> dot u u = 1 -> dot f f = 1 ->
  dot r u = 0 -> dot r f = 0 -> dot u f = 0 ->
  m4_mul (m4_of_rows r u f (V3 (- dot r t) (- dot u t) (- dot f t)))
         (m4_of_columns r u f t) = eye4.
Proof.
  destruct r as [rx ry rz], u as [ux uy uz], f as [fx fy fz], t as [tx ty tz].
  unfold dot; simpl. intros Hrr Huu Hff Hru Hrf Huf.
  unfold m4_of_rows, m4_of_columns. unfold_mat. simpl.
  f_equal; f_equal; nra.
Qed.

Lemma det4_of_columns (r f t : vec3) :
  det4 (m4_of_columns r (cross f r) f t) = dot f f * dot r r - dot f r * dot f r.
Proof.
  destruct r as [rx ry rz], f as [fx fy fz], t as [tx ty tz].
  unfold m4_of_columns, cross, dot. unfold_mat. simpl. ring.
Qed.

Lemma direction_sample_of_forward (d : vec3) :
  0 < dot d d ->
  d = vscale (normalize (vneg d)) (- norm d).
Proof.
  intros Hd. pose proof (sqrt_lt_R0 _ Hd) as Hs.
  assert (E : dot (vneg d) (vneg d) = dot d d) by (unfold dot, vneg; simpl; ring).
  unfold normalize, norm. rewrite E.
  destruct d as [x y z]. unfold vscale, vdiv, vneg; simpl. f_equal; field; lra.
Qed.

Variable inverse : mat4 -> option mat4.
Hypothesis inverse_regular : inverts_regular inverse.

(** The matrix of a frame built from the basis of its own sample is a
    rigid motion, and so is its inverse. *)
Lemma vector_extrinsics (d : vec3) :
  ~ parallel_to_up_ref d ->
  let f := basis_forward (vneg d) in
  let u := basis_up (vneg d) in
  let r := basis_right (vneg d) in
  c2w_matrix d = m4_of_columns r u f (vneg (camera_position d)) /\
  det4 (c2w_matrix d) = 1 /\
  inverse (c2w_matrix d) =
    Some (m4_of_rows r u f (V3 0 0 (- (8 / 10 * norm d)))).
Proof.
  intros Hnp.
  pose proof (not_parallel_vneg d Hnp) as Hnp'.
  destruct (basis_pieces (vneg d) Hnp') as (Hf & Hr & Hfr & _ & Hb).
  assert (Hd : 0 < dot d d).
  { apply dot_pos_of_coord. destruct (not_parallel_xy d Hnp); tauto. }
  pose proof (direction_sample_of_forward d Hd) as Hdf.
  unfold basis_forward, basis_up, basis_right.
  rewrite Hb. simpl fst. simpl snd.
  set (f := normalize (vneg d)) in *. clearbody f.
  set (r := normalize (cross f up_ref)) in *. clearbody r.
  set (s := norm d) in *. clearbody s.
  assert (Hm : c2w_matrix d = m4_of_columns r (cross f r) f (vneg (camera_position d))).
  { unfold c2w_matrix. rewrite Hb. reflexivity. }
  split; [exact Hm |]. split.
  - rewrite Hm, det4_of_columns, Hf, Hr, Hfr. ring.
  - apply (inverse_unique_l inverse inverse_regular). rewrite Hm.
    assert (Huu : dot (cross f r) (cross f r) = 1)
      by (rewrite dot_cross_cross, Hf, Hr, Hfr; ring).
    assert (Hru : dot r (cross f r) = 0) by apply dot_cross_r.
    assert (Huf : dot (cross f r) f = 0) by (rewrite dot_comm; apply dot_cross_l).
    assert (Hrf : dot r f = 0) by (rewrite dot_comm; exact Hfr).
    pose proof (rigid_left_inverse r (cross f r) f (vneg (camera_position d))
                  Hr Huu Hf Hru Hrf Huf) as Hinv.
    assert (Ht : V3 (- dot r (vneg (camera_position d)))
                    (- dot (cross f r) (vneg (camera_position d)))
                    (- dot f (vneg (camera_position d)))
                 = V3 0 0 (- (8 / 10 * s))).
    { rewrite Hdf. unfold camera_position.
      assert (A : forall a : vec3,
                 - dot a (vneg (vscale (vscale f (- s)) (8 / 10))) = - (8 / 10 * s) * dot a f)
        by (intros a; unfold dot, vneg, vscale; simpl; ring).
      rewrite !A, Hrf, Huf, Hf. f_equal; ring. }
    rewrite Ht in Hinv. exact Hinv.
Qed.

Lemma translation_of_rows (a b c t : vec3) : translation (m4_of_rows a b c t) = t.
Proof. destruct t. reflexivity. Qed.

Lemma mapM_map {A B C : Type} (f : B -> option C) (h : A -> B) (l : list A) :
  mapM f (map h l) = mapM (fun x => f (h x)) l.
Proof. induction l as [| x l IH]; simpl; [reflexivity | now rewrite IH]. Qed.

End DirectionExtrinsics.

(** X3: the extrinsics of the direction-encoded path.  In a chunk whose
    number of frames is not three, the matrix assembled for a frame with
    a direction sample [d] not parallel to +Z has the columns right, up,
    forward and [-0.8 d] and determinant 1, and an inversion that inverts
    regular matrices returns for it the matrix with the rows right, up,
    forward and the translation (0, 0, -0.8 |d|), whatever the direction.
    If no sample of such a chunk is parallel to +Z, the cameras of the
    chunk are built: one extrinsic matrix per frame, with that
    translation. *)
Theorem direction_extrinsics (inverse : mat4 -> option mat4) :
  inverts_regular inverse ->
  (forall (samples : list vec3) (i : nat) (d : vec3),
     length samples <> 3%nat ->
     nth_error samples i = Some d -> ~ parallel_to_up_ref d ->
     exists f u r m,
       frame_of (get_forward_up_right_tensor (map vneg samples)) i = Some (f, u, r) /\
       nth_error (c2w_matrices samples) i = Some m /\
       m = m4_of_columns r u f (vneg (camera_position d)) /\
       det4 m = 1 /\
       inverse m = Some (m4_of_rows r u f (V3 0 0 (- (8 / 10 * norm d))))) /\
  (forall (direction : list (list vec3)),
     length direction <> 3%nat ->
     Forall (fun frame => ~ parallel_to_up_ref (principal_sample frame)) direction ->
     exists E,
       chunk_cameras inverse (length direction) direction =
         Some (E, repeat direction_intrinsics (length direction)) /\
       length E = length direction /\
       forall i frame, nth_error direction i = Some frame ->
         exists e, nth_error E i = Some e /\
                   translation e = V3 0 0 (- (8 / 10 * norm (principal_sample frame)))).
Proof.
  intros Hinv. split.
  - intros samples i d Hlen Hd Hnp.
    destruct (vector_extrinsics inverse Hinv d Hnp) as (Hm & Hdet & Hi).
    exists (basis_forward (vneg d)), (basis_up (vneg d)), (basis_right (vneg d)),
           (c2w_matrix d).
    split.
    { rewrite (frame_of_frames (map vneg samples) i (vneg d)).
      - unfold basis_forward, basis_up, basis_right.
        now destruct (vector_basis (vneg d)) as [[f u] r].
      - now rewrite length_map.
      - now rewrite nth_error_map, Hd. }
    split; [rewrite (c2w_of_frames samples Hlen), nth_error_map, Hd; reflexivity |].
    split; [exact Hm |]. split; [exact Hdet |]. exact Hi.
  - intros direction Hlen Hall.
    set (g := fun d => m4_of_rows (basis_right (vneg d)) (basis_up (vneg d))
                         (basis_forward (vneg d)) (V3 0 0 (- (8 / 10 * norm d)))).
    exists (map g (map principal_sample direction)).
    split; [| split].
    + unfold chunk_cameras, broadcast_frames.
      rewrite c2w_of_frames by now rewrite length_map.
      rewrite !length_map, Nat.eqb_refl.
      rewrite mapM_map, (mapM_map_total (fun d => inverse (c2w_matrix d)) g);
        [reflexivity |].
      intros d Hd. apply in_map_iff in Hd. destruct Hd as (frame & <- & Hin).
      rewrite Forall_forall in Hall.
      destruct (vector_extrinsics inverse Hinv _ (Hall frame Hin)) as (_ & _ & Hi).
      exact Hi.
    + now rewrite !length_map.
    + intros i frame Hf. exists (g (principal_sample frame)).
      split; [now rewrite !nth_error_map, Hf |]. apply translation_of_rows.
Qed.

Lemma direction_extrinsics_witness :
  exists f u r m,
    nth_error (c2w_matrices [V3 3 4 0; V3 1 0 0]) 0 = Some m /\
    det4 m = 1 /\
    Fixture.exact_inverse m = Some (m4_of_rows r u f (V3 0 0 (- (8 / 10 * norm (V3 3 4 0))))).
Proof.
  destruct (proj1 (direction_extrinsics Fixture.exact_inverse exact_inverse_regular)
              [V3 3 4 0; V3 1 0 0] 0%nat (V3 3 4 0))
    as (f & u & r & m & _ & Hm & _ & Hdet & Hi).
  - discriminate.
  - reflexivity.
  - intros H. apply parallel_to_up_ref_iff in H. simpl in H. lra.
  - exists f, u, r, m. split; [exact Hm |]. split; [exact Hdet | exact Hi].
Defined.

(** ** More on [convert_poses] *)

Section PoseFacts.

Lemma det4_stored_matrix (pose : list R) : det4 (stored_matrix pose) = pose_block_det pose.
Proof. unfold stored_matrix, pose_block_det. unfold_mat. simpl. ring. Qed.

Lemma pose_w2c_none (pose : list R) : pose_w2c pose = None <-> length pose <> 18%nat.
Proof.
  split.
  - intros H Hlen. rewrite (pose_w2c_total pose Hlen) in H. discriminate.
  - intros Hlen. destruct (pose_w2c pose) as [w |] eqn:E; [| reflexivity].
    apply pose_w2c_some in E. tauto.
Qed.

Lemma mapM_none {A B : Type} (f : A -> option B) (l : list A) :
  mapM f l = None <-> exists a, In a l /\ f a = None.
Proof.
  induction l as [| x l IH]; simpl.
  - split; [discriminate | intros (a & [] & _)].
  - destruct (f x) as [b |] eqn:Hf.
    + destruct (mapM f l) as [bs |].
      * split; [discriminate |]. intros (a & [<- | Ha] & Hn); [congruence |].
        assert (@None (list B) = None) by reflexivity.
        destruct IH as [_ IH]. discriminate IH. eauto.
      * split; [| reflexivity]. intros _.
        destruct IH as [IH _]. destruct (IH eq_refl) as (a & Ha & Hn). eauto.
    + split; [| reflexivity]. intros _. exists x. auto.
Qed.

Lemma adjugate_inverse_affine (m : mat4) :
  m4_row m 3 = V4 0 0 0 1 -> det4 m <> 0 -> m4_row (adjugate_inverse m) 3 = V4 0 0 0 1.
Proof.
  destruct m as [[a00 a01 a02 a03] [a10 a11 a12 a13] [a20 a21 a22 a23] r3].
  simpl. intros ->.
  unfold_mat. simpl. intros Hdet.
  f_equal; field; intros Hz; apply Hdet; (etransitivity; [| exact Hz]); ring.
Qed.

(** Every row is well formed, or one of them is not. *)
Lemma rows_regular_or_not (poses : list (list R)) :
  (forall pose, In pose poses -> length pose = 18%nat /\ pose_block_det pose <> 0) \/
  (exists pose, In pose poses /\ (length pose <> 18%nat \/ pose_block_det pose = 0)).
Proof.
  induction poses as [| p poses IH].
  - left. intros pose [].
  - destruct IH as [IH | (pose & Hin & Hbad)];
      [| right; exists pose; split; [now right | exact Hbad]].
    destruct (Nat.eq_dec (length p) 18) as [Hl | Hl];
      [| right; exists p; split; [now left | now left]].
    destruct (Req_dec (pose_block_det p) 0) as [Hd | Hd];
      [right; exists p; split; [now left | now right] |].
    left. intros pose [<- | Hin]; [split; assumption | now apply IH].
Qed.

Lemma translation_of_inverse (m e : mat4) :
  m4_row e 3 = V4 0 0 0 1 -> m4_mul m e = eye4 -> m4_apply m (translation e) = vzero.
Proof.
  destruct m as [[a00 a01 a02 a03] [a10 a11 a12 a13] [a20 a21 a22 a23] [a30 a31 a32 a33]].
  destruct e as [[e00 e01 e02 e03] [e10 e11 e12 e13] [e20 e21 e22 e23] r3].
  simpl. intros ->. unfold_mat. simpl. intros H.
  injection H. intros. unfold m4_apply, translation, vzero. unfold_mat. simpl.
  f_equal; lra.
Qed.

End PoseFacts.

(** X4: when the conversion of the poses raises.  With its print of the
    first stored matrix it raises on an empty batch, and it raises when a
    row does not have eighteen entries.  With an inversion that inverts
    regular matrices these are the only causes but one: when it raises,
    the batch is empty, or a row does not have eighteen entries, or the
    3x3 block of the entries 6..8, 10..12, 14..16 of a row is singular
    (the translation entries 9, 13, 17 and the entries 0..5 never
    matter).  The print that follows the call in [__iter__] raises on no
    batch that the call returns. *)
Theorem convert_poses_failure (inverse : mat4 -> option mat4) (poses : list (list R)) :
  inverts_regular inverse ->
  convert_poses inverse [] = None /\
  ((exists pose, In pose poses /\ length pose <> 18%nat) ->
   convert_poses inverse poses = None) /\
  (convert_poses inverse poses = None ->
   poses = [] \/
   exists pose, In pose poses /\
                (length pose <> 18%nat \/ pose_block_det pose = 0)) /\
  convert_cameras inverse poses = convert_poses inverse poses.
Proof.
  intros Hinv. split; [reflexivity |]. split; [| split].
  - intros (pose & Hin & Hlen). unfold convert_poses.
    destruct poses as [| p poses]; [reflexivity |].
    assert (Hn : mapM (convert_pose inverse) (p :: poses) = None).
    { apply mapM_none. exists pose. split; [exact Hin |].
      unfold convert_pose. apply pose_w2c_none in Hlen. now rewrite Hlen. }
    now rewrite Hn.
  - intros Hnone.
    destruct poses as [| p poses]; [now left | right].
    destruct (rows_regular_or_not (p :: poses)) as [Hall | Hbad]; [| exact Hbad].
    exfalso.
    assert (Hreg : forall pose, In pose (p :: poses) ->
                     length pose = 18%nat /\ det4 (stored_matrix pose) <> 0).
    { intros pose Hin. destruct (Hall pose Hin) as [Hl Hd].
      split; [exact Hl |]. now rewrite det4_stored_matrix. }
    assert (Hne : p :: poses <> []) by discriminate.
    rewrite (convert_poses_regular inverse Hinv (p :: poses) Hne Hreg) in Hnone.
    discriminate.
  - apply convert_cameras_eq.
Qed.

(** A batch whose second row has seventeen entries. *)
Lemma convert_poses_failure_witness :
  convert_poses Fixture.exact_inverse
    [[1; 1; 0; 0; 0; 0; 1; 0; 0; 0; 0; 1; 0; 0; 0; 0; 1; 0];
     [1; 1; 0; 0; 0; 0; 1; 0; 0; 0; 0; 1; 0; 0; 0; 0; 1]] = None.
Proof.
  apply (proj1 (proj2 (convert_poses_failure Fixture.exact_inverse _ exact_inverse_regular))).
  eexists. split; [right; left; reflexivity |]. discriminate.
Defined.

(** X5: what the returned extrinsics are.  For every row of eighteen
    entries whose 3x3 block is regular, and an inversion that inverts
    regular matrices, the row is converted, inverting the returned matrix
    gives the stored matrix back, the returned matrix has the bottom row
    [0, 0, 0, 1], and its translation column is the camera centre: the
    point that the stored matrix maps to the origin. *)
Theorem convert_pose_round_trip (inverse : mat4 -> option mat4) (pose : list R) :
  inverts_regular inverse ->
  length pose = 18%nat -> pose_block_det pose <> 0 ->
  exists e,
    convert_pose inverse pose = Some (e, calibration_matrix pose) /\
    inverse e = Some (stored_matrix pose) /\
    m4_row e 3 = V4 0 0 0 1 /\
    m4_apply (stored_matrix pose) (translation e) = vzero.
Proof.
  intros Hinv Hlen Hdet. rewrite <- det4_stored_matrix in Hdet.
  exists (adjugate_inverse (stored_matrix pose)).
  destruct (adjugate_inverse_spec _ Hdet) as [Hme Hem].
  assert (Hrow : m4_row (adjugate_inverse (stored_matrix pose)) 3 = V4 0 0 0 1)
    by (apply adjugate_inverse_affine; [reflexivity | exact Hdet]).
  split; [now apply convert_pose_regular |].
  split; [apply (inverse_unique_l inverse Hinv); exact Hme |].
  split; [exact Hrow |]. apply translation_of_inverse; assumption.
Qed.

Lemma convert_pose_round_trip_witness :
  let pose := [1; 1; 0; 0; 5; 6; 1; 0; 0; 3; 0; 1; 0; 0; 0; 0; 1; 0] in
  exists e,
    convert_pose Fixture.exact_inverse pose = Some (e, calibration_matrix pose) /\
    Fixture.exact_inverse e = Some (stored_matrix pose).
Proof.
  intros pose.
  destruct (convert_pose_round_trip Fixture.exact_inverse pose exact_inverse_regular)
    as (e & H & Hi & _).
  - reflexivity.
  - unfold pose, pose_block_det, det3. simpl. lra.
  - exists e. split; [exact H | exact Hi].
Defined.

(** ** Shuffling and the chunk list of a pass *)

Section ShuffleFacts.

Lemma shuffle_seq_from {A : Type} (pre l : list A) :
  flat_map (fun x => match nth_error (pre ++ l) x with Some a => [a] | None => [] end)
           (seq (length pre) (length l)) = l.
Proof.
  revert pre. induction l as [| a l IH]; intros pre; simpl; [reflexivity |].
  rewrite nth_error_app2 by lia. rewrite Nat.sub_diag. simpl. f_equal.
  specialize (IH (pre ++ [a])).
  rewrite <- app_assoc, length_app in IH. simpl in IH.
  rewrite Nat.add_1_r in IH. exact IH.
Qed.

Lemma shuffle_identity {A : Type} (l : list A) : shuffle l (seq 0 (length l)) = l.
Proof. apply (shuffle_seq_from [] l). Qed.

Lemma stage_shuffles_table (self : DatasetRE10k) :
  stage_shuffles self =
  match stage self with
  | train => true
  | val => shuffle_val (cfg self)
  | test => false
  end.
Proof.
  unfold stage_shuffles. destruct (stage self), (shuffle_val (cfg self)); reflexivity.
Qed.

Lemma shuffle_of_permutation {A : Type} (lst : list A) (indices : list nat) :
  Permutation indices (seq 0 (length lst)) -> Permutation (shuffle lst indices) lst.
Proof.
  intros Hp. rewrite <- (shuffle_identity lst) at 2. unfold shuffle.
  apply Permutation_flat_map. exact Hp.
Qed.

Lemma all_equal_repeat {A : Type} (a : A) (l : list A) :
  (forall x, In x l -> x = a) -> l = repeat a (length l).
Proof.
  induction l as [| b l IH]; simpl; intros H; [reflexivity |].
  rewrite (H b (or_introl eq_refl)). f_equal. apply IH. intros x Hx. apply H. now right.
Qed.

End ShuffleFacts.

(** X6: [shuffle] with the outcome of [torch.randperm(len(lst))], a
    permutation of the positions, returns a permutation of the list: no
    entry is lost or repeated, and the length is kept. *)
Theorem shuffle_permutation {A : Type} (lst : list A) (indices : list nat) :
  Permutation indices (seq 0 (length lst)) ->
  Permutation (shuffle lst indices) lst /\
  length (shuffle lst indices) = length lst.
Proof.
  intros Hp. pose proof (shuffle_of_permutation lst indices Hp) as H.
  split; [exact H | apply Permutation_length; exact H].
Qed.

Lemma shuffle_permutation_witness :
  Permutation (shuffle ["a"; "b"; "c"]%string [2; 0; 1]%nat) ["a"; "b"; "c"]%string.
Proof.
  apply (shuffle_permutation ["a"; "b"; "c"]%string [2; 0; 1]%nat).
  simpl. apply Permutation_sym.
  apply (perm_trans (l' := [0; 2; 1]%nat)); [| apply perm_swap].
  apply perm_skip. apply perm_swap.
Defined.

(** X7: outside the test stage the worker split is not applied: whatever
    [get_worker_info] says, the chunk list of the pass is a permutation of
    the stored list (the whole list for every worker), and it is the
    stored list itself when the stage does not shuffle.  Training always
    shuffles, validation shuffles exactly when [shuffle_val], the test
    stage never does. *)
Theorem prologue_outside_test (self : DatasetRE10k) (indices : list nat)
    (worker_info : option WorkerInfo) :
  stage self <> test ->
  Permutation indices (seq 0 (length (chunks self))) ->
  Permutation (chunks (iter_prologue self indices worker_info)) (chunks self) /\
  chunks (iter_prologue self indices worker_info) =
    (if stage_shuffles self then shuffle (chunks self) indices else chunks self) /\
  stage_shuffles self =
    match stage self with
    | train => true
    | val => shuffle_val (cfg self)
    | test => false
    end.
Proof.
  intros Hs Hp.
  assert (E : chunks (iter_prologue self indices worker_info) =
              (if stage_shuffles self then shuffle (chunks self) indices else chunks self)).
  { unfold iter_prologue.
    destruct (stage_shuffles self); destruct (stage self) eqn:Es; try congruence;
      simpl; rewrite ?Es; destruct worker_info; reflexivity. }
  split; [| split; [exact E | apply stage_shuffles_table]].
  rewrite E. destruct (stage_shuffles self); [| reflexivity].
  apply shuffle_of_permutation. exact Hp.
Qed.

Lemma prologue_outside_test_witness :
  let self := Fixture.dataset0 true train ["a.torch"; "b.zst"]%string in
  Permutation (chunks (iter_prologue self [1; 0]%nat (Some (mkWorker 2 1))))
              ["a.torch"; "b.zst"]%string.
Proof.
  intros self.
  apply (prologue_outside_test self [1; 0]%nat (Some (mkWorker 2 1))).
  - discriminate.
  - simpl. apply perm_swap.
Defined.

(** ** The sizes of the worker shares *)

Section WorkerSizes.

Lemma div_succ (m W : nat) :
  (0 < W)%nat ->
  (S m / W = m / W + (if (S m mod W =? 0)%nat then 1 else 0))%nat.
Proof.
  intros HW.
  pose proof (Nat.div_mod_eq m W) as Hm.
  pose proof (Nat.mod_upper_bound m W) as Hr.
  destruct (Nat.eq_dec (m mod W) (W - 1)) as [E | E].
  - assert (Hq : (m / W + 1 = S m / W)%nat).
    { apply (Nat.div_unique (S m) W (m / W + 1) 0); nia. }
    assert (Hz : (0 = S m mod W)%nat).
    { apply (Nat.mod_unique (S m) W (m / W + 1) 0); nia. }
    rewrite <- Hz, <- Hq. reflexivity.
  - assert (Hq : (m / W = S m / W)%nat).
    { apply (Nat.div_unique (S m) W (m / W) (S (m mod W))); lia. }
    assert (Hz : (S (m mod W) = S m mod W)%nat).
    { apply (Nat.mod_unique (S m) W (m / W) (S (m mod W))); lia. }
    rewrite <- Hz, <- Hq. simpl. lia.
Qed.

Lemma mod_shift_zero (n W i : nat) :
  (i < W)%nat -> ((n + (W - i)) mod W =? 0)%nat = (n mod W =? i)%nat.
Proof.
  intros Hi.
  pose proof (Nat.div_mod_eq n W) as Hn.
  pose proof (Nat.mod_upper_bound n W) as Hr.
  destruct (Nat.lt_trichotomy (n mod W) i) as [Hlt | [Heq | Hgt]].
  - assert (E : (n mod W + (W - i) = (n + (W - i)) mod W)%nat).
    { apply (Nat.mod_unique _ W (n / W)); lia. }
    rewrite <- E.
    replace (n mod W =? i)%nat with false by (symmetry; apply Nat.eqb_neq; lia).
    apply Nat.eqb_neq. lia.
  - assert (E : (0 = (n + (W - i)) mod W)%nat).
    { apply (Nat.mod_unique _ W (n / W + 1)); nia. }
    rewrite <- E, Heq, !Nat.eqb_refl. reflexivity.
  - assert (E : (n mod W - i = (n + (W - i)) mod W)%nat).
    { apply (Nat.mod_unique _ W (n / W + 1)); nia. }
    rewrite <- E.
    replace (n mod W =? i)%nat with false by (symmetry; apply Nat.eqb_neq; lia).
    apply Nat.eqb_neq. lia.
Qed.

Lemma count_residue (W i n : nat) :
  (i < W)%nat ->
  length (filter (fun k => (k mod W =? i)%nat) (seq 0 n)) = ((n + (W - 1 - i)) / W)%nat.
Proof.
  intros Hi. induction n as [| n IH].
  - simpl. symmetry. apply Nat.div_small. lia.
  - rewrite seq_S, filter_app, length_app, IH. simpl.
    replace (S (n + (W - 1 - i))) with (S n + (W - 1 - i))%nat by lia.
    assert (HW : (0 < W)%nat) by lia.
    pose proof (div_succ (n + (W - 1 - i)) W HW) as Hd.
    replace (S (n + (W - 1 - i))) with (n + (W - i))%nat in Hd by lia.
    replace (S n + (W - 1 - i))%nat with (n + (W - i))%nat by lia.
    rewrite Hd, (mod_shift_zero n W i Hi).
    destruct (n mod W =? i)%nat; reflexivity.
Qed.

Lemma map_fst_enumerate {A : Type} (l : list A) : map fst (enumerate l) = seq 0 (length l).
Proof.
  unfold enumerate. generalize 0%nat.
  induction l as [| a l IH]; intros k; simpl; [reflexivity |]. now rewrite IH.
Qed.

Lemma worker_chunks_count (W i : nat) (lst : list string) :
  length (worker_chunks W i lst) =
  length (filter (fun k => (k mod W =? i)%nat) (seq 0 (length lst))).
Proof.
  rewrite worker_chunks_length. unfold worker_entries.
  rewrite <- (map_fst_enumerate lst), filter_map_swap, length_map. reflexivity.
Qed.

End WorkerSizes.

(** X8: the size of a worker's share.  Worker [i] of [W] keeps
    ceil((n - i) / W) of [n] shards, written (n + W - 1 - i) / W; so the
    shares of two workers differ by at most one shard, and a worker with a
    smaller id never has the smaller share. *)
Theorem worker_share_size (W i j : nat) (lst : list string) :
  (i <= j)%nat -> (j < W)%nat ->
  length (worker_chunks W i lst) = ((length lst + (W - 1 - i)) / W)%nat /\
  (length (worker_chunks W j lst) <= length (worker_chunks W i lst))%nat /\
  (length (worker_chunks W i lst) <= length (worker_chunks W j lst) + 1)%nat.
Proof.
  intros Hij Hj.
  assert (Hi : (i < W)%nat) by lia.
  rewrite !worker_chunks_count, (count_residue W i _ Hi), (count_residue W j _ Hj).
  split; [reflexivity |]. split.
  - apply Nat.Div0.div_le_mono. lia.
  - set (a := (length lst + (W - 1 - j))%nat).
    assert (Hle : (length lst + (W - 1 - i) <= a + 1 * W)%nat) by (unfold a; lia).
    apply (Nat.Div0.div_le_mono _ _ W) in Hle.
    rewrite Nat.div_add in Hle by lia. lia.
Qed.

Lemma worker_share_size_witness :
  let lst := ["a"; "b"; "c"; "d"; "e"]%string in
  length (worker_chunks 3 0 lst) = 2%nat /\
  (length (worker_chunks 3 2 lst) <= length (worker_chunks 3 0 lst))%nat.
Proof.
  intros lst.
  destruct (worker_share_size 3 0 2 lst) as (H1 & H2 & _); [lia | lia |].
  split; [rewrite H1; reflexivity | exact H2].
Defined.

(** ** The steps of a pass *)

Section StepFacts.

Context {RawImage ImageBatch : Type}.
Variable inverse : mat4 -> option mat4.
Variable sample : string -> list mat4 -> list mat3 -> option (list nat * list nat).
Variable get_fov : list mat3 -> option (list R).
Variable convert_images : list RawImage -> option ImageBatch.
Variable batch_shape : ImageBatch -> list nat.
Variables apply_augmentation_shim apply_crop_shim : Example ImageBatch -> Example ImageBatch.
Variable read_zst : string -> ZstChunk.
Variable torch_load : string -> list (PoseExample RawImage).


Lemma run_steps_no_raise (self : DatasetRE10k) (steps : list (outcome (Example ImageBatch)))
    (rest : run_result ImageBatch) :
  forallb (fun o => negb (is_raise o)) steps = true ->
  run_steps apply_augmentation_shim apply_crop_shim self steps rest = fold_right result_cons rest (map (emit apply_augmentation_shim apply_crop_shim self) (yields steps)).
Proof.
  induction steps as [| o steps IH]; simpl; [reflexivity |].
  destruct o as [e | |]; simpl; intros H; try discriminate.
  - now rewrite IH.
  - now apply IH.
Qed.

(** X9: how the steps of a pass compose.  Steps that skip add nothing;
    without an exception the examples of the yielding steps come out in
    order, each through the shims, followed by what the rest of the pass
    gives; at the first exception the pass ends: the examples yielded
    before it stand, nothing of the later steps or chunks is produced. *)
Theorem run_steps_semantics (self : DatasetRE10k)
    (pre post : list (outcome (Example ImageBatch))) (rest : run_result ImageBatch) :
  forallb (fun o => negb (is_raise o)) pre = true ->
  run_steps apply_augmentation_shim apply_crop_shim self pre rest = fold_right result_cons rest (map (emit apply_augmentation_shim apply_crop_shim self) (yields pre)) /\
  run_steps apply_augmentation_shim apply_crop_shim self (pre ++ Raise :: post) rest = Aborted (map (emit apply_augmentation_shim apply_crop_shim self) (yields pre)) /\
  yielded (run_steps apply_augmentation_shim apply_crop_shim self pre rest) = map (emit apply_augmentation_shim apply_crop_shim self) (yields pre) ++ yielded rest.
Proof.
  intros H. split; [now apply run_steps_no_raise |]. split.
  - induction pre as [| o pre IH]; simpl; [reflexivity |].
    destruct o as [e | |]; simpl in H; try discriminate; simpl.
    + now rewrite (IH H).
    + now apply IH.
  - rewrite (run_steps_no_raise self pre rest H).
    induction (map (emit apply_augmentation_shim apply_crop_shim self) (yields pre)) as [| e l IH]; simpl; [reflexivity |].
    rewrite <- IH. destruct (fold_right result_cons rest l); reflexivity.
Qed.

Lemma map_seq_blocks {B : Type} (g : nat -> B) (t n : nat) :
  map g (seq 0 (t * n)) =
  flat_map (fun j => map (fun r => g (j * t + r)%nat) (seq 0 t)) (seq 0 n).
Proof.
  induction n as [| n IH].
  - rewrite Nat.mul_0_r. reflexivity.
  - rewrite seq_S, flat_map_app. simpl flat_map. rewrite app_nil_r, <- IH.
    replace (t * S n)%nat with (t * n + t)%nat by lia.
    rewrite seq_app, map_app. f_equal. simpl.
    rewrite <- (Nat.add_0_r (t * n)) at 1.
    assert (G : forall a len b, map g (seq (a + b) len) = map (fun r => g (a + r)%nat) (seq b len)).
    { intros a len. induction len as [| len IHl]; intros b; simpl; [reflexivity |].
      f_equal. rewrite <- IHl. f_equal. f_equal. lia. }
    rewrite G. apply map_ext. intros r. f_equal. lia.
Qed.

Lemma flat_map_seq_nth_error {A B : Type} (f : nat -> A -> list B) (d : nat -> list B)
    (l : list A) :
  flat_map (fun j => match nth_error l j with Some a => f j a | None => d j end)
           (seq 0 (length l)) =
  flat_map (fun p => f (fst p) (snd p)) (enumerate l).
Proof.
  unfold enumerate.
  assert (G : forall pre,
    flat_map (fun j => match nth_error (pre ++ l) j with Some a => f j a | None => d j end)
             (seq (length pre) (length l)) =
    flat_map (fun p => f (fst p) (snd p)) (combine (seq (length pre) (length l)) l)).
  { induction l as [| a l IH]; intros pre; simpl; [reflexivity |].
    rewrite nth_error_app2 by lia. rewrite Nat.sub_diag. simpl. f_equal.
    specialize (IH (pre ++ [a])).
    rewrite <- app_assoc, length_app in IH. simpl in IH.
    rewrite Nat.add_1_r in IH. exact IH. }
  apply (G []).
Qed.

Lemma scene_name_mod (self : DatasetRE10k) (run_idx : nat) (example : PoseExample RawImage) :
  scene_name self (run_idx mod test_times_per_scene (cfg self)) example =
  scene_name self run_idx example.
Proof.
  unfold scene_name. destruct (1 <? test_times_per_scene (cfg self))%nat eqn:E; [| reflexivity].
  apply Nat.ltb_lt in E. rewrite Nat.Div0.mod_mod. reflexivity.
Qed.


Lemma process_pose_example_mod (self : DatasetRE10k) (run_idx : nat)
    (example : PoseExample RawImage) :
  process_pose_example inverse sample get_fov convert_images batch_shape self (run_idx mod test_times_per_scene (cfg self)) example =
  process_pose_example inverse sample get_fov convert_images batch_shape self run_idx example.
Proof.
  unfold process_pose_example. now rewrite scene_name_mod.
Qed.

Lemma steps_schedule (self : DatasetRE10k) (chunk : list (PoseExample RawImage)) :
  let tps := test_times_per_scene (cfg self) in
  map (fun run_idx =>
         match nth_error chunk (run_idx / tps) with
         | Some example =>
             process_pose_example inverse sample get_fov convert_images batch_shape self run_idx example
         | None => Raise
         end) (seq 0 (tps * length chunk)) =
  flat_map (fun example =>
              map (fun r => process_pose_example inverse sample get_fov convert_images batch_shape
                              self r example) (seq 0 tps)) chunk.
Proof.
  intros tps. rewrite map_seq_blocks.
  destruct (Nat.eq_dec tps 0) as [Hz | Hnz].
  - rewrite Hz. simpl.
    assert (N : forall (X : Type) (l : list X),
               flat_map (fun _ : X => @nil (outcome (Example ImageBatch))) l = [])
      by (intros X l; induction l; auto).
    now rewrite !N.
  - rewrite (flat_map_ext
      (fun j => map (fun r => match nth_error chunk ((j * tps + r) / tps) with
                              | Some example =>
                                  process_pose_example inverse sample get_fov convert_images
                                    batch_shape self (j * tps + r) example
                              | None => Raise
                              end) (seq 0 tps))
      (fun j => match nth_error chunk j with
                | Some example =>
                    map (fun r => process_pose_example inverse sample get_fov convert_images
                                    batch_shape self r example) (seq 0 tps)
                | None => map (fun _ => Raise) (seq 0 tps)
                end)).
    + rewrite (flat_map_seq_nth_error
                 (fun _ example =>
                    map (fun r => process_pose_example inverse sample get_fov convert_images
                                    batch_shape self r example) (seq 0 tps))).
      rewrite <- (map_snd_enumerate chunk) at 2.
      rewrite flat_map_concat_map, flat_map_concat_map, map_map. reflexivity.
    + intros j.
      assert (G : forall r, In r (seq 0 tps) ->
                 match nth_error chunk ((j * tps + r) / tps) with
                 | Some example =>
                     process_pose_example inverse sample get_fov convert_images batch_shape
                       self (j * tps + r) example
                 | None => Raise
                 end =
                 match nth_error chunk j with
                 | Some example =>
                     process_pose_example inverse sample get_fov convert_images batch_shape
                       self r example
                 | None => Raise
                 end).
      { intros r Hr. apply in_seq in Hr.
        assert (Hd : ((j * tps + r) / tps = j)%nat).
        { symmetry. apply (Nat.div_unique _ tps j r); lia. }
        assert (Hm : ((j * tps + r) mod tps = r)%nat).
        { symmetry. apply (Nat.mod_unique _ tps j r); lia. }
        rewrite Hd. destruct (nth_error chunk j); [| reflexivity].
        rewrite <- (process_pose_example_mod self (j * tps + r)).
        fold tps. now rewrite Hm. }
      destruct (nth_error chunk j) eqn:En.
      * apply map_ext_in. intros r Hr. specialize (G r Hr). exact G.
      * apply map_ext_in. intros r Hr. specialize (G r Hr). exact G.
Qed.

(** X10: the schedule of a [.torch] chunk.  Without [overfit_to_scene] and
    without shuffling, the loop goes over the records in order and
    processes each one [test_times_per_scene] times in a row, as repeats
    0, 1, ..; the number of steps is [test_times_per_scene] times the
    number of records, so with 0 no record is processed at all. *)
Theorem pose_chunk_schedule (self : DatasetRE10k) (indices : list nat)
    (chunk : list (PoseExample RawImage)) :
  overfit_to_scene (cfg self) = None -> stage_shuffles self = false ->
  let tps := test_times_per_scene (cfg self) in
  pose_chunk_steps inverse sample get_fov convert_images batch_shape self indices chunk =
    flat_map (fun example =>
                map (fun r => process_pose_example inverse sample get_fov convert_images batch_shape
                                self r example) (seq 0 tps)) chunk /\
  length (pose_chunk_steps inverse sample get_fov convert_images batch_shape self indices chunk) =
    (tps * length chunk)%nat.
Proof.
  intros Ho Hs tps.
  assert (E : pose_chunk_steps inverse sample get_fov convert_images batch_shape self indices chunk =
              map (fun run_idx =>
                     match nth_error chunk (run_idx / tps) with
                     | Some example =>
                         process_pose_example inverse sample get_fov convert_images batch_shape
                           self run_idx example
                     | None => Raise
                     end) (seq 0 (tps * length chunk))).
  { unfold pose_chunk_steps. rewrite Ho, Hs. reflexivity. }
  split; [| rewrite E, length_map, length_seq; reflexivity].
  rewrite E. apply steps_schedule.
Qed.

Lemma shuffle_repeat {A : Type} (a : A) (n : nat) (indices : list nat) :
  Permutation indices (seq 0 n) -> shuffle (repeat a n) indices = repeat a n.
Proof.
  intros Hp.
  assert (Hperm : Permutation (shuffle (repeat a n) indices) (repeat a n)).
  { apply shuffle_of_permutation. now rewrite repeat_length. }
  rewrite (all_equal_repeat a (shuffle (repeat a n) indices)).
  - now rewrite (Permutation_length Hperm), repeat_length.
  - intros x Hx. apply (Permutation_in _ Hperm) in Hx. now apply repeat_spec in Hx.
Qed.

(** X11: a [.torch] chunk with [overfit_to_scene].  If the chunk does not
    hold exactly one record with the configured key, the assertion fails
    and the chunk is one raising step.  If it holds exactly one, every
    step of the chunk processes that record: as many steps as without
    overfitting, [test_times_per_scene] repeats for each record of the
    chunk, shuffled or not. *)
Theorem overfit_chunk_steps (self : DatasetRE10k) (indices : list nat)
    (chunk : list (PoseExample RawImage)) (scene_key : string) :
  overfit_to_scene (cfg self) = Some scene_key ->
  stage_shuffles self = false \/ Permutation indices (seq 0 (length chunk)) ->
  let matches := filter (fun x => String.eqb (key x) scene_key) chunk in
  let steps := pose_chunk_steps inverse sample get_fov convert_images batch_shape self indices chunk in
  (length matches <> 1%nat -> steps = [Raise]) /\
  (forall item, matches = [item] ->
     steps =
       flat_map (fun _ =>
                   map (fun r => process_pose_example inverse sample get_fov convert_images
                                   batch_shape self r item)
                       (seq 0 (test_times_per_scene (cfg self)))) chunk).
Proof.
  intros Ho Hsh matches steps. split.
  - intros Hlen. unfold steps, pose_chunk_steps. rewrite Ho. fold matches.
    destruct matches as [| x [| y l]]; try reflexivity. now contradiction Hlen.
  - intros item Hm. unfold steps, pose_chunk_steps. rewrite Ho. fold matches. rewrite Hm.
    assert (Hc : (if stage_shuffles self
                  then shuffle (repeat item (length chunk)) indices
                  else repeat item (length chunk)) = repeat item (length chunk)).
    { destruct (stage_shuffles self); [| reflexivity].
      destruct Hsh as [H | H]; [discriminate | now apply shuffle_repeat]. }
    rewrite Hc.
    pose proof (steps_schedule self (repeat item (length chunk))) as Hs.
    cbv zeta in Hs. rewrite Hs.
    clear. induction chunk as [| x chunk IH]; simpl; [reflexivity |]. now rewrite IH.
Qed.

End StepFacts.

(** Three steps, a skip between two examples, then an exception. *)
Lemma run_steps_semantics_witness :
  let ex := mkExample (mkViews [] [] (@DirImages (list unit) []) [] [] [] None None)
                      (mkViews [] [] (@DirImages (list unit) []) [] [] [] None None)
                      "s"%string in
  let self := Fixture.dataset0 true test [] in
  run_steps Fixture.shim0 Fixture.shim0 self
    ([Yield ex; Skip; Yield ex] ++ Raise :: [Yield ex]) (Finished [ex])
  = Aborted [ex; ex].
Proof.
  intros ex self.
  apply (run_steps_semantics Fixture.shim0 Fixture.shim0 self
           [Yield ex; Skip; Yield ex] [Yield ex] (Finished [ex])).
  reflexivity.
Defined.

(** A chunk of two records processed three times each. *)
Lemma pose_chunk_schedule_witness :
  let self :=
    mkDataset (mkCfg (1 / 100) 150 true false 3 true true true None) test [] (1 / 10) 1000 in
  length (pose_chunk_steps Fixture.exact_inverse Fixture.sample0 (Fixture.get_fov_const 0)
            Fixture.convert_images0 Fixture.batch_shape0 self []
            [Fixture.example0; Fixture.example0]) = 6%nat.
Proof.
  intros self.
  apply (pose_chunk_schedule Fixture.exact_inverse Fixture.sample0 (Fixture.get_fov_const 0)
           Fixture.convert_images0 Fixture.batch_shape0 self []
           [Fixture.example0; Fixture.example0]); reflexivity.
Defined.

(** A chunk of two records, the second one being the scene to overfit
    to. *)
Lemma overfit_chunk_steps_witness :
  let self :=
    mkDataset (mkCfg (1 / 100) 150 true false 2 true true true (Some "scene"%string))
              test [] (1 / 10) 1000 in
  length (pose_chunk_steps Fixture.exact_inverse Fixture.sample0 (Fixture.get_fov_const 0)
            Fixture.convert_images0 Fixture.batch_shape0 self []
            [mkPose "other" [] []; Fixture.example0]) = 4%nat.
Proof.
  intros self.
  destruct (overfit_chunk_steps Fixture.exact_inverse Fixture.sample0 (Fixture.get_fov_const 0)
              Fixture.convert_images0 Fixture.batch_shape0 self []
              [mkPose "other" [] []; Fixture.example0] "scene"%string eq_refl
              (or_introl eq_refl)) as [_ H].
  rewrite (H Fixture.example0 eq_refl). reflexivity.
Defined.

(** ** Scene names and chunk paths *)

Section StringFacts.

Lemma append_cancel_l (p x y : string) : (p ++ x = p ++ y)%string -> x = y.
Proof.
  induction p as [| a p IH]; simpl; [auto |]. intros H. injection H as H. auto.
Qed.

Lemma fmt_02d_decode (n : nat) :
  option_map Nat.of_uint (NilEmpty.uint_of_string (fmt_02d n)) = Some n.
Proof.
  unfold fmt_02d. destruct (n <? 10)%nat.
  - change (String "0" (NilEmpty.string_of_uint (Nat.to_uint n)))
      with (NilEmpty.string_of_uint (Decimal.D0 (Nat.to_uint n))).
    rewrite NilEmpty.usu. simpl. f_equal.
    change (Nat.of_uint (Decimal.D0 (Nat.to_uint n))) with (Nat.of_uint (Nat.to_uint n)).
    apply Unsigned.of_to.
  - rewrite NilEmpty.usu. simpl. f_equal. apply Unsigned.of_to.
Qed.

Lemma fmt_02d_inj (a b : nat) : fmt_02d a = fmt_02d b -> a = b.
Proof.
  intros H. pose proof (fmt_02d_decode a) as Ha. rewrite H, fmt_02d_decode in Ha.
  now injection Ha.
Qed.

Lemma split_dot_cons (s : string) : exists h t, split_dot s = h :: t.
Proof.
  destruct s as [| a s]; simpl; [eauto |].
  destruct (Ascii.eqb a "."); [eauto |].
  destruct (split_dot s); eauto.
Qed.

Lemma has_char_app (c : ascii) (s t : string) :
  has_char c (s ++ t) = has_char c s || has_char c t.
Proof.
  induction s as [| a s IH]; simpl; [reflexivity |]. now rewrite IH, orb_assoc.
Qed.

Lemma split_dot_no_dot (s : string) : has_char "." s = false -> split_dot s = [s].
Proof.
  induction s as [| a s IH]; simpl; [reflexivity |].
  destruct (Ascii.eqb a "."); simpl; [discriminate |].
  intros H. now rewrite (IH H).
Qed.

Lemma split_dot_app (s t : string) :
  has_char "." s = false ->
  split_dot (s ++ String "." t) = s :: split_dot t.
Proof.
  induction s as [| a s IH]; simpl; [reflexivity |].
  destruct (Ascii.eqb a "."); simpl; [discriminate |].
  intros H. now rewrite (IH H).
Qed.

Lemma split_dot_app_two (s t : string) :
  exists h h2 tl, split_dot (s ++ String "." t) = h :: h2 :: tl.
Proof.
  induction s as [| a s IH]; simpl.
  - destruct (split_dot_cons t) as (h & tl & ->). eauto.
  - destruct IH as (h & h2 & tl & ->). destruct (Ascii.eqb a "."); eauto.
Qed.

Lemma last_split_dot_app (s t : string) :
  last (split_dot (s ++ String "." t)) EmptyString = last (split_dot t) EmptyString.
Proof.
  induction s as [| a s IH]; simpl.
  - destruct (split_dot_cons t) as (h & tl & ->). reflexivity.
  - destruct (split_dot_app_two s t) as (h & h2 & tl & E). rewrite E in *.
    destruct (Ascii.eqb a "."); exact IH.
Qed.

End StringFacts.

(** X12: [split(".")] and the strings [__iter__] derives from a chunk path.
    Joining the pieces with "." gives the path back; no piece contains a
    dot; the key of a [.zst] chunk is the path up to its first dot, so a
    dot in a directory name cuts the key short; a path is taken for a
    [.zst] chunk exactly by what follows its last dot. *)
Theorem split_dot_round_trip (s : string) :
  String.concat "." (split_dot s) = s /\
  Forall (fun piece => has_char "." piece = false) (split_dot s) /\
  (forall stem rest, has_char "." stem = false ->
     chunk_key (stem ++ String "." rest) = stem) /\
  (has_char "." s = false -> chunk_key s = s /\ is_zst s = String.eqb s "zst") /\
  (forall stem ext, has_char "." ext = false ->
     is_zst (stem ++ String "." ext) = String.eqb ext "zst").
Proof.
  split; [| split; [| split; [| split]]].
  - induction s as [| a s IH]; simpl; [reflexivity |].
    destruct (Ascii.eqb a ".") eqn:E.
    + apply Ascii.eqb_eq in E. subst a.
      destruct (split_dot_cons s) as (h & t & Es). rewrite Es in *.
      simpl. simpl in IH. now rewrite IH.
    + destruct (split_dot_cons s) as (h & t & Es). rewrite Es in *.
      destruct t; simpl in *; now rewrite IH.
  - induction s as [| a s IH]; simpl; [repeat constructor |].
    destruct (Ascii.eqb a ".") eqn:E; [constructor; [reflexivity | exact IH] |].
    destruct (split_dot_cons s) as (h & t & Es). rewrite Es in *.
    inversion IH; subst. constructor; [simpl; now rewrite E | assumption].
  - intros stem rest H. unfold chunk_key. now rewrite split_dot_app.
  - intros H. unfold chunk_key, is_zst. now rewrite split_dot_no_dot.
  - intros stem ext H. unfold is_zst.
    now rewrite last_split_dot_app, split_dot_no_dot.
Qed.

Lemma split_dot_round_trip_witness :
  chunk_key "data.v2/000.zst" = "data"%string /\ is_zst "data.v2/000.zst" = true.
Proof.
  split.
  - apply (proj1 (proj2 (proj2 (split_dot_round_trip EmptyString)))
             "data"%string "v2/000.zst"%string).
    reflexivity.
  - apply (proj2 (proj2 (proj2 (proj2 (split_dot_round_trip EmptyString))))
             "data.v2/000"%string "zst"%string).
    reflexivity.
Defined.

(** X13: the scene names of the repeats.  With [test_times_per_scene] > 1
    the name is the key, an underscore and the repeat number in at least
    two digits; two steps over the same record get the same name exactly
    when their repeat numbers agree, so the repeats of a record have
    pairwise different names.  Otherwise the name is the key. *)
Theorem scene_name_repeats {RawImage : Type} (self : DatasetRE10k)
    (a b : nat) (example : PoseExample RawImage) :
  let tps := test_times_per_scene (cfg self) in
  ((1 < tps)%nat ->
   (scene_name self a example = scene_name self b example <-> a mod tps = b mod tps)) /\
  ((tps <= 1)%nat -> scene_name self a example = key example) /\
  (forall n m, fmt_02d n = fmt_02d m -> n = m).
Proof.
  intros tps. split; [| split].
  - intros Ht. unfold scene_name. fold tps.
    apply Nat.ltb_lt in Ht. rewrite Ht. split.
    + intros H. apply append_cancel_l in H. apply append_cancel_l in H.
      now apply fmt_02d_inj.
    + now intros ->.
  - intros Ht. unfold scene_name. fold tps.
    replace (1 <? tps)%nat with false by (symmetry; apply Nat.ltb_ge; exact Ht).
    reflexivity.
  - apply fmt_02d_inj.
Qed.

Lemma scene_name_repeats_witness :
  let self :=
    mkDataset (mkCfg (1 / 100) 150 true false 3 true true true None) test [] (1 / 10) 1000 in
  scene_name self 4 Fixture.example0 = scene_name self 7 Fixture.example0.
Proof.
  intros self.
  apply (proj1 (scene_name_repeats self 4 7 Fixture.example0)); [simpl; lia | reflexivity].
Defined.

(** ** More on the baseline normaliser *)

Section UnitBaseline.

Lemma div_translation_one (e : mat4) : div_translation 1 e = e.
Proof.
  destruct e as [[a00 a01 a02 a03] [a10 a11 a12 a13] [a20 a21 a22 a23] r3].
  unfold div_translation, m4_set_col3, m4_set, translation, vdiv. simpl.
  f_equal; f_equal; field.
Qed.

Lemma map_div_translation_one (E : list mat4) : map (div_translation 1) E = E.
Proof.
  induction E as [| e E IH]; simpl; [reflexivity |]. now rewrite div_translation_one, IH.
Qed.

Lemma norm_vdiv_diff (a b : vec3) (s : R) :
  0 < s -> norm (vsub (vdiv a s) (vdiv b s)) = norm (vsub a b) / s.
Proof.
  intros Hs. unfold norm.
  assert (E : dot (vsub (vdiv a s) (vdiv b s)) (vsub (vdiv a s) (vdiv b s)) =
              dot (vsub a b) (vsub a b) * (/ s * / s)).
  { unfold dot, vsub, vdiv; simpl. field. lra. }
  rewrite E. rewrite sqrt_mult; [| apply dot_nonneg |].
  - rewrite sqrt_square; [reflexivity |]. apply Rlt_le. now apply Rinv_0_lt_compat.
  - assert (0 < / s) by (now apply Rinv_0_lt_compat). nra.
Qed.

End UnitBaseline.

(** X14: with a positive [baseline_epsilon], two context views and
    [make_baseline_1], every scene that is not skipped comes out of the
    normaliser with its two context cameras at distance exactly 1, with as
    many views as before; normalising the result again is the identity
    (scale 1) for any epsilon up to 1. *)
Theorem unit_baseline (c : DatasetRE10kCfg) (E : list mat4) (ctx : list nat) (ea eb : mat4) :
  gather E ctx = Some [ea; eb] -> make_baseline_1 c = true ->
  0 < baseline_epsilon c ->
  let scale := norm (vsub (translation ea) (translation eb)) in
  ~ scale < baseline_epsilon c ->
  let E' := map (div_translation scale) E in
  resize_world c E ctx = Yield (scale, E') /\
  length E' = length E /\
  gather E' ctx = Some [div_translation scale ea; div_translation scale eb] /\
  norm (vsub (translation (div_translation scale ea))
             (translation (div_translation scale eb))) = 1 /\
  (forall c', make_baseline_1 c' = true -> baseline_epsilon c' <= 1 ->
              resize_world c' E' ctx = Yield (1, E')).
Proof.
  intros Hg Hb Heps scale Hge E'.
  assert (Hs : 0 < scale) by lra.
  assert (Hg' : gather E' ctx = Some [div_translation scale ea; div_translation scale eb]).
  { unfold E'. rewrite gather_map, Hg. reflexivity. }
  assert (Hn : norm (vsub (translation (div_translation scale ea))
                          (translation (div_translation scale eb))) = 1).
  { destruct (div_translation_effect scale ea) as [-> _].
    destruct (div_translation_effect scale eb) as [-> _].
    rewrite norm_vdiv_diff by exact Hs. fold scale. field. lra. }
  split; [apply (resize_world_scale c E ctx ea eb Hg Hb Hge) |].
  split; [unfold E'; apply length_map |].
  split; [exact Hg' |]. split; [exact Hn |].
  intros c' Hb' Heps'.
  rewrite (resize_world_scale c' E' ctx _ _ Hg' Hb') by (rewrite Hn; lra).
  rewrite Hn, map_div_translation_one. reflexivity.
Qed.

Lemma unit_baseline_witness :
  let c := Fixture.cfg0 true in
  let E := [eye4; m4_set_col3 eye4 3 (V3 0 4 0); m4_set_col3 eye4 3 (V3 3 0 0)] in
  exists E', resize_world c E [1; 2]%nat = Yield (5, E') /\
             exists ea eb, gather E' [1; 2]%nat = Some [ea; eb] /\
                           norm (vsub (translation ea) (translation eb)) = 1.
Proof.
  intros c E.
  assert (Hn : norm (vsub (V3 0 4 0) (V3 3 0 0)) = 5).
  { unfold norm, vsub, dot; simpl.
    replace ((0 - 3) * (0 - 3) + (4 - 0) * (4 - 0) + (0 - 0) * (0 - 0)) with (5 * 5) by ring.
    apply sqrt_square. lra. }
  destruct (unit_baseline c E [1; 2]%nat (m4_set_col3 eye4 3 (V3 0 4 0))
              (m4_set_col3 eye4 3 (V3 3 0 0))) as (H1 & _ & H3 & H4 & _).
  - reflexivity.
  - reflexivity.
  - simpl. lra.
  - change (~ norm (vsub (V3 0 4 0) (V3 3 0 0)) < 1 / 100). rewrite Hn. lra.
  - change (norm (vsub (translation (m4_set_col3 eye4 3 (V3 0 4 0)))
                       (translation (m4_set_col3 eye4 3 (V3 3 0 0)))))
      with (norm (vsub (V3 0 4 0) (V3 3 0 0))) in H1, H3, H4.
    rewrite Hn in H1, H3, H4.
    eexists. split; [exact H1 |]. eexists. eexists. split; [exact H3 | exact H4].
Defined.

(** ** More on the scene steps *)

Section SceneFacts.

Context {RawImage ImageBatch : Type}.
Variable inverse : mat4 -> option mat4.
Variable sample : string -> list mat4 -> list mat3 -> option (list nat * list nat).
Variable get_fov : list mat3 -> option (list R).
Variable convert_images : list RawImage -> option ImageBatch.
Variable batch_shape : ImageBatch -> list nat.
Variables apply_augmentation_shim apply_crop_shim : Example ImageBatch -> Example ImageBatch.
Variable read_zst : string -> ZstChunk.
Variable torch_load : string -> list (PoseExample RawImage).

Lemma gather_cat_some {A : Type} (t : list A) (idx : list nat) (r : list A) :
  gather_cat t idx = Some r -> gather t idx = Some r /\ idx <> [] /\ length r = length idx.
Proof.
  destruct idx as [| i idx]; [discriminate |]. unfold gather_cat. intros H.
  split; [exact H |]. split; [discriminate |]. apply (gather_length _ _ _ H).
Qed.

Lemma gather_out_of_range {A : Type} (t : list A) (idx : list nat) (i : nat) :
  In i idx -> (length t <= i)%nat -> gather t idx = None.
Proof.
  intros Hin Hle. apply mapM_none. exists i. split; [exact Hin |].
  now apply nth_error_None.
Qed.

(** The groups of an example of the direction-encoded path. *)
Lemma assemble_direction_groups (self : DatasetRE10k) (sk : string)
    (imgs : list (list vec3)) (depths : list (list R)) (positions : list (list vec3))
    (E : list mat4) (K : list mat3) (sampled : list nat * list nat)
    (ex : Example ImageBatch) :
  assemble_direction get_fov self sk imgs depths positions E K sampled = Yield ex ->
  exists ci ti cd td cp tp,
    gather_cat imgs direction_context_indices = Some ci /\
    gather_cat imgs (snd sampled) = Some ti /\
    gather_cat depths direction_context_indices = Some cd /\
    gather_cat depths (snd sampled) = Some td /\
    gather_cat positions direction_context_indices = Some cp /\
    gather_cat positions (snd sampled) = Some tp /\
    assemble_example self sk E K direction_context_indices (snd sampled)
      (DirImages ci) (DirImages ti) (Some cd) (Some td) (Some cp) (Some tp) = Yield ex.
Proof.
  unfold assemble_direction.
  destruct (get_fov K) as [fov |]; [| discriminate].
  destruct (fov_too_wide (cfg self) fov); [discriminate |].
  destruct (gather_cat imgs direction_context_indices) as [ci |] eqn:H1; [| discriminate].
  destruct (gather_cat imgs (snd sampled)) as [ti |] eqn:H2; [| discriminate].
  destruct (gather_cat depths direction_context_indices) as [cd |] eqn:H3; [| discriminate].
  destruct (gather_cat depths (snd sampled)) as [td |] eqn:H4; [| discriminate].
  destruct (gather_cat positions direction_context_indices) as [cp |] eqn:H5; [| discriminate].
  destruct (gather_cat positions (snd sampled)) as [tp |] eqn:H6; [| discriminate].
  intros H. exists ci, ti, cd, td, cp, tp. repeat split; assumption.
Qed.

Lemma assemble_example_fields (self : DatasetRE10k) (sk : string)
    (E : list mat4) (K : list mat3) (ctx tgt : list nat)
    (ci ti : @ImageData ImageBatch) (cd td : option (list (list R)))
    (cp tp : option (list (list vec3))) (ex : Example ImageBatch) :
  assemble_example self sk E K ctx tgt ci ti cd td cp tp = Yield ex ->
  v_depths (context ex) = cd /\ v_depths (target ex) = td /\
  v_positions (context ex) = cp /\ v_positions (target ex) = tp.
Proof.
  unfold assemble_example.
  destruct (resize_world (cfg self) E ctx) as [[scale E'] | |]; try discriminate.
  destruct (gather E' ctx); [| discriminate].
  destruct (gather K ctx); [| discriminate].
  destruct (gather E' tgt); [| discriminate].
  destruct (gather K tgt); [| discriminate].
  intros H; injection H as <-. simpl. auto.
Qed.

Lemma views_lengths (self : DatasetRE10k) (sk : string)
    (E : list mat4) (K : list mat3) (ctx tgt : list nat)
    (ci ti : @ImageData ImageBatch) (cd td : option (list (list R)))
    (cp tp : option (list (list vec3))) (ex : Example ImageBatch) :
  assemble_example self sk E K ctx tgt ci ti cd td cp tp = Yield ex ->
  v_index (context ex) = ctx /\ v_index (target ex) = tgt /\
  length (v_extrinsics (context ex)) = length ctx /\
  length (v_intrinsics (context ex)) = length ctx /\
  length (v_near (context ex)) = length ctx /\
  length (v_far (context ex)) = length ctx /\
  length (v_extrinsics (target ex)) = length tgt /\
  length (v_intrinsics (target ex)) = length tgt /\
  length (v_near (target ex)) = length tgt /\
  length (v_far (target ex)) = length tgt.
Proof.
  intros H.
  destruct (assemble_example_yield _ _ _ _ _ _ _ _ _ _ _ _ _ H)
    as (scale & E' & _ & H1 & H2 & H3 & H4 & H5 & H6 & H7 & H8 & H9 & H10 & _).
  rewrite H5, H6, H7, H8, !repeat_length.
  rewrite (gather_length _ _ _ H1), (gather_length _ _ _ H2),
          (gather_length _ _ _ H3), (gather_length _ _ _ H4).
  repeat split; assumption.
Qed.

(** X15: shape consistency.  In every example that a step hands on, all
    the per-view fields of a group have as many entries as the group has
    indices: extrinsics, intrinsics, near and far, and in the
    direction-encoded path also images, depths and positions.  The
    context group has 4 views in the direction-encoded path and 2 in the
    pose-vector path; the target group of the direction-encoded path is
    never empty; the pose-vector path carries no depths or positions. *)
Theorem shape_consistency (self : DatasetRE10k) :
  (forall chunk_path chunk (ex : Example ImageBatch),
     process_direction_chunk inverse sample get_fov self chunk_path chunk = Yield ex ->
     direction_views_have_size (context ex) 4 /\
     direction_views_have_size (target ex) (length (v_index (target ex))) /\
     (1 <= length (v_index (target ex)))%nat) /\
  (forall run_idx example (ex : Example ImageBatch),
     process_pose_example inverse sample get_fov convert_images batch_shape self run_idx example
       = Yield ex ->
     views_have_size (context ex) 2 /\
     views_have_size (target ex) (length (v_index (target ex))) /\
     v_depths (context ex) = None /\ v_positions (context ex) = None /\
     v_depths (target ex) = None /\ v_positions (target ex) = None).
Proof.
  split.
  - intros chunk_path chunk ex H.
    destruct (process_direction_chunk_yield _ _ _ _ _ _ _ H)
      as (imgs & E & K & sampled & _ & _ & _ & Ha).
    destruct (assemble_direction_groups _ _ _ _ _ _ _ _ _ Ha)
      as (ci & ti & cd & td & cp & tp & G1 & G2 & G3 & G4 & G5 & G6 & Hy).
    destruct (views_lengths _ _ _ _ _ _ _ _ _ _ _ _ _ Hy)
      as (I1 & I2 & L1 & L2 & L3 & L4 & L5 & L6 & L7 & L8).
    destruct (assemble_example_fields _ _ _ _ _ _ _ _ _ _ _ _ _ Hy) as (D1 & D2 & P1 & P2).
    destruct (assemble_example_yield _ _ _ _ _ _ _ _ _ _ _ _ _ Hy)
      as (_ & _ & _ & _ & _ & _ & _ & _ & _ & _ & _ & _ & _ & M1 & M2 & _).
    apply gather_cat_some in G1, G2, G3, G4, G5, G6.
    destruct G1 as (_ & _ & G1), G2 as (_ & Hne & G2), G3 as (_ & _ & G3),
             G4 as (_ & _ & G4), G5 as (_ & _ & G5), G6 as (_ & _ & G6).
    unfold direction_views_have_size, views_have_size.
    rewrite I1, I2, L1, L2, L3, L4, L5, L6, L7, L8.
    split; [| split].
    + split; [repeat split; reflexivity |].
      exists ci, cd, cp. repeat split; assumption.
    + split; [repeat split; reflexivity |].
      exists ti, td, tp. repeat split; assumption.
    + destruct (snd sampled); [congruence | simpl; lia].
  - intros run_idx example ex H.
    destruct (process_pose_example_yield _ _ _ _ _ _ _ _ _ H)
      as (E & K & sampled & _ & _ & Ha).
    destruct (assemble_pose_yield _ _ _ _ _ _ _ _ _ _ Ha) as (fov & ci & ti & _ & _ & Hy).
    destruct (views_lengths _ _ _ _ _ _ _ _ _ _ _ _ _ Hy)
      as (I1 & I2 & L1 & L2 & L3 & L4 & L5 & L6 & L7 & L8).
    destruct (assemble_example_fields _ _ _ _ _ _ _ _ _ _ _ _ _ Hy) as (D1 & D2 & P1 & P2).
    unfold views_have_size.
    rewrite I1, I2, L1, L2, L3, L4, L5, L6, L7, L8.
    repeat split; assumption || reflexivity.
Qed.

(** X16: scenes too short for the literal context indices.  Once the
    policy has answered and the field of view has passed, a
    direction-encoded chunk with at most 45 frames, and a pose-vector
    record with at most one image, make the step raise (the index error is
    not caught), whatever indices the policy returned; it is not a skip. *)
Theorem short_scene_raises (self : DatasetRE10k) :
  (forall chunk_path chunk imgs E K sampled fov,
     rescale_images (radiance chunk) = Some imgs ->
     chunk_cameras inverse (length imgs) (direction chunk) = Some (E, K) ->
     sample (chunk_key chunk_path) E K = Some sampled ->
     get_fov K = Some fov -> fov_too_wide (cfg self) fov = false ->
     (length imgs <= 45)%nat ->
     @process_direction_chunk ImageBatch inverse sample get_fov self chunk_path chunk = Raise) /\
  (forall run_idx example E K sampled fov,
     convert_cameras inverse (cameras example) = Some (E, K) ->
     sample (scene_name self run_idx example) E K = Some sampled ->
     get_fov K = Some fov -> fov_too_wide (cfg self) fov = false ->
     (length (images example) <= 1)%nat ->
     process_pose_example inverse sample get_fov convert_images batch_shape self run_idx example
       = Raise).
Proof.
  split.
  - intros chunk_path chunk imgs E K sampled fov Hr Hc Hs Hg Hf Hlen.
    unfold process_direction_chunk. rewrite Hr, Hc, Hs.
    unfold assemble_direction. rewrite Hg, Hf.
    assert (Hn : gather_cat imgs direction_context_indices = None).
    { unfold gather_cat, direction_context_indices.
      apply (gather_out_of_range imgs _ 45%nat); [simpl; auto 6 | exact Hlen]. }
    rewrite Hn. reflexivity.
  - intros run_idx example E K sampled fov Hc Hs Hg Hf Hlen.
    unfold process_pose_example. rewrite Hc, Hs.
    unfold assemble_pose. rewrite Hg, Hf.
    assert (Hn : gather (images example) pose_context_indices = None).
    { apply (gather_out_of_range _ _ 1%nat); [simpl; auto | exact Hlen]. }
    rewrite Hn. reflexivity.
Qed.

(** X17: the shape check of the pose-vector path.  Once the policy has
    answered, the field of view has passed and the images are decoded:
    with [skip_bad_shape] a context or target batch whose shape is not
    (3, 360, 640) makes the step a skip; without [skip_bad_shape] the
    shapes are never looked at. *)
Theorem bad_shape_skip (self : DatasetRE10k) :
  (forall run_idx example E K sampled fov craw traw ci ti,
     convert_cameras inverse (cameras example) = Some (E, K) ->
     sample (scene_name self run_idx example) E K = Some sampled ->
     get_fov K = Some fov -> fov_too_wide (cfg self) fov = false ->
     gather (images example) pose_context_indices = Some craw ->
     gather (images example) (snd sampled) = Some traw ->
     convert_images craw = Some ci -> convert_images traw = Some ti ->
     skip_bad_shape (cfg self) = true ->
     batch_shape ci <> [3; 360; 640]%nat \/ batch_shape ti <> [3; 360; 640]%nat ->
     process_pose_example inverse sample get_fov convert_images batch_shape self run_idx example
       = Skip) /\
  (skip_bad_shape (cfg self) = false ->
   forall (batch_shape' : ImageBatch -> list nat) run_idx example,
     process_pose_example inverse sample get_fov convert_images batch_shape self run_idx example =
     process_pose_example inverse sample get_fov convert_images batch_shape' self run_idx example).
Proof.
  split.
  - intros run_idx example E K sampled fov craw traw ci ti Hc Hs Hg Hf Hgc Hgt Hci Hti Hsk Hbad.
    unfold process_pose_example. rewrite Hc, Hs.
    unfold assemble_pose. rewrite Hg, Hf, Hgc, Hgt, Hci, Hti, Hsk.
    assert (Hinv : image_invalid batch_shape ci || image_invalid batch_shape ti = true).
    { unfold image_invalid. apply orb_true_iff.
      destruct Hbad as [H | H]; [left | right];
        (destruct (list_eq_dec Nat.eq_dec _ [3; 360; 640]%nat); [contradiction | reflexivity]). }
    rewrite Hinv. reflexivity.
  - intros Hsk batch_shape' run_idx example.
    unfold process_pose_example.
    destruct (convert_cameras inverse (cameras example)) as [[E K] |]; [| reflexivity].
    destruct (sample _ E K) as [sampled |]; [| reflexivity].
    unfold assemble_pose. rewrite Hsk. reflexivity.
Qed.

(** X18: what ends a pass and what does not, for a [.torch] chunk read in
    order (no [overfit_to_scene], no shuffling, at least one repeat).  If
    the poses of the first record are rejected by the conversion, the
    exception is not caught: the pass ends there and yields nothing of this
    chunk nor of the chunks after it.  If for every record the conversion
    succeeds and the policy raises its [ValueError], the chunk yields
    nothing and the pass goes on with the next chunk. *)
Theorem pose_chunk_exception_policy (self : DatasetRE10k) (randperm : nat -> list nat)
    (k : nat) (chunk_path : string) (rest : list string) :
  is_zst chunk_path = false ->
  overfit_to_scene (cfg self) = None -> stage_shuffles self = false ->
  (1 <= test_times_per_scene (cfg self))%nat ->
  let iter_chunks_ :=
    iter_chunks inverse sample get_fov convert_images batch_shape apply_augmentation_shim
      apply_crop_shim read_zst torch_load self randperm in
  (forall example others,
     torch_load chunk_path = example :: others ->
     convert_cameras inverse (cameras example) = None ->
     iter_chunks_ k (chunk_path :: rest) = Aborted []) /\
  ((forall example, In example (torch_load chunk_path) ->
      exists E K, convert_cameras inverse (cameras example) = Some (E, K) /\
                  forall scene_key, sample scene_key E K = None) ->
   iter_chunks_ k (chunk_path :: rest) = iter_chunks_ (S k) rest).
Proof.
  intros Hz Ho Hs Ht iter_chunks_.
  assert (Hsteps : forall chunk,
            pose_chunk_steps inverse sample get_fov convert_images batch_shape self (randperm k) chunk =
            map (fun run_idx =>
                   match nth_error chunk (run_idx / test_times_per_scene (cfg self)) with
                   | Some example =>
                       process_pose_example inverse sample get_fov convert_images batch_shape
                         self run_idx example
                   | None => Raise
                   end) (seq 0 (test_times_per_scene (cfg self) * length chunk))).
  { intros chunk. unfold pose_chunk_steps. rewrite Ho, Hs. reflexivity. }
  split.
  - intros example others Hl Hc.
    unfold iter_chunks_. simpl. unfold chunk_steps. rewrite Hz, Hsteps, Hl.
    destruct (test_times_per_scene (cfg self)) as [| t] eqn:Et; [lia |].
    replace (S t * length (example :: others))%nat
      with (S (t + length others * S t)) by (simpl; lia).
    cbn [seq map]. rewrite Nat.Div0.div_0_l. cbn [nth_error].
    unfold process_pose_example. rewrite Hc. reflexivity.
  - intros Hall. unfold iter_chunks_. simpl. unfold chunk_steps. rewrite Hz, Hsteps.
    fold iter_chunks_.
    set (tail := iter_chunks inverse sample get_fov convert_images batch_shape
                   apply_augmentation_shim apply_crop_shim read_zst torch_load
                   self randperm (S k) rest).
    assert (G : forall steps,
               Forall (fun o : outcome (Example ImageBatch) => o = Skip) steps ->
               run_steps apply_augmentation_shim apply_crop_shim self steps tail = tail).
    { induction steps as [| o steps IH]; intros HF; [reflexivity |].
      inversion HF; subst. simpl. now apply IH. }
    apply G. apply Forall_forall. intros o Ho'. apply in_map_iff in Ho'.
    destruct Ho' as (run_idx & <- & Hin). apply in_seq in Hin.
    destruct (nth_error (torch_load chunk_path) (run_idx / test_times_per_scene (cfg self)))
      as [example |] eqn:En.
    + destruct (Hall example (nth_error_In _ _ En)) as (E & K & Hc & Hsamp).
      unfold process_pose_example. rewrite Hc, Hsamp. reflexivity.
    + exfalso. apply nth_error_None in En.
      assert (run_idx / test_times_per_scene (cfg self) < length (torch_load chunk_path))%nat.
      { apply Nat.Div0.div_lt_upper_bound. lia. }
      lia.
Qed.

End SceneFacts.

Module SceneWitness.
Import Fixture.

Lemma pose0_accepted (n : nat) :
  exists E K, convert_cameras Fixture.exact_inverse (repeat pose0 (S n)) = Some (E, K) /\
              length E = S n /\ length K = S n.
Proof.
  destruct (convert_poses_total Fixture.exact_inverse exact_inverse_regular (repeat pose0 (S n)))
    as (E & K & H).
  { discriminate. }
  { intros p Hp. apply repeat_spec in Hp. subst p.
    split; [reflexivity |]. unfold pose0, stored_matrix. unfold_mat. simpl. lra. }
  exists E, K. split; [rewrite convert_cameras_eq; exact H |].
  destruct (convert_poses_lengths _ _ _ _ H) as [LE LK].
  rewrite repeat_length in LE, LK. auto.
Qed.

Lemma fov_90_ok (c : DatasetRE10kCfg) (K : list mat3) :
  max_fov c = 150 -> fov_too_wide c (map (fun _ => 90 * PI / 180) K) = false.
Proof.
  intros Hm. unfold fov_too_wide. induction K as [| k K IH]; simpl; [reflexivity |].
  rewrite IH, FixtureFacts.rad2deg_deg, orb_false_r. unfold Rgtb.
  apply Rltb_false. rewrite Hm. lra.
Qed.

Lemma example0_yields :
  exists ex,
    process_pose_example Fixture.exact_inverse sample0 (get_fov_const (90 * PI / 180)) convert_images0
      batch_shape0 (dataset0 false test []) 0 example0 = Yield ex.
Proof.
  destruct (pose0_accepted 2) as (E & K & Hc & LE & LK).
  destruct E as [| e0 [| e1 [| e2 [| ? ?]]]]; try discriminate LE.
  destruct K as [| k0 [| k1 [| k2 [| ? ?]]]]; try discriminate LK.
  unfold process_pose_example.
  change (cameras example0) with (repeat pose0 3). rewrite Hc. unfold sample0.
  apply (assemble_pose_total _ _ _ (dataset0 false test []) _ _ _ _ _
           (map (fun _ => 90 * PI / 180) [k0; k1; k2]) [tt; tt] [tt]
           [tt; tt] [tt] 1 [e0; e1; e2]); try reflexivity; try discriminate.
  apply fov_90_ok. reflexivity.
Qed.

End SceneWitness.

(** The sample record: two context views, one target view. *)
Lemma shape_consistency_witness :
  exists ex,
    process_pose_example Fixture.exact_inverse Fixture.sample0 (Fixture.get_fov_const (90 * PI / 180))
      Fixture.convert_images0 Fixture.batch_shape0 (Fixture.dataset0 false test [])
      0 Fixture.example0 = Yield ex /\
    views_have_size (context ex) 2 /\ views_have_size (target ex) 1.
Proof.
  destruct SceneWitness.example0_yields as [ex Hex]. exists ex. split; [exact Hex |].
  destruct (proj2 (shape_consistency Fixture.exact_inverse Fixture.sample0 (Fixture.get_fov_const (90 * PI / 180))
                     Fixture.convert_images0 Fixture.batch_shape0
                     (Fixture.dataset0 false test [])) 0%nat Fixture.example0 ex Hex)
    as (Hc & Ht & _).
  split; [exact Hc |].
  destruct (process_pose_example_yield _ _ _ _ _ _ _ _ _ Hex) as (E & K & sampled & _ & Hs & Ha).
  injection Hs as <-.
  destruct (assemble_pose_yield _ _ _ _ _ _ _ _ _ _ Ha) as (fov & ci & ti & _ & _ & Hy).
  destruct (assemble_example_yield _ _ _ _ _ _ _ _ _ _ _ _ _ Hy)
    as (_ & _ & _ & _ & _ & _ & _ & _ & _ & _ & _ & _ & Hi & _).
  rewrite Hi in Ht. exact Ht.
Defined.

(** A record with a single image: the literal context index 1 is out of
    range. *)
Lemma short_scene_raises_witness :
  process_pose_example Fixture.exact_inverse Fixture.sample0 (Fixture.get_fov_const (90 * PI / 180))
    Fixture.convert_images0 Fixture.batch_shape0 (Fixture.dataset0 false test [])
    0 (mkPose "short" [Fixture.pose0] [tt]) = Raise.
Proof.
  destruct (SceneWitness.pose0_accepted 0) as (E & K & Hc & _ & _).
  apply (proj2 (short_scene_raises Fixture.exact_inverse Fixture.sample0 (Fixture.get_fov_const (90 * PI / 180))
                  Fixture.convert_images0 Fixture.batch_shape0
                  (Fixture.dataset0 false test []))
               0%nat (mkPose "short" [Fixture.pose0] [tt]) E K ([2; 1]%nat, [2]%nat)
               (map (fun _ => 90 * PI / 180) K)).
  - exact Hc.
  - reflexivity.
  - reflexivity.
  - apply SceneWitness.fov_90_ok. reflexivity.
  - simpl. lia.
Defined.

(** The sample record decoded to batches of another shape: skipped. *)
Lemma bad_shape_skip_witness :
  process_pose_example Fixture.exact_inverse Fixture.sample0 (Fixture.get_fov_const (90 * PI / 180))
    Fixture.convert_images0 (fun _ => [3; 256; 256]%nat) (Fixture.dataset0 false test [])
    0 Fixture.example0 = Skip.
Proof.
  destruct (SceneWitness.pose0_accepted 2) as (E & K & Hc & _ & _).
  apply (proj1 (bad_shape_skip Fixture.exact_inverse Fixture.sample0 (Fixture.get_fov_const (90 * PI / 180))
                  Fixture.convert_images0 (fun _ => [3; 256; 256]%nat)
                  (Fixture.dataset0 false test []))
               0%nat Fixture.example0 E K ([2; 1]%nat, [2]%nat)
               (map (fun _ => 90 * PI / 180) K) [tt; tt] [tt] [tt; tt] [tt]);
    try reflexivity.
  - exact Hc.
  - apply SceneWitness.fov_90_ok. reflexivity.
  - left. discriminate.
Defined.

(** A chunk whose first record has no poses ends the pass. *)
Lemma pose_chunk_exception_policy_witness :
  iter_chunks Fixture.exact_inverse Fixture.sample0 (Fixture.get_fov_const (90 * PI / 180))
    Fixture.convert_images0 Fixture.batch_shape0 Fixture.shim0 Fixture.shim0
    (fun _ => Fixture.chunk0) (fun _ => [mkPose "empty" [] []; Fixture.example0])
    (Fixture.dataset0 false test []) (fun _ => []) 1
    ["a.torch"; "b.torch"]%string = Aborted [].
Proof.
  apply (proj1 (pose_chunk_exception_policy Fixture.exact_inverse Fixture.sample0
                  (Fixture.get_fov_const (90 * PI / 180))
                  Fixture.convert_images0 Fixture.batch_shape0 Fixture.shim0 Fixture.shim0
                  (fun _ => Fixture.chunk0)
                  (fun _ => [mkPose "empty" [] []; Fixture.example0])
                  (Fixture.dataset0 false test []) (fun _ => []) 1%nat
                  "a.torch"%string ["b.torch"%string]
                  eq_refl eq_refl eq_refl (le_n 1))
               (mkPose "empty" [] []) [Fixture.example0]); reflexivity.
Defined.

(** ** More on the radiance rescaling *)

Section RescaleFacts.

Lemma list_max_ge_head (x : R) (l : list R) : x <= list_max x l.
Proof.
  revert x; induction l as [| y l IH]; intros x; simpl; [lra |].
  eapply Rle_trans; [apply Rmax_l | apply IH].
Qed.

Lemma list_max_ge (x : R) (l : list R) (y : R) : In y l -> y <= list_max x l.
Proof.
  revert x; induction l as [| z l IH]; intros x; simpl; [tauto |].
  intros [<- | Hin].
  - eapply Rle_trans; [apply Rmax_r | apply list_max_ge_head].
  - now apply IH.
Qed.

Lemma channel_max_ge (ch : vec3 -> R) (pixels : list vec3) (m : R) (p : vec3) :
  channel_max ch pixels = Some m -> In p pixels -> ch p <= m.
Proof.
  destruct pixels as [| q ps]; simpl; [discriminate |].
  intros H; injection H as <-. intros [<- | Hin].
  - apply list_max_ge_head.
  - apply list_max_ge. now apply in_map.
Qed.

Lemma map_map_id {A : Type} (f : A -> A) (l : list (list A)) :
  (forall a, f a = a) -> map (map f) l = l.
Proof.
  intros Hf. induction l as [| x l IH]; simpl; [reflexivity |].
  rewrite IH. f_equal. induction x as [| a x IHx]; simpl; [reflexivity |].
  now rewrite Hf, IHx.
Qed.

End RescaleFacts.

(** X19: for a chunk whose three channel maxima are positive, the rescaled
    radiance has no channel value above 1, rescaling it again changes
    nothing, and multiplying all radiance values of the chunk by a
    positive factor beforehand gives the same rescaled images. *)
Theorem rescale_images_normal_form (images out : list (list vec3)) (mx my mz : R) :
  rescale_images images = Some out ->
  channel_max vx (concat images) = Some mx ->
  channel_max vy (concat images) = Some my ->
  channel_max vz (concat images) = Some mz ->
  0 < mx -> 0 < my -> 0 < mz ->
  (forall frame p, In frame out -> In p frame -> vx p <= 1 /\ vy p <= 1 /\ vz p <= 1) /\
  rescale_images out = Some out /\
  (forall k, 0 < k ->
     rescale_images (map (map (fun p => vscale p k)) images) = Some out).
Proof.
  intros Hr Hx Hy Hz Px Py Pz.
  assert (Hout : out = map (map (div_channels (V3 mx my mz))) images).
  { destruct (rescale_images_some _ _ Hr) as (mx' & my' & mz' & Hx' & Hy' & Hz' & ->).
    congruence. }
  assert (Hc : concat out = map (div_channels (V3 mx my mz)) (concat images))
    by (rewrite Hout; symmetry; apply concat_map).
  assert (Mx : channel_max vx (concat out) = Some 1).
  { rewrite Hc, (channel_max_map vx _ mx mx (concat images)); auto. now rewrite Rdiv_self. }
  assert (My : channel_max vy (concat out) = Some 1).
  { rewrite Hc, (channel_max_map vy _ my my (concat images)); auto. now rewrite Rdiv_self. }
  assert (Mz : channel_max vz (concat out) = Some 1).
  { rewrite Hc, (channel_max_map vz _ mz mz (concat images)); auto. now rewrite Rdiv_self. }
  split; [| split].
  - intros frame p Hf Hp.
    assert (Hin : In p (concat out)) by (apply in_concat; eauto).
    split; [| split].
    + apply (channel_max_ge vx _ 1 p Mx Hin).
    + apply (channel_max_ge vy _ 1 p My Hin).
    + apply (channel_max_ge vz _ 1 p Mz Hin).
  - unfold rescale_images. rewrite Mx, My, Mz. f_equal.
    apply map_map_id. intros [x y z]. unfold div_channels; simpl. f_equal; field.
  - intros k Hk.
    set (f := fun p : vec3 => vscale p k).
    assert (Hcs : concat (map (map f) images) = map f (concat images))
      by (symmetry; apply concat_map).
    assert (Ik : 0 < / k) by (now apply Rinv_0_lt_compat).
    unfold rescale_images. rewrite Hcs.
    rewrite (channel_max_map vx f (/ k) mx (concat images)); auto;
      [| intros p; unfold f, vscale; simpl; field; lra].
    rewrite (channel_max_map vy f (/ k) my (concat images)); auto;
      [| intros p; unfold f, vscale; simpl; field; lra].
    rewrite (channel_max_map vz f (/ k) mz (concat images)); auto;
      [| intros p; unfold f, vscale; simpl; field; lra].
    f_equal. rewrite Hout, map_map. apply map_ext. intros frame.
    rewrite map_map. apply map_ext. intros [x y z].
    unfold f, vscale, div_channels; simpl. f_equal; field; lra.
Qed.

Lemma rescale_images_normal_form_witness :
  let images := [[V3 1 2 4]; [V3 1 2 4]] in
  exists out, rescale_images images = Some out /\ rescale_images out = Some out.
Proof.
  intros images.
  destruct (rescale_images_total images) as [out Hout]; [discriminate |].
  exists out. split; [exact Hout |].
  assert (E : forall a : R, list_max a [a] = a)
    by (intros a; simpl; apply Rmax_left; lra).
  destruct (rescale_images_normal_form images out 1 2 4 Hout) as (_ & H & _);
    try (simpl; f_equal; apply E); try lra.
  exact H.
Defined.

(** ** Chunk files: [Path.suffix] against the test of [__iter__] *)

Section SuffixFacts.

Lemma split_char_cons (c : ascii) (s : string) : exists h t, split_char c s = h :: t.
Proof.
  destruct s as [| a s]; simpl; [eauto |].
  destruct (Ascii.eqb a c); [eauto |].
  destruct (split_char c s); eauto.
Qed.

Lemma split_char_single (c : ascii) (s h : string) : split_char c s = [h] -> h = s.
Proof.
  revert h. induction s as [| b s IH]; intros h E; simpl in E.
  - now injection E.
  - destruct (Ascii.eqb b c).
    + destruct (split_char_cons c s) as (h' & t' & E'). rewrite E' in E. discriminate.
    + destruct (split_char_cons c s) as (h' & t' & E'). rewrite E' in E.
      destruct t'; [| discriminate]. injection E as <-.
      now rewrite (IH h' E').
Qed.

(** The last piece of a split is an end of the string. *)
Lemma last_split_char_suffix (c : ascii) (s : string) :
  exists pre, s = (pre ++ last (split_char c s) EmptyString)%string.
Proof.
  induction s as [| a s IH].
  - exists EmptyString. reflexivity.
  - destruct IH as [pre IH].
    destruct (split_char_cons c s) as (h & t & E).
    cbn [split_char]. rewrite E. rewrite E in IH.
    destruct (Ascii.eqb a c).
    + exists (String a pre). cbn [last append]. now f_equal.
    + destruct t as [| h2 t].
      * exists EmptyString. cbn [last append].
        now rewrite (split_char_single c s h E).
      * exists (String a pre). cbn [last append]. cbn [last] in IH. now f_equal.
Qed.

Lemma rfind_char_split (c : ascii) (s : string) (i : nat) :
  rfind_char c s = Some i ->
  exists a b, s = (a ++ String c b)%string /\ String.length a = i /\
              has_char c b = false /\
              substring i (String.length s - i) s = String c b.
Proof.
  revert i. induction s as [| x s IH]; intros i; simpl; [discriminate |].
  destruct (rfind_char c s) as [j |] eqn:Ej.
  - intros H; injection H as <-.
    destruct (IH j eq_refl) as (a & b & Hs & Hl & Hb & Hsub).
    exists (String x a), b. simpl. rewrite <- Hs, Hl.
    repeat split; auto.
  - destruct (Ascii.eqb x c) eqn:Ex; [| discriminate].
    intros H; injection H as <-. apply Ascii.eqb_eq in Ex. subst x.
    assert (Hb : has_char c s = false).
    { clear IH. induction s as [| y s IHs]; simpl in *; [reflexivity |].
      destruct (rfind_char c s); [discriminate |].
      destruct (Ascii.eqb y c); [discriminate |]. simpl. now apply IHs. }
    exists EmptyString, s. simpl. repeat split; auto.
    f_equal. clear. induction s as [| y s IHs]; simpl; [reflexivity |]. now rewrite IHs.
Qed.

Lemma suffix_split (p ext : string) :
  suffix p = String "." ext ->
  has_char "." ext = false /\ exists stem, p = (stem ++ String "." ext)%string.
Proof.
  unfold suffix.
  destruct (rfind_char "." (path_name p)) as [i |] eqn:Ei; [| discriminate].
  destruct ((0 <? i)%nat && (i <? String.length (path_name p) - 1)%nat); [| discriminate].
  destruct (rfind_char_split _ _ _ Ei) as (a & b & Hs & Hl & Hb & Hsub).
  rewrite Hsub. intros H; injection H as <-.
  split; [exact Hb |].
  destruct (last_split_char_suffix "/" p) as [pre Hp]. fold (path_name p) in Hp.
  exists (pre ++ a)%string. rewrite Hp at 1. rewrite Hs.
  clear. induction pre as [| x pre IH]; simpl; [reflexivity |]. now rewrite IH.
Qed.

Lemma is_zst_of_suffix (p ext : string) :
  suffix p = String "." ext -> is_zst p = String.eqb ext "zst".
Proof.
  intros H. destruct (suffix_split p ext H) as (Hb & stem & ->).
  unfold is_zst. now rewrite last_split_dot_app, split_dot_no_dot.
Qed.

Lemma take_every_incl {A : Type} (k : nat) (l : list A) (x : A) :
  In x (take_every k l) -> In x l.
Proof.
  unfold take_every. intros H. apply in_map_iff in H.
  destruct H as ([j y] & <- & Hin). apply filter_In in Hin. destruct Hin as [Hin _].
  apply in_enumerate in Hin. simpl. now apply nth_error_In in Hin.
Qed.

Lemma slice_step_incl {A : Type} (l l' : list A) (k : Z) (x : A) :
  slice_step l k = Some l' -> In x l' -> In x l.
Proof.
  unfold slice_step. destruct (k =? 0)%Z; [discriminate |].
  destruct (0 <? k)%Z; intros H; injection H as <-; intros Hin;
    apply take_every_incl in Hin; [exact Hin | now apply in_rev].
Qed.

End SuffixFacts.

(** ** The index and [__init__] *)

Lemma nodup_app_disjoint {A : Type} (l1 l2 : list A) (x : A) :
  NoDup (l1 ++ l2) -> In x l1 -> In x l2 -> False.
Proof.
  induction l1 as [| a l1 IH]; simpl; [tauto |].
  intros Hnd Hin1 Hin2. inversion Hnd as [| ? ? Hnotin Hnd']; subst.
  destruct Hin1 as [-> | Hin1].
  - apply Hnotin. apply in_or_app. now right.
  - now apply IH.
Qed.

Section DictFacts.

Context {V : Type}.

Lemma dict_set_fresh (k : string) (v : V) (d : dict V) :
  ~ In k (dict_keys d) -> dict_set k v d = d ++ [(k, v)].
Proof.
  induction d as [| [k' v'] d IH]; simpl; [reflexivity |].
  intros Hn. destruct (String.eqb k' k) eqn:E.
  - apply String.eqb_eq in E. exfalso. apply Hn. now left.
  - rewrite IH; [reflexivity |]. intros H. apply Hn. now right.
Qed.

Lemma dict_merge_disjoint (a b : dict V) :
  NoDup (dict_keys b) ->
  (forall k, In k (dict_keys b) -> ~ In k (dict_keys a)) ->
  dict_merge a b = a ++ b.
Proof.
  unfold dict_merge. revert a. induction b as [| [k v] b IH]; intros a Hnd Hdis; simpl.
  - now rewrite app_nil_r.
  - inversion Hnd as [| ? ? Hk Hnd']; subst.
    rewrite dict_set_fresh by (apply Hdis; now left).
    rewrite IH; [now rewrite <- app_assoc | exact Hnd' |].
    intros k' Hk' Hin. unfold dict_keys in Hin. rewrite map_app in Hin.
    apply in_app_or in Hin. destruct Hin as [Hin | [<- | []]].
    + apply (Hdis k'); [now right | exact Hin].
    + exact (Hk Hk').
Qed.

Lemma keys_overlap_true {W : Type} (a : dict V) (b : dict W) :
  keys_overlap a b = true <-> exists k, In k (dict_keys b) /\ In k (dict_keys a).
Proof.
  unfold keys_overlap. rewrite existsb_exists. split.
  - intros (k & Hb & Ha). apply existsb_exists in Ha. destruct Ha as (k' & Ha & E).
    apply String.eqb_eq in E. subst k'. eauto.
  - intros (k & Hb & Ha). exists k. split; [exact Hb |].
    apply existsb_exists. exists k. split; [exact Ha | apply String.eqb_refl].
Qed.

Lemma dict_get_in (k : string) (v : V) (d : dict V) :
  NoDup (dict_keys d) -> (dict_get k d = Some v <-> In (k, v) d).
Proof.
  induction d as [| [k' v'] d IH]; simpl; intros Hnd.
  - split; [discriminate | tauto].
  - inversion Hnd as [| ? ? Hk Hnd']; subst.
    destruct (String.eqb k' k) eqn:E.
    + apply String.eqb_eq in E. subst k'. split.
      * intros H; injection H as <-. now left.
      * intros [H | H]; [now injection H as <- |].
        exfalso. apply Hk. apply (in_map fst) in H. exact H.
    + apply String.eqb_neq in E. rewrite (IH Hnd'). split; [tauto |].
      intros [H | H]; [injection H as -> _; congruence | exact H].
Qed.

End DictFacts.

Section ConstructionFacts.

Variable joinpath : string -> string -> string.
Variable iterdir : string -> list string.
Variable read_index : string -> dict string.
Variable sorted : list string -> list string.

(** [json.load] returns a dict: the keys of an index file are distinct. *)
Hypothesis read_index_keys : forall file, NoDup (dict_keys (read_index file)).

(** [sorted] reorders its argument. *)
Hypothesis sorted_permutation : forall l, Permutation (sorted l) l.

Lemma load_index_keys (source : string * Stage) :
  NoDup (dict_keys (load_index joinpath read_index source)).
Proof.
  unfold load_index, dict_keys. rewrite map_map. simpl. apply read_index_keys.
Qed.

Lemma merge_indices_spec (loaded : list (dict string)) (merged : dict string) :
  Forall (fun d => NoDup (dict_keys d)) loaded ->
  NoDup (dict_keys merged) ->
  (NoDup (dict_keys (merged ++ concat loaded)) ->
   merge_indices loaded merged = Some (merged ++ concat loaded)) /\
  (~ NoDup (dict_keys (merged ++ concat loaded)) -> merge_indices loaded merged = None).
Proof.
  revert merged. induction loaded as [| idx rest IH]; intros merged Hall Hm; simpl.
  - rewrite app_nil_r. split; [reflexivity | contradiction].
  - inversion Hall as [| ? ? Hidx Hrest]; subst.
    destruct (keys_overlap merged idx) eqn:Eo.
    + split; [| reflexivity]. intros Hnd. exfalso.
      apply keys_overlap_true in Eo. destruct Eo as (k & Hb & Ha).
      unfold dict_keys in Hnd. rewrite map_app, map_app in Hnd.
      apply (nodup_app_disjoint _ _ k Hnd Ha). apply in_or_app. now left.
    + assert (Hdis : forall k, In k (dict_keys idx) -> ~ In k (dict_keys merged)).
      { intros k Hb Ha.
        assert (keys_overlap merged idx = true) by (apply keys_overlap_true; eauto).
        congruence. }
      rewrite (dict_merge_disjoint merged idx Hidx Hdis).
      assert (Hm' : NoDup (dict_keys (merged ++ idx))).
      { unfold dict_keys. rewrite map_app. apply NoDup_app; auto.
        intros k Ha Hb. exact (Hdis k Hb Ha). }
      destruct (IH (merged ++ idx) Hrest Hm') as [H1 H2].
      rewrite <- app_assoc in H1, H2. split; assumption.
Qed.

Lemma filter_all {A : Type} (f : A -> bool) (l : list A) :
  (forall x, In x l -> f x = true) -> filter f l = l.
Proof.
  induction l as [| a l IH]; simpl; intros H; [reflexivity |].
  rewrite (H a (or_introl eq_refl)), IH; [reflexivity |]. intros x Hx. apply H. now right.
Qed.

Lemma take_every_one {A : Type} (l : list A) : take_every 1 l = l.
Proof.
  unfold take_every. rewrite filter_all; [apply map_snd_enumerate |].
  intros p _. now rewrite Nat.mod_1_r.
Qed.

Lemma take_every_subseq {A : Type} (k : nat) (l : list A) : subseq (take_every k l) l.
Proof.
  unfold take_every.
  pose proof (subseq_filter_map (@snd nat A) (fun p => (fst p mod k =? 0)%nat) (enumerate l)) as H.
  now rewrite map_snd_enumerate in H.
Qed.

Lemma take_every_length {A : Type} (k : nat) (l : list A) :
  (0 < k)%nat -> length (take_every k l) = ((length l + (k - 1)) / k)%nat.
Proof.
  intros Hk. unfold take_every. rewrite length_map.
  transitivity (length (filter (fun j => (j mod k =? 0)%nat) (seq 0 (length l)))).
  - rewrite <- (map_fst_enumerate l), filter_map_swap, length_map. reflexivity.
  - rewrite (count_residue k 0 (length l) Hk). now rewrite Nat.sub_0_r.
Qed.

(** X20: the merged index.  The index files are read for every root, for
    the data stage (for "test" and then "train" with [overfit_to_scene]).
    If no key occurs in two of them, [index] is their concatenation in
    that order, looking a key up gives the path of the one file that has
    it, and [__len__] is the number of entries times
    [test_times_per_scene], capped by a positive [test_len] in the test
    stage only; it does not depend on the chunks or on what is skipped.
    If a key occurs in two files, the assertion fails: [index] and
    [__len__] raise. *)
Theorem index_merge (c : DatasetRE10kCfgInit) (st : Stage) :
  let loaded := map (load_index joinpath read_index) (index_sources c st) in
  let n := (Z.of_nat (length (concat loaded)) *
            Z.of_nat (test_times_per_scene (iter_cfg c)))%Z in
  (NoDup (dict_keys (concat loaded)) ->
   index joinpath read_index c st = Some (concat loaded) /\
   (forall k p, dict_get k (concat loaded) = Some p <-> In (k, p) (concat loaded)) /\
   len joinpath read_index c st =
     Some (match st with
           | test => if (0 <? test_len c)%Z then Z.min n (test_len c) else n
           | _ => n
           end)) /\
  (~ NoDup (dict_keys (concat loaded)) ->
   index joinpath read_index c st = None /\ len joinpath read_index c st = None).
Proof.
  intros loaded n.
  assert (Hall : Forall (fun d => NoDup (dict_keys d)) loaded).
  { unfold loaded. apply Forall_forall. intros d Hd. apply in_map_iff in Hd.
    destruct Hd as (src & <- & _). apply load_index_keys. }
  destruct (merge_indices_spec loaded [] Hall (NoDup_nil _)) as [H1 H2].
  simpl in H1, H2. split.
  - intros Hnd. assert (Hi : index joinpath read_index c st = Some (concat loaded))
      by (apply H1; exact Hnd).
    split; [exact Hi |]. split; [intros k p; now apply dict_get_in |].
    unfold len. rewrite Hi. unfold dict_keys. rewrite length_map. reflexivity.
  - intros Hnd. assert (Hi : index joinpath read_index c st = None) by (apply H2; exact Hnd).
    split; [exact Hi |]. unfold len. now rewrite Hi.
Qed.

(** X21: the chunk files that [__init__] collects.  Without
    [overfit_to_scene], every chunk of the constructed dataset has the
    suffix ".torch" or ".zst", and [__iter__], which looks at what follows
    the last dot of the whole path, takes it for a [.zst] chunk exactly
    when its suffix is ".zst": the two tests agree on every collected
    chunk. *)
Theorem init_chunk_files (c : DatasetRE10kCfgInit) (st : Stage) (self : DatasetRE10k) :
  overfit_to_scene (iter_cfg c) = None ->
  init joinpath iterdir read_index sorted c st = Some self ->
  cfg self = iter_cfg c /\ stage self = st /\
  Forall (fun p => (suffix p = ".torch"%string \/ suffix p = ".zst"%string) /\
                   (is_zst p = true <-> suffix p = ".zst"%string))
         (chunks self).
Proof.
  intros Ho Hi. unfold init in Hi. rewrite Ho in Hi.
  assert (Hfile : forall p, In p (collect_chunks joinpath iterdir sorted c st) ->
                            (suffix p = ".torch"%string \/ suffix p = ".zst"%string) /\
                            (is_zst p = true <-> suffix p = ".zst"%string)).
  { intros p Hp. unfold collect_chunks in Hp. apply in_flat_map in Hp.
    destruct Hp as (root & _ & Hp).
    apply (Permutation_in _ (sorted_permutation _)) in Hp.
    apply filter_In in Hp. destruct Hp as [_ Hp].
    unfold is_chunk_file in Hp. apply orb_true_iff in Hp.
    destruct Hp as [Hp | Hp]; apply String.eqb_eq in Hp.
    - split; [now left |]. rewrite (is_zst_of_suffix p "torch" Hp), Hp.
      split; discriminate.
    - split; [now right |]. rewrite (is_zst_of_suffix p "zst" Hp), Hp.
      split; reflexivity. }
  destruct st.
  - injection Hi as <-. repeat split; try reflexivity. apply Forall_forall. exact Hfile.
  - injection Hi as <-. repeat split; try reflexivity. apply Forall_forall. exact Hfile.
  - destruct (slice_step _ (test_chunk_interval c)) as [sl |] eqn:Es; [| discriminate].
    injection Hi as <-. repeat split; try reflexivity. apply Forall_forall.
    intros p Hp. apply Hfile. apply (slice_step_incl _ _ _ _ Es Hp).
Qed.

(** X22: [test_chunk_interval].  Without [overfit_to_scene]: outside the
    test stage the interval is not applied; in the test stage a positive
    interval [k] keeps the chunks at the positions 0, k, 2k, .. (the share
    that worker 0 of [k] workers would get), ceil(n / k) of [n] chunks in
    their order, an interval of 1 keeps them all, a negative interval
    does the same on the reversed list, and an interval of 0 makes
    [__init__] raise. *)
Theorem init_test_interval (c : DatasetRE10kCfgInit) :
  overfit_to_scene (iter_cfg c) = None ->
  let init_ := init joinpath iterdir read_index sorted c in
  let collected := collect_chunks joinpath iterdir sorted c in
  let k := test_chunk_interval c in
  (forall st, st <> test ->
     exists self, init_ st = Some self /\ chunks self = collected st) /\
  (k = 0%Z -> init_ test = None) /\
  ((0 < k)%Z ->
   exists self, init_ test = Some self /\
     chunks self = worker_chunks (Z.to_nat k) 0 (collected test) /\
     length (chunks self) =
       ((length (collected test) + (Z.to_nat k - 1)) / Z.to_nat k)%nat /\
     subseq (chunks self) (collected test) /\
     (k = 1%Z -> chunks self = collected test)) /\
  ((k < 0)%Z ->
   exists self, init_ test = Some self /\
     chunks self = worker_chunks (Z.to_nat (- k)) 0 (rev (collected test))).
Proof.
  intros Ho init_ collected k.
  split; [| split; [| split]].
  - intros st Hst. unfold init_, init. rewrite Ho.
    destruct st; [eexists; split; reflexivity .. | congruence].
  - intros Hk. unfold init_, init, slice_step. rewrite Ho. fold k. rewrite Hk. reflexivity.
  - intros Hk. unfold init_, init, slice_step. rewrite Ho. fold k.
    replace (k =? 0)%Z with false by (symmetry; apply Z.eqb_neq; lia).
    replace (0 <? k)%Z with true by (symmetry; apply Z.ltb_lt; lia).
    eexists. split; [reflexivity |]. simpl chunks. fold (collected test).
    split; [reflexivity |].
    split; [apply take_every_length; lia |].
    split; [apply take_every_subseq |].
    intros H1. rewrite H1. apply take_every_one.
  - intros Hk. unfold init_, init, slice_step. rewrite Ho. fold k.
    replace (k =? 0)%Z with false by (symmetry; apply Z.eqb_neq; lia).
    replace (0 <? k)%Z with false by (symmetry; apply Z.ltb_ge; lia).
    eexists. split; reflexivity.
Qed.

(** X23: [overfit_to_scene].  With a scene key configured, [__init__]
    raises when [index] does or when the key is not in the index;
    otherwise every chunk of the dataset is the path that the index gives
    for the key, repeated as many times as there were chunk files (in the
    test stage, as many as the interval keeps), so shuffling or splitting
    the list changes nothing but its length. *)
Theorem init_overfit (c : DatasetRE10kCfgInit) (st : Stage) (scene_key : string) :
  overfit_to_scene (iter_cfg c) = Some scene_key ->
  let init_ := init joinpath iterdir read_index sorted c st in
  (index joinpath read_index c st = None -> init_ = None) /\
  (forall merged,
     index joinpath read_index c st = Some merged ->
     dict_get scene_key merged = None -> init_ = None) /\
  (forall merged chunk_path self,
     index joinpath read_index c st = Some merged ->
     dict_get scene_key merged = Some chunk_path ->
     init_ = Some self ->
     chunks self = repeat chunk_path (length (chunks self)) /\
     (st <> test ->
      length (chunks self) = length (collect_chunks joinpath iterdir sorted c st)) /\
     (forall indices w,
        chunks (iter_prologue self indices w) =
        repeat chunk_path (length (chunks (iter_prologue self indices w))))).
Proof.
  intros Ho init_. unfold init_, init. rewrite Ho.
  split; [intros ->; reflexivity |].
  split; [intros merged -> ->; reflexivity |].
  intros merged chunk_path self -> -> Hi.
  set (rep := repeat chunk_path (length (collect_chunks joinpath iterdir sorted c st))) in *.
  assert (Hall : forall x, In x (chunks self) -> x = chunk_path).
  { intros x Hx.
    assert (Hrep : In x rep).
    { destruct st; try (injection Hi as <-; exact Hx).
      destruct (slice_step rep (test_chunk_interval c)) as [sl |] eqn:Es; [| discriminate].
      injection Hi as <-. apply (slice_step_incl _ _ _ _ Es Hx). }
    unfold rep in Hrep. now apply repeat_spec in Hrep. }
  split; [now apply all_equal_repeat |].
  split.
  - intros Hst. destruct st; try congruence; injection Hi as <-; simpl;
      unfold rep; apply repeat_length.
  - intros indices w. apply all_equal_repeat. intros x Hx. apply Hall.
    unfold iter_prologue in Hx.
    assert (Hsh : forall l, (forall y, In y l -> In y (chunks self)) ->
                  forall y, In y (shuffle l indices) -> In y (chunks self)).
    { intros l Hl y Hy. unfold shuffle in Hy. apply in_flat_map in Hy.
      destruct Hy as (i & _ & Hy). destruct (nth_error l i) eqn:En; [| destruct Hy].
      destruct Hy as [<- | []]. apply Hl. now apply nth_error_In in En. }
    assert (Hwk : forall W i l, (forall y, In y l -> In y (chunks self)) ->
                  forall y, In y (worker_chunks W i l) -> In y (chunks self)).
    { intros W i l Hl y Hy. apply Hl. unfold worker_chunks, worker_entries in Hy.
      apply in_map_iff in Hy. destruct Hy as ([j z] & <- & Hin).
      apply filter_In in Hin. destruct Hin as [Hin _].
      apply in_enumerate in Hin. now apply nth_error_In in Hin. }
    destruct (stage_shuffles self); simpl in Hx;
      destruct (stage self); destruct w; simpl in Hx; eauto.
Qed.

End ConstructionFacts.

Module ConstructionWitness.
Import FixtureFS.

Lemma read_index0_keys (file : string) : NoDup (dict_keys (read_index0 file)).
Proof.
  unfold read_index0, dict_keys. destruct (String.eqb file _); simpl;
    repeat constructor; simpl; intuition discriminate.
Qed.

Lemma sorted0_permutation (l : list string) : Permutation (sorted0 l) l.
Proof. apply Permutation_refl. Qed.

End ConstructionWitness.

(** One root, one index file with two scenes. *)
Lemma index_merge_witness :
  index FixtureFS.joinpath0 FixtureFS.read_index0 (FixtureFS.cfg_init0 None 1) val =
    Some [("scene_a", "data/test/000.torch"); ("scene_b", "data/test/001.zst")]%string /\
  len FixtureFS.joinpath0 FixtureFS.read_index0 (FixtureFS.cfg_init0 None 1) val = Some 2%Z.
Proof.
  destruct (proj1 (index_merge FixtureFS.joinpath0 FixtureFS.read_index0
                     ConstructionWitness.read_index0_keys (FixtureFS.cfg_init0 None 1) val))
    as (H1 & _ & H3).
  - simpl. repeat constructor; simpl; intuition discriminate.
  - split; [exact H1 | exact H3].
Defined.

(** The sample directory in the validation stage: three chunk files. *)
Lemma init_chunk_files_witness :
  exists self,
    FixtureFS.init0 (FixtureFS.cfg_init0 None 1) val = Some self /\
    chunks self = ["data/test/000.torch"; "data/test/001.zst"; "data/test/002.torch"]%string /\
    Forall (fun p => is_zst p = true <-> suffix p = ".zst"%string) (chunks self).
Proof.
  eexists. split; [reflexivity |]. split; [reflexivity |].
  destruct (init_chunk_files FixtureFS.joinpath0 FixtureFS.iterdir0 FixtureFS.read_index0
              FixtureFS.sorted0 ConstructionWitness.sorted0_permutation
              (FixtureFS.cfg_init0 None 1) val _ eq_refl eq_refl) as (_ & _ & H).
  eapply Forall_impl; [| exact H]. intros p [_ Hp]. exact Hp.
Defined.

(** The sample directory in the test stage with an interval of 2. *)
Lemma init_test_interval_witness :
  exists self,
    FixtureFS.init0 (FixtureFS.cfg_init0 None 2) test = Some self /\
    chunks self = ["data/test/000.torch"; "data/test/002.torch"]%string.
Proof.
  destruct (init_test_interval FixtureFS.joinpath0 FixtureFS.iterdir0 FixtureFS.read_index0
              FixtureFS.sorted0 (FixtureFS.cfg_init0 None 2) eq_refl)
    as (_ & _ & H & _).
  destruct H as (self & Hi & Hc & _); [reflexivity |].
  exists self. split; [exact Hi |]. rewrite Hc. reflexivity.
Defined.

(** The sample directory with [overfit_to_scene] set to a scene of the
    index. *)
Lemma init_overfit_witness :
  exists self,
    FixtureFS.init0 (FixtureFS.cfg_init0 (Some "scene_b"%string) 1) train = Some self /\
    chunks self = repeat "data/test/001.zst"%string 3.
Proof.
  eexists. split; [reflexivity |].
  destruct (init_overfit FixtureFS.joinpath0 FixtureFS.iterdir0 FixtureFS.read_index0
              FixtureFS.sorted0 (FixtureFS.cfg_init0 (Some "scene_b"%string) 1) train
              "scene_b"%string eq_refl) as (_ & _ & H).
  destruct (H _ "data/test/001.zst"%string _ eq_refl eq_refl eq_refl) as (H1 & H2 & _).
  rewrite H1, H2 by discriminate. reflexivity.
Defined.
